(** * evolvepy: a shallow embedding of the evolutionary-algorithm engine
      and of its permutation-preserving strategies.

    Source files embedded here:
    - [evolvepy/individual.py]                     ([Individual])
    - [evolvepy/strategies/crossover.py]           ([OrderedCrossover], [CycleCrossover])
    - [evolvepy/strategies/mutation.py]            ([SwapMutation], [InversionMutation])
    - [evolvepy/strategies/parent_selection.py]    ([TournamentSelection], [UniformSelection])
    - [evolvepy/strategies/survivor_selection.py]  ([PlusSelection], [CommaSelection],
                                                    [PlusAgeBasedSelection])
    - [evolvepy/engine.py]                         ([EvolutionaryAlgorithm])
    - [evolvepy/logger.py]                         ([Logger])

    Conventions.  Python [int]s are [Z] where the code lets them be negative
    (configuration values, ages, generation numbers) and [nat] where they are
    list positions produced by [range]/[random.sample].  Python lists are Rocq
    lists read with [!!] and written with [<[_:=_]>]; a [dict] is a [gmap], a
    [set] a [gset].  A call that may raise returns a [result]. *)

From stdpp Require Import base option list sorting gmap.
From Stdlib Require Import ZArith QArith.
Close Scope Q_scope.

(** ** Exceptions and results *)

(** The Python exceptions the code can raise.  [OutOfFuel] is not one of
    them: it is what the model of a [while] loop returns when its bound on
    the number of iterations is reached. *)
Inductive exn : Type :=
  | ValueError
  | TypeError
  | IndexError
  | KeyError
  | ZeroDivisionError
  | OutOfFuel.

Inductive result (T : Type) : Type :=
  | Ok (v : T)
  | Raise (e : exn).
Arguments Ok {T} v.
Arguments Raise {T} e.

#[global] Instance result_ret : MRet result := λ T v, Ok v.
#[global] Instance result_bind : MBind result := λ T U k r,
  match r with
  | Ok v => k v
  | Raise e => Raise e
  end.

(** ** Python list primitives *)

Section PyList.
Context {T : Type}.

(** [l[i]] for [0 <= i]: raises [IndexError] out of range. *)
Definition py_getitem (l : list T) (i : nat) : result T :=
  match l !! i with
  | Some x => Ok x
  | None => Raise IndexError
  end.

(** [l[i] = x] for [0 <= i]: raises [IndexError] out of range. *)
Definition py_setitem (l : list T) (i : nat) (x : T) : result (list T) :=
  if decide (i < length l) then Ok (<[i:=x]> l) else Raise IndexError.

(** [l[a:b]] for [0 <= a], [0 <= b]; both bounds are clamped to [len(l)]. *)
Definition py_slice (l : list T) (a b : nat) : list T :=
  take (b - a) (drop a l).

(** [l[a:b] = v] for [0 <= a], [0 <= b]: the slice is replaced by [v],
    whatever the length of [v]; an empty slice ([b <= a]) inserts at [a]. *)
Definition py_slice_assign (l : list T) (a b : nat) (v : list T) : list T :=
  take a l ++ v ++ drop (a `max` b) l.

(** [l[:n]] for any integer [n]: a negative [n] counts from the end. *)
Definition py_prefix (l : list T) (n : Z) : list T :=
  if decide (0 ≤ n)%Z then take (Z.to_nat n) l
  else take (length l - Z.to_nat (- n)) l.
End PyList.

(** [x % n] on non-negative operands. *)
Definition py_mod (x n : nat) : result nat :=
  if decide (n = 0) then Raise ZeroDivisionError else Ok (x `mod` n).

(** ** [OrderedCrossover._create_child] *)

(** Python is untyped: a position of a genotype holds any value, [None]
    included.  A gene is therefore an [option A], [None] being Python's
    [None] (the placeholder of [[None] * gen_len]) and [Some a] a proper
    gene. *)

Section OrderedCrossover.
Context {A : Type} `{Countable A}.

(** The body of [for _ in range(gen_len)], with its [break]: [fuel] is the
    number of iterations of the [for] that remain. *)
Fixpoint ox_fill (fuel : nat) (parent2_gen : list (option A))
    (genes_in_child : gset (option A)) (gen_len start : nat)
    (child_gen : list (option A)) (p2_read_idx child_write_idx : nat)
    : result (list (option A)) :=
  match fuel with
  | 0 => Ok child_gen
  | S fuel' =>
      gene ← py_getitem parent2_gen p2_read_idx ;
      st ← (if decide (gene ∉ genes_in_child) then
              child_gen' ← py_setitem child_gen child_write_idx gene ;
              w ← py_mod (child_write_idx + 1) gen_len ;
              Ok (child_gen', w)
            else Ok (child_gen, child_write_idx)) ;
      p2_read_idx' ← py_mod (p2_read_idx + 1) gen_len ;
      if decide (st.2 = start) then Ok st.1
      else ox_fill fuel' parent2_gen genes_in_child gen_len start
             st.1 p2_read_idx' st.2
  end.

Definition _create_child (parent1_gen parent2_gen : list (option A))
    (start end_ : nat) : result (list (option A)) :=
  let gen_len := length parent1_gen in
  let child_gen := replicate gen_len None in
  let child_gen :=
    py_slice_assign child_gen start (end_ + 1)
      (py_slice parent1_gen start (end_ + 1)) in
  let genes_in_child : gset (option A) :=
    list_to_set (py_slice child_gen start (end_ + 1)) in
  p2_read_idx ← py_mod (end_ + 1) gen_len ;
  child_write_idx ← py_mod (end_ + 1) gen_len ;
  ox_fill gen_len parent2_gen genes_in_child gen_len start
    child_gen p2_read_idx child_write_idx.
End OrderedCrossover.

(** ** [Individual] *)

(** [fitness] is a Python [float] or [None].  The code only compares
    fitness values ([<], [>], the comparisons of [sort] and [max]); they are
    modelled by integers, a total order as that of the floats that are not
    NaN.  ([np.mean] and [np.std], the only arithmetic on them, are kept
    abstract in the engine.) *)
Record Individual (G : Type) : Type := mkIndividual {
  genotype : G;
  fitness : option Z;
  age : Z
}.
Arguments mkIndividual {G} _ _ _.
Arguments genotype {G} _.
Arguments fitness {G} _.
Arguments age {G} _.

(** [Individual(genotype)]: [Individual.__init__]. *)
Definition Individual_init {G : Type} (g : G) : Individual G :=
  {| genotype := g; fitness := None; age := 0 |}.

Definition evaluated {G : Type} (ind : Individual G) : Prop :=
  is_Some (fitness ind).

#[global] Instance evaluated_dec {G : Type} (ind : Individual G) :
  Decision (evaluated ind).
Proof. unfold evaluated. apply _. Defined.

(** ** Sorting and maximum by fitness *)

Section ByFitness.
Context {G : Type}.
Implicit Types (ind : Individual G) (l : list (Individual G)).

(** The sort key [ind.fitness], read where it is set. *)
Definition fitness_key ind : Z := default 0%Z (fitness ind).

(** [ind1] is at least as fit as [ind2]: the order of a list sorted by
    descending fitness. *)
Definition fitter_eq ind1 ind2 : Prop :=
  (fitness_key ind2 ≤ fitness_key ind1)%Z.

(** [a > b] on two fitness values: [TypeError] when one of them is [None]. *)
Definition py_gt (a b : option Z) : result bool :=
  match a, b with
  | Some x, Some y => Ok (bool_decide (y < x)%Z)
  | _, _ => Raise TypeError
  end.

(** [l.sort(key=lambda ind: ind.fitness, reverse=True)].  Python's sort is
    stable, with [reverse=True] too: of two individuals of equal fitness the
    one that came first stays first.  [insert_desc] puts [x], which came
    before every element of [l], behind the strictly fitter ones only. *)
Fixpoint insert_desc ind l : list (Individual G) :=
  match l with
  | [] => [ind]
  | y :: l' =>
      if decide (fitness_key ind < fitness_key y)%Z
      then y :: insert_desc ind l'
      else ind :: y :: l'
  end.

Definition sorted_desc l : list (Individual G) := foldr insert_desc [] l.

(** A list of two or more elements is sorted by comparing keys, every key at
    least once, and a comparison with [None] raises [TypeError]; a list of
    fewer than two elements is sorted without any comparison. *)
Definition sort_by_fitness_reverse l : result (list (Individual G)) :=
  if decide (length l < 2 ∨ Forall evaluated l)
  then Ok (sorted_desc l)
  else Raise TypeError.

(** [max(l, key=lambda ind: ind.fitness)]: the first of the fittest;
    [ValueError] on an empty list, [TypeError] when a comparison meets
    [None]. *)
Fixpoint py_max_from (best : Individual G) l : result (Individual G) :=
  match l with
  | [] => Ok best
  | x :: l' =>
      b ← py_gt (fitness x) (fitness best) ;
      py_max_from (if b : bool then x else best) l'
  end.

Definition py_max_by_fitness l : result (Individual G) :=
  match l with
  | [] => Raise ValueError
  | x :: l' => py_max_from x l'
  end.
End ByFitness.

(** ** [survivor_selection.py] *)

Section SurvivorSelection.
Context {G : Type}.
Implicit Types (old_population offspring : list (Individual G)).

(** [PlusSelection.__call__]: [old_population + offspring] is a new list, so
    neither argument is changed by the sort. *)
Definition PlusSelection_call (population_size : Z)
    old_population offspring : result (list (Individual G)) :=
  let combined_population := old_population ++ offspring in
  combined_population ← sort_by_fitness_reverse combined_population ;
  Ok (py_prefix combined_population population_size).

(** [CommaSelection.__call__].  [offspring.sort] sorts the caller's list in
    place: the second component is the list [offspring] as the call leaves
    it.  (After a [TypeError] of the sort Python leaves the list in an
    unspecified order; the model keeps it as it was.) *)
Definition CommaSelection_call (population_size : Z)
    old_population offspring
    : result (list (Individual G)) * list (Individual G) :=
  if decide (Z.of_nat (length offspring) < population_size)%Z then
    (Raise ValueError, offspring)
  else
    match sort_by_fitness_reverse offspring with
    | Ok offspring' => (Ok (py_prefix offspring' population_size), offspring')
    | Raise e => (Raise e, offspring)
    end.

(** [PlusAgeBasedSelection.__call__]. *)
Definition PlusAgeBasedSelection_call (population_size max_age : Z)
    old_population offspring : result (list (Individual G)) :=
  let combined_population := old_population ++ offspring in
  let eligible_population :=
    filter (λ ind, (age ind ≤ max_age)%Z) combined_population in
  eligible_population ← sort_by_fitness_reverse eligible_population ;
  let survivors := py_prefix eligible_population population_size in
  Ok survivors.
End SurvivorSelection.

(** ** The [random] module *)

(** Python's global random generator, as an interface: [random.random()]
    and the positions that [random.sample] picks in a population of [n]
    elements when asked for [k <= n] of them, which are [k] distinct
    positions below [n]. *)
Class RandomSource (rng : Type) : Type := {
  random_random : rng → Q * rng;
  sample_indices : nat → nat → rng → list nat * rng;
  sample_indices_length n k s :
    k ≤ n → length (sample_indices n k s).1 = k;
  sample_indices_NoDup n k s :
    k ≤ n → NoDup (sample_indices n k s).1;
  sample_indices_lt n k s :
    k ≤ n → Forall (λ i, i < n) (sample_indices n k s).1
}.

(** Code that draws random numbers and may raise. *)
Definition M (rng T : Type) : Type := rng → result (T * rng).

#[global] Instance M_ret (rng : Type) : MRet (M rng) := λ T v s, Ok (v, s).
#[global] Instance M_bind (rng : Type) : MBind (M rng) := λ T U k m s,
  match m s with
  | Ok (v, s') => k v s'
  | Raise e => Raise e
  end.

Definition lift {rng T : Type} (r : result T) : M rng T := λ s,
  match r with
  | Ok v => Ok (v, s)
  | Raise e => Raise e
  end.

Definition raise {rng T : Type} (e : exn) : M rng T := λ _, Raise e.

(** [a < b] on two floats, here rationals. *)
Definition Qlt_b (a b : Q) : bool := negb (Qle_bool b a).

(** A rate or probability given as a constant or as a function of the
    generation: [x(current_generation) if callable(x) else x]. *)
Inductive schedule : Type :=
  | Fixed (v : Q)
  | Scheduled (f : Z → Q).

Definition resolve (sch : schedule) (current_generation : Z) : Q :=
  match sch with
  | Fixed v => v
  | Scheduled f => f current_generation
  end.

Section Random.
Context {rng : Type} `{RandomSource rng}.

Definition py_random : M rng Q := λ s,
  let '(u, s') := random_random s in Ok (u, s').

(** [random.sample(population, k)]: [ValueError] when [k] is negative or
    larger than the population. *)
Definition random_sample {T : Type} (population : list T) (k : Z)
    : M rng (list T) := λ s,
  if decide (0 ≤ k ≤ Z.of_nat (length population))%Z then
    let '(idxs, s') :=
      sample_indices (length population) (Z.to_nat k) s in
    Ok (omap (λ i, population !! i) idxs, s')
  else Raise ValueError.

(** [a, b = random.sample(range(gen_len), 2)] *)
Definition sample_two (gen_len : nat) : M rng (nat * nat) :=
  l ← random_sample (seq 0 gen_len) 2 ;
  match l with
  | [a; b] => mret (a, b)
  | _ => raise ValueError
  end.
End Random.

(** A deterministic random source, to run the model on examples: the state
    is a counter, [random()] alternates between 0 and 1/2, and a sample of
    [k] positions is the first [k] of [0 .. n-1] rotated by the counter. *)
Definition counter_random (s : nat) : Q * nat :=
  (if Nat.even s then 0%Q else (1 # 2)%Q, S s).

Definition counter_sample (n k s : nat) : list nat * nat :=
  (take k (rotate s (seq 0 n)), S s).

#[global] Program Instance counter_source : RandomSource nat := {|
  random_random := counter_random;
  sample_indices := counter_sample
|}.
Next Obligation.
  intros. simpl. rewrite length_take, length_rotate, length_seq. lia.
Qed.
Next Obligation.
  intros. simpl.
  eapply sublist_NoDup; [|apply sublist_take].
  unfold rotate. rewrite Permutation_app_comm, take_drop. apply NoDup_seq.
Qed.
Next Obligation.
  intros. simpl. apply Forall_forall. intros i Hi.
  apply subseteq_take, elem_of_rotate, elem_of_seq in Hi. lia.
Qed.

(** ** [parent_selection.py] *)

Record TournamentSelection : Type := { tournament_k : Z }.

(** [TournamentSelection.__init__] *)
Definition TournamentSelection_init (k : Z) : result TournamentSelection :=
  if decide (k ≤ 0)%Z then Raise ValueError
  else Ok {| tournament_k := k |}.

Section ParentSelection.
Context {rng : Type} `{RandomSource rng} {G : Type}.

(** [for _ in range(pop_size)]: one tournament per iteration. *)
Fixpoint tournament_rounds (rounds : nat) (k : Z)
    (population : list (Individual G)) : M rng (list (Individual G)) :=
  match rounds with
  | 0 => mret []
  | S rounds' =>
      contenders ← random_sample population k ;
      winner ← lift (py_max_by_fitness contenders) ;
      parents ← tournament_rounds rounds' k population ;
      mret (winner :: parents)
  end.

(** [TournamentSelection.__call__] *)
Definition TournamentSelection_call (self : TournamentSelection)
    (population : list (Individual G)) : M rng (list (Individual G)) :=
  let pop_size := length population in
  if decide (pop_size = 0) then mret []
  else tournament_rounds pop_size (tournament_k self) population.
End ParentSelection.

(** ** [mutation.py] *)

(** The genotypes of the permutation operators are Python lists: the
    [isinstance(..., list)] checks of the operators hold by typing, and
    their [TypeError] is not in the model.  An operator changes the
    genotype of an offspring in place and returns the list of offspring it
    was given: the model returns that list as the call leaves it. *)

Section Mutation.
Context {rng : Type} `{RandomSource rng} {A : Type}.
Implicit Types (ind : Individual (list (option A))).

Definition set_genotype ind (g : list (option A))
    : Individual (list (option A)) :=
  {| genotype := g; fitness := fitness ind; age := age ind |}.

(** [temp = g[idx1]; g[idx1] = g[idx2]; g[idx2] = temp] *)
Definition swap_in_place (g : list (option A)) (idx1 idx2 : nat)
    : result (list (option A)) :=
  temp ← py_getitem g idx1 ;
  x ← py_getitem g idx2 ;
  g ← py_setitem g idx1 x ;
  py_setitem g idx2 temp.

(** The body of the [for ind in offspring] of [SwapMutation.__call__]. *)
Definition SwapMutation_one (prob : Q) ind
    : M rng (Individual (list (option A))) :=
  u ← py_random ;
  if Qlt_b u prob then
    let gen_len := length (genotype ind) in
    if decide (gen_len < 2) then mret ind
    else
      idxs ← sample_two gen_len ;
      g ← lift (swap_in_place (genotype ind) idxs.1 idxs.2) ;
      mret (set_genotype ind g)
  else mret ind.

Definition SwapMutation_call (prob_schedule : schedule)
    (offspring : list (Individual (list (option A))))
    (current_generation : Z)
    : M rng (list (Individual (list (option A)))) :=
  let prob := resolve prob_schedule current_generation in
  mapM (SwapMutation_one prob) offspring.

(** [sub_list = g[start:end+1]; sub_list.reverse();
     g[start:end+1] = sub_list] *)
Definition invert_in_place (g : list (option A)) (start end_ : nat)
    : list (option A) :=
  let sub_list := py_slice g start (end_ + 1) in
  let sub_list := reverse sub_list in
  py_slice_assign g start (end_ + 1) sub_list.

(** The body of the [for ind in offspring] of
    [InversionMutation.__call__]. *)
Definition InversionMutation_one (prob : Q) ind
    : M rng (Individual (list (option A))) :=
  u ← py_random ;
  if Qlt_b u prob then
    let gen_len := length (genotype ind) in
    if decide (gen_len < 2) then mret ind
    else
      idxs ← sample_two gen_len ;
      let start := idxs.1 `min` idxs.2 in
      let end_ := idxs.1 `max` idxs.2 in
      mret (set_genotype ind (invert_in_place (genotype ind) start end_))
  else mret ind.

Definition InversionMutation_call (prob_schedule : schedule)
    (offspring : list (Individual (list (option A))))
    (current_generation : Z)
    : M rng (list (Individual (list (option A)))) :=
  let prob := resolve prob_schedule current_generation in
  mapM (InversionMutation_one prob) offspring.
End Mutation.

(** What a mutation may do to an offspring: reorder its genes, and nothing
    at all when it has fewer than two. *)
Definition reordered {A : Type}
    (before after : Individual (list (option A))) : Prop :=
  genotype after ≡ₚ genotype before
  ∧ fitness after = fitness before
  ∧ age after = age before
  ∧ (length (genotype before) < 2 → after = before).

(** ** [engine.py] *)

(** [self.history]: a dict of five lists, one entry of each per recorded
    generation.  [np.mean] and [np.std] compute on floats; their results
    are of an abstract type [stat]. *)
Record History (stat : Type) : Type := mkHistory {
  generation : list Z;
  best_fitness : list Z;
  mean_fitness : list stat;
  std_fitness : list stat;
  worst_fitness : list Z
}.
Arguments mkHistory {stat} _ _ _ _ _.
Arguments generation {stat} _.
Arguments best_fitness {stat} _.
Arguments mean_fitness {stat} _.
Arguments std_fitness {stat} _.
Arguments worst_fitness {stat} _.

(** The calls that the engine makes to its logger, a [BaseLogger]. *)
Inductive logger_call (G stat : Type) : Type :=
  | log_start (population_size : Z)
  | log_generation (gen : Z) (history : History stat)
      (best_in_gen : Individual G)
  | log_end (best_individual : option (Individual G))
      (total_generations : Z)
  | close.
Arguments log_start {G stat} _.
Arguments log_generation {G stat} _ _ _.
Arguments log_end {G stat} _ _.
Arguments close {G stat}.

(** [np.max] and [np.min] of a list of fitness values that is not empty. *)
Definition np_max (l : list Z) : Z :=
  match l with
  | [] => 0%Z
  | x :: l' => foldr Z.max x l'
  end.

Definition np_min (l : list Z) : Z :=
  match l with
  | [] => 0%Z
  | x :: l' => foldr Z.min x l'
  end.

(** An [EvolutionaryAlgorithm] object: the injected callables, the
    parameters and the state of the run.  The strategies are any functions
    that may draw random numbers and raise; they return lists of
    individuals and do not write into the individuals they are given.
    Individuals are values: the offspring are individuals of their own, as
    [Individual(...)] makes them.  [logger] is the sequence of calls the
    logger has received (a logger that raises is not in the model).
    [best_individual] is in Python a reference to an individual of some
    population; the model holds its value when it was recorded, and its
    [fitness], set already, is not written again. *)
Record EvolutionaryAlgorithm (rng G stat : Type) : Type := mkEngine {
  evaluate_genotype : G → Z;
  create_genotype : M rng G;
  select_parents : list (Individual G) → M rng (list (Individual G));
  reproduce : list (Individual G) → Z → M rng (list (Individual G));
  select_survivors :
    list (Individual G) → list (Individual G) → M rng (list (Individual G));
  population_size : Z;
  population : list (Individual G);
  current_generation : Z;
  best_individual : option (Individual G);
  logger : list (logger_call G stat);
  history : History stat
}.
Arguments mkEngine {rng G stat} _ _ _ _ _ _ _ _ _ _ _.
Arguments evaluate_genotype {rng G stat} _.
Arguments create_genotype {rng G stat} _.
Arguments select_parents {rng G stat} _.
Arguments reproduce {rng G stat} _.
Arguments select_survivors {rng G stat} _.
Arguments population_size {rng G stat} _.
Arguments population {rng G stat} _.
Arguments current_generation {rng G stat} _.
Arguments best_individual {rng G stat} _.
Arguments logger {rng G stat} _.
Arguments history {rng G stat} _.

(** The survivor selections of [survivor_selection.py], as the callables
    that are passed to the engine. *)
Definition plus_survivors {rng G : Type} (population_size : Z)
    (old_population offspring : list (Individual G))
    : M rng (list (Individual G)) :=
  lift (PlusSelection_call population_size old_population offspring).

Definition age_based_survivors {rng G : Type} (population_size max_age : Z)
    (old_population offspring : list (Individual G))
    : M rng (list (Individual G)) :=
  lift (PlusAgeBasedSelection_call population_size max_age
          old_population offspring).

Section Engine.
Context {rng G stat : Type} (np_mean np_std : list Z → stat).
Abbreviation engine := (EvolutionaryAlgorithm rng G stat).
Implicit Types (self : engine) (ind : Individual G).

(** [EvolutionaryAlgorithm.__init__]: it stores its arguments and has no
    [raise]. *)
Definition EvolutionaryAlgorithm_init
    (fitness_function : G → Z)
    (initialization_function : M rng G)
    (parent_selection : list (Individual G) → M rng (list (Individual G)))
    (reproduction_strategy :
       list (Individual G) → Z → M rng (list (Individual G)))
    (survivor_selection :
       list (Individual G) → list (Individual G)
       → M rng (list (Individual G)))
    (population_size : Z) : result engine :=
  Ok {| evaluate_genotype := fitness_function;
        create_genotype := initialization_function;
        select_parents := parent_selection;
        reproduce := reproduction_strategy;
        select_survivors := survivor_selection;
        population_size := population_size;
        population := [];
        current_generation := 0;
        best_individual := None;
        logger := [];
        history := mkHistory [] [] [] [] [] |}.

Definition set_population self (p : list (Individual G)) : engine :=
  mkEngine (evaluate_genotype self) (create_genotype self)
    (select_parents self) (reproduce self) (select_survivors self)
    (population_size self) p (current_generation self)
    (best_individual self) (logger self) (history self).

Definition set_current_generation self (gen : Z) : engine :=
  mkEngine (evaluate_genotype self) (create_genotype self)
    (select_parents self) (reproduce self) (select_survivors self)
    (population_size self) (population self) gen
    (best_individual self) (logger self) (history self).

Definition set_best_individual self (b : option (Individual G)) : engine :=
  mkEngine (evaluate_genotype self) (create_genotype self)
    (select_parents self) (reproduce self) (select_survivors self)
    (population_size self) (population self) (current_generation self)
    b (logger self) (history self).

Definition set_history self (h : History stat) : engine :=
  mkEngine (evaluate_genotype self) (create_genotype self)
    (select_parents self) (reproduce self) (select_survivors self)
    (population_size self) (population self) (current_generation self)
    (best_individual self) (logger self) h.

Definition call_logger self (c : logger_call G stat) : engine :=
  mkEngine (evaluate_genotype self) (create_genotype self)
    (select_parents self) (reproduce self) (select_survivors self)
    (population_size self) (population self) (current_generation self)
    (best_individual self) (logger self ++ [c]) (history self).

Definition set_fitness ind (f : Z) : Individual G :=
  {| genotype := genotype ind; fitness := Some f; age := age ind |}.

(** The loop of [_evaluate_population]: the individuals as the loop leaves
    them, and the tracker [self.best_individual]. *)
Fixpoint evaluate_loop (f : G → Z) (l : list (Individual G))
    (best : option (Individual G))
    : result (list (Individual G) * option (Individual G)) :=
  match l with
  | [] => Ok ([], best)
  | ind :: l' =>
      match fitness ind with
      | None =>
          let ind := set_fitness ind (f (genotype ind)) in
          better ← match best with
                   | None => Ok true
                   | Some b => py_gt (fitness ind) (fitness b)
                   end ;
          r ← evaluate_loop f l' (if better : bool then Some ind else best) ;
          Ok (ind :: r.1, r.2)
      | Some _ =>
          r ← evaluate_loop f l' best ;
          Ok (ind :: r.1, r.2)
      end
  end.

(** [self._evaluate_population(population)]: the engine, and the list
    [population] as the call leaves it. *)
Definition _evaluate_population self (l : list (Individual G))
    : result (engine * list (Individual G)) :=
  r ← evaluate_loop (evaluate_genotype self) l (best_individual self) ;
  Ok (set_best_individual self r.2, r.1).

(** [self._update_history_and_log(generation)] *)
Definition _update_history_and_log self (gen : Z) : result engine :=
  match population self with
  | [] => Ok self
  | _ :: _ =>
      let current_fitnesses := omap fitness (population self) in
      match current_fitnesses with
      | [] => Ok self
      | _ :: _ =>
          let best_gen_fit := np_max current_fitnesses in
          let mean_gen_fit := np_mean current_fitnesses in
          let std_gen_fit := np_std current_fitnesses in
          let worst_gen_fit := np_min current_fitnesses in
          let h := history self in
          let h :=
            {| generation := generation h ++ [gen];
               best_fitness := best_fitness h ++ [best_gen_fit];
               mean_fitness := mean_fitness h ++ [mean_gen_fit];
               std_fitness := std_fitness h ++ [std_gen_fit];
               worst_fitness := worst_fitness h ++ [worst_gen_fit] |} in
          let self := set_history self h in
          best_in_gen ← py_max_by_fitness (population self) ;
          Ok (call_logger self (log_generation gen (history self) best_in_gen))
      end
  end.

(** [[self.create_genotype() for _ in range(n)]] *)
Fixpoint create_genotypes (n : nat) (create : M rng G) : M rng (list G) :=
  match n with
  | 0 => mret []
  | S n' =>
      g ← create ;
      l ← create_genotypes n' create ;
      mret (g :: l)
  end.

Definition aged ind : Individual G :=
  {| genotype := genotype ind; fitness := fitness ind; age := age ind + 1 |}.

(** [run], up to the first statistics: initialisation and generation 0. *)
Definition run_init self : M rng engine :=
  let self := call_logger self (log_start (population_size self)) in
  initial_genotypes ←
    create_genotypes (Z.to_nat (population_size self)) (create_genotype self) ;
  let self := set_population self (Individual_init <$> initial_genotypes) in
  r ← lift (_evaluate_population self (population self)) ;
  let self := set_population r.1 r.2 in
  match best_individual self with
  | None => raise ValueError
  | Some _ => lift (_update_history_and_log self 0)
  end.

(** The body of [for gen in range(1, generations + 1)]. *)
Definition run_generation self (gen : Z) : M rng engine :=
  let self := set_current_generation self gen in
  parents ← select_parents self (population self) ;
  offspring ← reproduce self parents (current_generation self) ;
  r ← lift (_evaluate_population self offspring) ;
  let self := r.1 in
  let offspring := r.2 in
  let self := set_population self (aged <$> population self) in
  survivors ← select_survivors self (population self) offspring ;
  let self := set_population self survivors in
  lift (_update_history_and_log self gen).

Fixpoint run_generations self (gens : list Z) : M rng engine :=
  match gens with
  | [] => mret self
  | gen :: gens' =>
      self ← run_generation self gen ;
      run_generations self gens'
  end.

(** [range(1, generations + 1)] *)
Definition generation_range (generations : Z) : list Z :=
  (λ i, Z.of_nat i) <$> seq 1 (Z.to_nat generations).

(** The engine when [run(generations)] leaves its loop. *)
Definition run_loop self (generations : Z) : M rng engine :=
  self ← run_init self ;
  run_generations self (generation_range generations).

(** [run(generations)]: the engine as the call leaves it and the pair that
    is returned. *)
Definition run self (generations : Z)
    : M rng (engine * (option (Individual G) * History stat)) :=
  self ← run_loop self generations ;
  let self := call_logger self (log_end (best_individual self) generations) in
  let self := call_logger self close in
  mret (self, (best_individual self, history self)).

(** The fitness of the tracked best-ever individual. *)
Definition tracker_fitness self : option Z :=
  b ← best_individual self ; fitness b.

(** The best fitness present in a list of individuals, if any is
    evaluated; [population_best] is that of the live population. *)
Definition best_fitness_of (l : list (Individual G)) : option Z :=
  match omap fitness l with
  | [] => None
  | x :: fs => Some (np_max (x :: fs))
  end.

Definition population_best self : option Z :=
  best_fitness_of (population self).

(** The tracker holds an evaluated individual, or nothing yet. *)
Definition tracker_ok (best : option (Individual G)) : Prop :=
  ∀ b, best = Some b → evaluated b.

(** The tracker [best'] is at least as fit as the tracker [best]. *)
Definition tracker_le (best best' : option (Individual G)) : Prop :=
  ∀ b, best = Some b →
    ∃ b', best' = Some b' ∧ fitter_eq b' b ∧ evaluated b'.
End Engine.

(** ** [crossover.py]: [CycleCrossover] and the two [__call__] *)

(** The local variables of the crossover step of [CycleCrossover.__call__].
    [assigned] is not in the code: it records, in the order of execution,
    each execution of the assignment block [c1_gen[current_idx] = ...;
    c2_gen[current_idx] = ...] as the pair of [cycle_num] and
    [current_idx], so that the cycles can be spoken of. *)
Record cx_state (A : Type) : Type := mkCx {
  c1_gen : list (option A);
  c2_gen : list (option A);
  visited_indices : list bool;
  cycle_num : nat;
  assigned : list (nat * nat)
}.
Arguments mkCx {A} _ _ _ _ _.
Arguments c1_gen {A} _.
Arguments c2_gen {A} _.
Arguments visited_indices {A} _.
Arguments cycle_num {A} _.
Arguments assigned {A} _.

Section CycleCrossover.
Context {A : Type} `{Countable A}.
Implicit Types (p : list (option A)) (st : cx_state A).

(** [{value: idx for idx, value in enumerate(genotype)}]: a later position
    of a value replaces an earlier one. *)
Definition value_to_index (genotype : list (option A))
    : gmap (option A) nat :=
  foldl (λ m iv, <[iv.2:=iv.1]> m) ∅ (imap (λ idx value, (idx, value)) genotype).

(** [d[key]] on a dict. *)
Definition py_dict_get (d : gmap (option A) nat) (key : option A)
    : result nat :=
  match d !! key with
  | Some idx => Ok idx
  | None => Raise KeyError
  end.

(** The body of the [while], up to the jump. *)
Definition cx_assign p1 p2 (current_idx : nat) st : result (cx_state A) :=
  visited ← py_setitem (visited_indices st) current_idx true ;
  g1 ← py_getitem p1 current_idx ;
  g2 ← py_getitem p2 current_idx ;
  if decide (cycle_num st `mod` 2 = 1) then
    c1 ← py_setitem (c1_gen st) current_idx g1 ;
    c2 ← py_setitem (c2_gen st) current_idx g2 ;
    Ok (mkCx c1 c2 visited (cycle_num st)
          (assigned st ++ [(cycle_num st, current_idx)]))
  else
    c1 ← py_setitem (c1_gen st) current_idx g2 ;
    c2 ← py_setitem (c2_gen st) current_idx g1 ;
    Ok (mkCx c1 c2 visited (cycle_num st)
          (assigned st ++ [(cycle_num st, current_idx)])).

(** [while not visited_indices[current_idx]: ...], run for at most [fuel]
    iterations. *)
Fixpoint cx_cycle (fuel : nat) p1 p2 (p2_value_to_index : gmap (option A) nat)
    (current_idx : nat) st : result (cx_state A) :=
  v ← py_getitem (visited_indices st) current_idx ;
  if v : bool then Ok st
  else
    match fuel with
    | 0 => Raise OutOfFuel
    | S fuel' =>
        st ← cx_assign p1 p2 current_idx st ;
        value_in_p1 ← py_getitem p1 current_idx ;
        current_idx ← py_dict_get p2_value_to_index value_in_p1 ;
        cx_cycle fuel' p1 p2 p2_value_to_index current_idx st
    end.

Definition next_cycle st : cx_state A :=
  mkCx (c1_gen st) (c2_gen st) (visited_indices st) (cycle_num st + 1)
    (assigned st).

(** [for idx in range(gen_len): ...], over the positions [idxs] that
    remain.  Each iteration of the [while] marks a position that was not
    marked, so that [gen_len] iterations are enough for it. *)
Fixpoint cx_cycles (gen_len : nat) (idxs : list nat) p1 p2
    (p2_value_to_index : gmap (option A) nat) st : result (cx_state A) :=
  match idxs with
  | [] => Ok st
  | idx :: idxs' =>
      v ← py_getitem (visited_indices st) idx ;
      if v : bool then cx_cycles gen_len idxs' p1 p2 p2_value_to_index st
      else
        st ← cx_cycle gen_len p1 p2 p2_value_to_index idx (next_cycle st) ;
        cx_cycles gen_len idxs' p1 p2 p2_value_to_index st
  end.

(** The crossover step of [CycleCrossover.__call__] on the genotypes of a
    pair of parents. *)
Definition cx_recombine p1 p2 : result (cx_state A) :=
  let gen_len := length p1 in
  let p2_value_to_index := value_to_index p2 in
  let st := {| c1_gen := replicate gen_len None;
               c2_gen := replicate gen_len None;
               visited_indices := replicate gen_len false;
               cycle_num := 0;
               assigned := [] |} in
  cx_cycles gen_len (seq 0 gen_len) p1 p2 p2_value_to_index st.

(** "The index in parent 2 holding the value found in parent 1 at the
    index [i]" is [j]. *)
Definition jump p1 p2 (i j : nat) : Prop :=
  ∃ v, p1 !! i = Some v ∧ p2 !! j = Some v.
End CycleCrossover.

Section CrossoverCall.
Context {rng : Type} `{RandomSource rng} {A : Type} `{Countable A}.
Implicit Types (parents : list (Individual (list (option A)))).

(** [CycleCrossover.__call__]: the parents are taken two by two
    ([for i in range(0, len(parents), 2)]). *)
Fixpoint CycleCrossover_pairs (rate : Q) parents
    : M rng (list (Individual (list (option A)))) :=
  match parents with
  | [] => mret []
  | [p1] => mret [Individual_init (genotype p1)]
  | p1 :: p2 :: parents' =>
      let gen_len := length (genotype p1) in
      if decide (gen_len ≠ length (genotype p2)) then raise ValueError
      else
        u ← py_random ;
        children ←
          (if Qlt_b rate u then mret (genotype p1, genotype p2)
           else
             st ← lift (cx_recombine (genotype p1) (genotype p2)) ;
             mret (c1_gen st, c2_gen st)) ;
        offspring ← CycleCrossover_pairs rate parents' ;
        mret (Individual_init children.1 :: Individual_init children.2
              :: offspring)
  end.

Definition CycleCrossover_call (rate_schedule : schedule) parents
    (current_generation : Z)
    : M rng (list (Individual (list (option A)))) :=
  let rate := resolve rate_schedule current_generation in
  CycleCrossover_pairs rate parents.

(** [OrderedCrossover.__call__] *)
Fixpoint OrderedCrossover_pairs (rate : Q) parents
    : M rng (list (Individual (list (option A)))) :=
  match parents with
  | [] => mret []
  | [p1] => mret [Individual_init (genotype p1)]
  | p1 :: p2 :: parents' =>
      let gen_len := length (genotype p1) in
      if decide (gen_len ≠ length (genotype p2)) then raise ValueError
      else
        children ←
          (if decide (gen_len < 2) then mret (genotype p1, genotype p2)
           else
             u ← py_random ;
             if Qlt_b rate u then mret (genotype p1, genotype p2)
             else
               cuts ← sample_two gen_len ;
               let start := cuts.1 `min` cuts.2 in
               let end_ := cuts.1 `max` cuts.2 in
               child1 ←
                 lift (_create_child (genotype p1) (genotype p2) start end_) ;
               child2 ←
                 lift (_create_child (genotype p2) (genotype p1) start end_) ;
               mret (child1, child2)) ;
        offspring ← OrderedCrossover_pairs rate parents' ;
        mret (Individual_init children.1 :: Individual_init children.2
              :: offspring)
  end.

Definition OrderedCrossover_call (rate_schedule : schedule) parents
    (current_generation : Z)
    : M rng (list (Individual (list (option A)))) :=
  let rate := resolve rate_schedule current_generation in
  OrderedCrossover_pairs rate parents.
End CrossoverCall.

(** ** The invariants of cycle crossover *)

Section CycleInvariants.
Context {A : Type} `{Countable A}.
Context (p1 p2 : list (option A)).
Implicit Types (st : cx_state A).

(** What the assignment block of cycle [k] has written at position [i]. *)
Definition cx_written st (k i : nat) : Prop :=
  if decide (k `mod` 2 = 1)
  then c1_gen st !! i = p1 !! i ∧ c2_gen st !! i = p2 !! i
  else c1_gen st !! i = p2 !! i ∧ c2_gen st !! i = p1 !! i.

(** The state at any point of the two loops: the positions marked as
    visited are those that were assigned, each once, in a cycle numbered
    from 1 to [cycle_num], in the order of the cycle numbers. *)
Record cx_shape st : Prop := {
  cx_len1 : length (c1_gen st) = length p1;
  cx_len2 : length (c2_gen st) = length p1;
  cx_lenv : length (visited_indices st) = length p1;
  cx_visited : ∀ i,
    visited_indices st !! i = Some true ↔ i ∈ (assigned st).*2;
  cx_nodup : NoDup (assigned st).*2;
  cx_entries : ∀ k i, (k, i) ∈ assigned st →
    i < length p1 ∧ 1 ≤ k ≤ cycle_num st ∧ cx_written st k i;
  cx_sorted : StronglySorted le (assigned st).*1
}.

(** Between two cycles: the positions of each cycle are closed under the
    jump, forwards and backwards. *)
Record cx_inv st : Prop := {
  cx_inv_shape : cx_shape st;
  cx_closed : ∀ k i j,
    (k, i) ∈ assigned st → jump p1 p2 i j → (k, j) ∈ assigned st;
  cx_coclosed : ∀ k i j,
    (k, j) ∈ assigned st → jump p1 p2 i j → (k, i) ∈ assigned st
}.

(** Inside the cycle that started at [idx0], before the test of the
    [while] on the position [cur]. *)
Record cx_open (idx0 cur : nat) st : Prop := {
  cx_open_shape : cx_shape st;
  cx_open_cur : cur < length p1;
  cx_open_num : 1 ≤ cycle_num st;
  cx_open_back : ∀ k i j,
    (k, j) ∈ assigned st → j ≠ idx0 → jump p1 p2 i j →
    (k, i) ∈ assigned st ∧ ¬ jump p1 p2 i cur;
  cx_open_prev :
    idx0 ∈ (assigned st).*2 →
    ∀ i, jump p1 p2 i cur → (cycle_num st, i) ∈ assigned st;
  cx_open_fwd : ∀ k i j,
    (k, i) ∈ assigned st → jump p1 p2 i j →
    (k, j) ∈ assigned st ∨ (j = cur ∧ k = cycle_num st);
  cx_open_start : idx0 ∉ (assigned st).*2 → cur = idx0;
  cx_open_first :
    idx0 ∈ (assigned st).*2 → (cycle_num st, idx0) ∈ assigned st
}.

(** The positions assigned while [cycle_num] was [k], in the order of
    their assignment. *)
Definition cx_cycle_positions st (k : nat) : list nat :=
  (filter (λ e, e.1 = k) (assigned st)).*2.

(** The walk of the [while]: from the position [i] it goes through the
    positions [c], in this order, each one the jump of the one before it,
    and the jump of the last one is [j] (which is [i] when [c] is
    empty). *)
Fixpoint cx_walk (i : nat) (c : list nat) (j : nat) : Prop :=
  match c with
  | [] => i = j
  | i' :: c' => i' = i ∧ ∃ i'', jump p1 p2 i i'' ∧ cx_walk i'' c' j
  end.

(** The cycle number [k] as the loops find it: its positions are a closed
    chain of jumps, a walk from its first position [idx] back to [idx],
    and [idx] is the first position of the genotype that no cycle of a
    smaller number holds. *)
Definition cx_discovered st (k : nat) : Prop :=
  ∃ idx c, cx_cycle_positions st k = idx :: c
    ∧ cx_walk idx (idx :: c) idx
    ∧ ∀ i, i < idx → ∃ k', k' < k ∧ (k', i) ∈ assigned st.

(** The cycles of a state, as a description of the record of the
    assignments: every position is in it once, the cycles follow each
    other in the order of their numbers, the numbers are those from 1 to
    [cycle_num], and each cycle is found as [cx_discovered] says. *)
Definition cx_cycles_found st : Prop :=
  (assigned st).*2 ≡ₚ seq 0 (length p1)
  ∧ StronglySorted le (assigned st).*1
  ∧ (∀ k, 1 ≤ k ≤ cycle_num st ↔ ∃ i, (k, i) ∈ assigned st)
  ∧ (∀ k, 1 ≤ k ≤ cycle_num st → cx_discovered st k).
End CycleInvariants.

(** ** Inputs for runs of the model *)

(** The parents of the scenario of ordered crossover. *)
Definition scenario_parent1 : list (option Z) :=
  Some <$> [1; 2; 3; 4; 5; 6; 7; 8]%Z.
Definition scenario_parent2 : list (option Z) :=
  Some <$> [3; 7; 5; 1; 6; 8; 2; 4]%Z.

(** An evaluated candidate of fitness [f] and age [a]. *)
Definition cand (f a : Z) : Individual (list (option Z)) :=
  {| genotype := []; fitness := Some f; age := a |}.

(** A small problem for the engine, on the counter random source: the
    fitness of a genotype is the sum of its genes, a fresh genotype is the
    one gene given by the counter, every individual is a parent, and a
    parent has one child, its genotype extended by the generation number. *)
Definition ex_fitness (g : list (option Z)) : Z :=
  foldr (λ x acc, (default 0 x + acc)%Z) 0%Z g.

Definition ex_create : M nat (list (option Z)) := λ s,
  Ok ([Some (Z.of_nat s)], S s).

Definition ex_select_parents (population : list (Individual (list (option Z))))
    : M nat (list (Individual (list (option Z)))) :=
  mret population.

Definition ex_reproduce (parents : list (Individual (list (option Z))))
    (gen : Z) : M nat (list (Individual (list (option Z)))) :=
  mret ((λ p, Individual_init (genotype p ++ [Some gen])) <$> parents).

(** A reproduction that yields nothing in generation 1 and one fresh
    individual in every later generation. *)
Definition ex_reproduce_late (parents : list (Individual (list (option Z))))
    (gen : Z) : M nat (list (Individual (list (option Z)))) :=
  if decide (gen = 1)%Z then mret []
  else mret [Individual_init [Some gen]].

Definition ex_stat (l : list Z) : unit := ().

(** Two engines on that problem: one with plus selection, one whose
    age-bounded selection retires every individual after one generation and
    whose reproduction yields nothing in generation 1. *)
Definition ex_plus_engine (population_size : Z)
    : result (EvolutionaryAlgorithm nat (list (option Z)) unit) :=
  EvolutionaryAlgorithm_init ex_fitness ex_create ex_select_parents
    ex_reproduce (plus_survivors population_size) population_size.

Definition ex_gap_engine
    : result (EvolutionaryAlgorithm nat (list (option Z)) unit) :=
  EvolutionaryAlgorithm_init ex_fitness ex_create ex_select_parents
    ex_reproduce_late (age_based_survivors 1 0) 1.

(* ===================================================================== *)
(** * More of the code *)
(* ===================================================================== *)

(** ** [engine.py], continued *)

(** What [_evaluate_population] does to one individual: an individual
    without fitness is given the fitness of its genotype, an evaluated one
    is left as it is. *)
Definition evaluate_one {G : Type} (f : G → Z) (ind : Individual G)
    : Individual G :=
  match fitness ind with
  | None => set_fitness ind (f (genotype ind))
  | Some _ => ind
  end.

(** An engine in the middle of a run, for runs of single methods: its
    tracker holds an individual of fitness 4. *)
Definition ex_started : EvolutionaryAlgorithm nat (list (option Z)) unit :=
  mkEngine ex_fitness ex_create ex_select_parents ex_reproduce
    (plus_survivors 2) 2 [cand 4 0; cand 3 0] 1 (Some (cand 4 0)) []
    (mkHistory [] [] [] [] []).

(** The first [k] entries of each list of a history, and the property that
    its five lists have one entry each per recorded generation. *)
Definition history_take {stat : Type} (k : nat) (h : History stat)
    : History stat :=
  {| generation := take k (generation h);
     best_fitness := take k (best_fitness h);
     mean_fitness := take k (mean_fitness h);
     std_fitness := take k (std_fitness h);
     worst_fitness := take k (worst_fitness h) |}.

Definition history_lengths {stat : Type} (h : History stat) : Prop :=
  length (best_fitness h) = length (generation h)
  ∧ length (mean_fitness h) = length (generation h)
  ∧ length (std_fitness h) = length (generation h)
  ∧ length (worst_fitness h) = length (generation h).

(** The history [h] with the statistics of the population [l] added for
    the generation [gen], as [_update_history_and_log] adds them. *)
Definition history_record {G stat : Type} (np_mean np_std : list Z → stat)
    (h : History stat) (gen : Z) (l : list (Individual G)) : History stat :=
  let current_fitnesses := fitness_key <$> l in
  {| generation := generation h ++ [gen];
     best_fitness := best_fitness h ++ [np_max current_fitnesses];
     mean_fitness := mean_fitness h ++ [np_mean current_fitnesses];
     std_fitness := std_fitness h ++ [np_std current_fitnesses];
     worst_fitness := worst_fitness h ++ [np_min current_fitnesses] |}.

(** The calls [calls] are the [log_generation] calls of the history [h]:
    one call per entry, in order, each with the generation number of its
    entry, the history as it was when the entry had been added, and an
    individual whose fitness is the best fitness of the entry. *)
Definition logger_follows {G stat : Type}
    (calls : list (logger_call G stat)) (h : History stat) : Prop :=
  length calls = length (generation h)
  ∧ ∀ i c, calls !! i = Some c →
      ∃ gen b, generation h !! i = Some gen
        ∧ c = log_generation gen (history_take (S i) h) b
        ∧ fitness b = best_fitness h !! i.

(** The state of the bookkeeping of a run of an engine of population size
    [n], once the generations [done] have been run: a tracker that is set
    and evaluated, a history whose lists have one entry each for
    generation 0 and for some of the generations [done], in their order,
    and a logger that has been told of the start and of each entry of the
    history. *)
Definition run_shape {rng G stat : Type} (n : Z) (done : list Z)
    (self : EvolutionaryAlgorithm rng G stat) : Prop :=
  (∃ b, best_individual self = Some b ∧ evaluated b)
  ∧ history_lengths (history self)
  ∧ (∃ gens, generation (history self) = 0%Z :: gens
       ∧ gens `sublist_of` done)
  ∧ ∃ calls, logger self = log_start n :: calls
      ∧ logger_follows calls (history self).

(** A reproduction strategy whose offspring all come without fitness, as
    [Individual(...)] makes them. *)
Definition fresh_offspring {rng G : Type}
    (rp : list (Individual G) → Z → M rng (list (Individual G))) : Prop :=
  ∀ parents gen s offspring s',
    rp parents gen s = Ok (offspring, s') →
    Forall (λ ind, fitness ind = None) offspring.

(** The state of a run of an engine of population size [n] under plus
    selection of size [mu], once the generations [done] have been run. *)
Record plus_state {rng G stat : Type} (n mu : Z)
    (rp : list (Individual G) → Z → M rng (list (Individual G)))
    (done : list Z) (self : EvolutionaryAlgorithm rng G stat) : Prop := {
  plus_survivor_selection : select_survivors self = plus_survivors mu;
  plus_reproduce : reproduce self = rp;
  plus_tracker : tracker_ok (best_individual self);
  plus_evaluated : Forall evaluated (population self);
  plus_nonempty : population self ≠ [];
  plus_size_lo :
    Z.to_nat n `min` Z.to_nat mu ≤ length (population self);
  plus_size_hi :
    length (population self) ≤ Z.to_nat n `max` Z.to_nat mu;
  plus_size_done :
    match done with
    | [] => length (population self) = Z.to_nat n
    | _ :: _ => length (population self) ≤ Z.to_nat mu
    end;
  plus_generations : generation (history self) = 0%Z :: done;
  plus_lengths :
    length (best_fitness (history self))
    = length (generation (history self));
  plus_last :
    last (best_fitness (history self))
    = Some (np_max (fitness_key <$> population self));
  plus_sorted : StronglySorted Z.le (best_fitness (history self));
  plus_tracked : ∃ b,
    best_individual self = Some b
    ∧ (fitness_key b ≤ np_max (fitness_key <$> population self))%Z
    ∧ (fresh_offspring rp →
       fitness_key b = np_max (fitness_key <$> population self))
}.

(** ** The [random] module, continued *)

(** [random.random()] returns a float in the range [0.0 <= x < 1.0]. *)
Class UnitRandom (rng : Type) `{RandomSource rng} : Prop :=
  random_unit s : (0 <= (random_random s).1)%Q ∧ ((random_random s).1 < 1)%Q.

#[global] Instance counter_unit : UnitRandom nat.
Proof. intros s. simpl. by destruct (Nat.even s). Qed.

(** [math.floor] of a float, here a rational. *)
Definition py_floor (q : Q) : Z := (Qnum q / Z.pos (Qden q))%Z.

(** [l[i]] for any integer [i]: a negative [i] counts from the end. *)
Definition py_getitem_int {T : Type} (l : list T) (i : Z) : result T :=
  if decide (0 ≤ i)%Z then py_getitem l (Z.to_nat i)
  else if decide (- Z.of_nat (length l) ≤ i)%Z
       then py_getitem l (Z.to_nat (Z.of_nat (length l) + i))
       else Raise IndexError.

(** ** [parent_selection.py]: [UniformSelection] *)

Section UniformSelection.
Context {rng : Type} `{RandomSource rng}.

(** [random.choices(population, k=k)], without weights, as CPython defines
    it: [[population[floor(random() * n)] for i in repeat(None, k)]] where
    [n = len(population) + 0.0]. *)
Fixpoint random_choices {T : Type} (population : list T) (k : nat)
    : M rng (list T) :=
  match k with
  | 0 => mret []
  | S k' =>
      u ← py_random ;
      let n := inject_Z (Z.of_nat (length population)) in
      x ← lift (py_getitem_int population (py_floor (u * n))) ;
      l ← random_choices population k' ;
      mret (x :: l)
  end.

(** [UniformSelection.__call__] *)
Definition UniformSelection_call {G : Type}
    (population : list (Individual G)) : M rng (list (Individual G)) :=
  let pop_size := length population in
  if decide (pop_size = 0) then mret []
  else random_choices population pop_size.
End UniformSelection.

(** The winner of a tournament among [k] contenders of a population: an
    individual of the population that is at least as fit as the individuals
    at [k] distinct positions of it. *)
Definition tournament_winner {G : Type} (k : Z)
    (population : list (Individual G)) (p : Individual G) : Prop :=
  p ∈ population
  ∧ ∃ idxs : list nat, NoDup idxs ∧ length idxs = Z.to_nat k
      ∧ ∀ j, j ∈ idxs →
          ∃ x, population !! j = Some x ∧ fitter_eq p x.

(** ** [mutation.py], continued: what a mutation does to a genotype *)

(** [after] is [before] with the genes at two distinct positions
    exchanged, as the three assignments of [SwapMutation] leave it. *)
Definition swapped {A : Type} (before after : list (option A)) : Prop :=
  ∃ i j, i ≠ j ∧ i < length before ∧ j < length before
    ∧ length after = length before
    ∧ after !! i = before !! j ∧ after !! j = before !! i
    ∧ ∀ k, k ≠ i → k ≠ j → after !! k = before !! k.

(** [after] is [before] with the genes of a segment [start .. end_] of two
    or more positions in reverse order, as the slice assignment of
    [InversionMutation] leaves it. *)
Definition inverted {A : Type} (before after : list (option A)) : Prop :=
  ∃ start end_, start < end_ < length before
    ∧ length after = length before
    ∧ (∀ k, start ≤ k ≤ end_ → after !! k = before !! (start + end_ - k))
    ∧ ∀ k, k < start ∨ end_ < k → after !! k = before !! k.

(** An offspring after a mutation operator: untouched, or with its
    genotype changed by one step of the operator and nothing else. *)
Definition mutated_by {A : Type} (step : relation (list (option A)))
    (before after : Individual (list (option A))) : Prop :=
  after = before
  ∨ (step (genotype before) (genotype after)
     ∧ fitness after = fitness before ∧ age after = age before).

(** ** [crossover.py], continued: the offspring of a list of parents *)

(** The parents are taken two by two; [paired R parents] says that the two
    parents of each pair are related by [R].  A last parent without a
    partner is under no condition. *)
Fixpoint paired {T : Type} (R : relation T) (parents : list T) : Prop :=
  match parents with
  | a :: b :: parents' => R a b ∧ paired R parents'
  | _ => True
  end.

(** The list of offspring of a list of parents: two fresh individuals per
    pair of parents, whose genotypes [c1], [c2] are related to the
    genotypes of the two parents by [Q], and a fresh copy of a last parent
    without a partner. *)
Inductive offspring_of {A : Type}
    (Q : list (option A) → list (option A)
         → list (option A) → list (option A) → Prop)
    : list (Individual (list (option A)))
      → list (Individual (list (option A))) → Prop :=
  | offspring_nil : offspring_of Q [] []
  | offspring_one a : offspring_of Q [a] [Individual_init (genotype a)]
  | offspring_pair a b parents c1 c2 offspring :
      Q (genotype a) (genotype b) c1 c2 →
      offspring_of Q parents offspring →
      offspring_of Q (a :: b :: parents)
        (Individual_init c1 :: Individual_init c2 :: offspring).

(** The state of cycle crossover on any two genotypes of one length: the
    three lists have that length, and a position marked as visited holds
    in the two children the genes of the two parents at that position,
    one each, the gene of [p1] being also a gene of [p2]. *)
Record cx_any {A : Type} (p1 p2 : list (option A)) (st : cx_state A)
    : Prop := {
  cx_any_len1 : length (c1_gen st) = length p1;
  cx_any_len2 : length (c2_gen st) = length p1;
  cx_any_lenv : length (visited_indices st) = length p1;
  cx_any_visited : ∀ i, visited_indices st !! i = Some true →
    ((c1_gen st !! i = p1 !! i ∧ c2_gen st !! i = p2 !! i)
     ∨ (c1_gen st !! i = p2 !! i ∧ c2_gen st !! i = p1 !! i))
    ∧ ∃ v, p1 !! i = Some v ∧ v ∈ p2
}.

(** The number of positions that are not yet marked as visited. *)
Definition unvisited {A : Type} (st : cx_state A) : nat :=
  length (filter (λ b : bool, b = false) (visited_indices st)).

(** What [__call__] does with a pair of parent genotypes [pa], [pb]: it
    clones them, or recombines them, with ordered crossover at two cut
    points [start < end_], or with cycle crossover. *)
Definition cloned {A : Type} (pa pb c1 c2 : list (option A)) : Prop :=
  c1 = pa ∧ c2 = pb.

Definition ox_recombined {A : Type} `{Countable A}
    (pa pb c1 c2 : list (option A)) : Prop :=
  ∃ start end_, start < end_ < length pa
    ∧ _create_child pa pb start end_ = Ok c1
    ∧ _create_child pb pa start end_ = Ok c2.

Definition cx_recombined {A : Type} `{Countable A}
    (pa pb c1 c2 : list (option A)) : Prop :=
  ∃ st, cx_recombine pa pb = Ok st ∧ c1 = c1_gen st ∧ c2 = c2_gen st.

(** The two parents of a pair have genotypes of one length. *)
Definition same_length {A : Type}
    (a b : Individual (list (option A))) : Prop :=
  length (genotype a) = length (genotype b).

#[global] Instance same_length_dec {A : Type}
    (a b : Individual (list (option A))) : Decision (same_length a b).
Proof. unfold same_length. apply _. Defined.

#[global] Instance paired_dec {T : Type} (R : relation T)
    `{∀ x y, Decision (R x y)} (l : list T) : Decision (paired R l).
Proof.
  assert (∀ l, Decision (paired R l) * ∀ x, Decision (paired R (x :: l)))
    as Hdec; [|apply Hdec].
  clear l. induction l as [|y l [IH1 IH2]].
  - split; [left; exact I|intros x; left; exact I].
  - split; [apply IH2|]. intros x. cbn [paired].
    destruct (decide (R x y)); [|right; tauto].
    destruct IH1; [left; tauto|right; tauto].
Defined.

From stdpp Require Import strings.

(** ** [logger.py] *)

(** The logger writes lines of text to a stream.  The model keeps, for
    each line, the values that are formatted into it, not the characters
    (the formatting of floats is outside the model); the text of a
    genotype, [str(genotype)], is a parameter.  What the logger does to
    the outside is the sequence of the files it opens, the lines it writes
    and the files it closes.  Errors of the operating system ([open] or
    [write] failing) are not in the model. *)

Inductive LogLevel : Type := NONE | INFO | VERBOSE.

#[global] Instance LogLevel_eq_dec : EqDecision LogLevel.
Proof. solve_decision. Defined.

(** [sys.stdout], [sys.stderr], or the file object of a path. *)
Inductive stream : Type :=
  | sys_stdout
  | sys_stderr
  | file_object (path : string).

(** A value of the configuration dict: a [str], an [int], or any other
    object, of which only the name of the class is used.  [val_str] is
    what [log_start] makes of it. *)
Inductive config_value : Type :=
  | config_str (s : string)
  | config_int (n : Z)
  | config_object (class_name : string).

Inductive val_str : Type :=
  | quoted (s : string)
  | decimal (n : Z)
  | class_name_of (name : string).

Inductive line (stat : Type) : Type :=
  | line_started
  | line_level (level : LogLevel)
  | line_config (key : string) (v : val_str)
  | line_rule_start
  | line_generation (gen best : Z) (mean std : stat) (worst : Z)
  | line_finished
  | line_total_generations (n : Z)
  | line_best_fitness (f : Z)
  | line_best_age (a : Z)
  | line_best_genotype (genotype_str : string)
  | line_rule_end
  | line_closed.
Arguments line_started {stat}.
Arguments line_level {stat} _.
Arguments line_config {stat} _ _.
Arguments line_rule_start {stat}.
Arguments line_generation {stat} _ _ _ _ _.
Arguments line_finished {stat}.
Arguments line_total_generations {stat} _.
Arguments line_best_fitness {stat} _.
Arguments line_best_age {stat} _.
Arguments line_best_genotype {stat} _.
Arguments line_rule_end {stat}.
Arguments line_closed {stat}.

Inductive io_event (stat : Type) : Type :=
  | io_open (path : string)
  | io_write (to : stream) (message : line stat)
  | io_close (path : string).
Arguments io_open {stat} _.
Arguments io_write {stat} _ _.
Arguments io_close {stat} _.

(** The exceptions of the logger: those of [exn], and [AttributeError]. *)
Inductive log_exn : Type :=
  | Builtin (e : exn)
  | AttributeError.

(** A [Logger] object. *)
Record Logger : Type := mkLogger {
  level : LogLevel;
  verbose_every_n : Z;
  _output_stream : option stream;
  _file_handle : option string
}.

(** [a % b] on integers: the sign of the result is that of [b], as with
    [Z.modulo]; [ZeroDivisionError] when [b] is 0. *)
Definition py_mod_int (a b : Z) : result Z :=
  if decide (b = 0)%Z then Raise ZeroDivisionError else Ok (a `mod` b)%Z.

(** [l[-1]] *)
Definition py_last {T : Type} (l : list T) : result T :=
  match last l with
  | Some x => Ok x
  | None => Raise IndexError
  end.

Section Logger.
Context {G stat : Type} (str : G → string).
Implicit Types (self : Logger) (out : list (io_event stat)).

(** [Logger.__init__]: the logger, and what it has done to the outside.
    [log_file] is a [str] or [None]; the empty string is as [None]. *)
Definition Logger_init (level : LogLevel) (log_file : option string)
    (verbose_every_n : Z) out : Logger * list (io_event stat) :=
  let n := (1 `max` verbose_every_n)%Z in
  if decide (level = NONE) then (mkLogger level n None None, out)
  else
    match log_file with
    | Some path =>
        if decide (path = "stderr") then
          (mkLogger level n (Some sys_stderr) None, out)
        else if decide (path = EmptyString) then
          (mkLogger level n (Some sys_stdout) None, out)
        else
          (mkLogger level n (Some (file_object path)) (Some path),
           out ++ [io_open path])
    | None => (mkLogger level n (Some sys_stdout) None, out)
    end.

(** [Logger._write] *)
Definition Logger_write self (message : line stat) out
    : list (io_event stat) :=
  match _output_stream self with
  | Some to => out ++ [io_write to message]
  | None => out
  end.

(** [val_str] in [log_start]: the second [if] overrides the first. *)
Definition config_val_str (value : config_value) : val_str :=
  match value with
  | config_str s => quoted s
  | config_int n => decimal n
  | config_object name => class_name_of name
  end.

(** [Logger.log_start] *)
Definition Logger_log_start self
    (engine_config : list (string * config_value)) out
    : list (io_event stat) :=
  if decide (level self = INFO ∨ level self = VERBOSE) then
    let out := Logger_write self line_started out in
    let out := Logger_write self (line_level (level self)) out in
    let out :=
      foldl (λ out kv,
               Logger_write self (line_config kv.1 (config_val_str kv.2)) out)
        out engine_config in
    Logger_write self line_rule_start out
  else out.

(** [Logger.log_generation]: the four values are read from the history
    before anything is written. *)
Definition Logger_log_generation self (gen : Z) (h : History stat)
    (best_in_gen : Individual G) out : result (list (io_event stat)) :=
  if decide (level self ≠ VERBOSE) then Ok out
  else
    r ← py_mod_int gen (verbose_every_n self) ;
    if decide (r = 0)%Z then
      best ← py_last (best_fitness h) ;
      mean ← py_last (mean_fitness h) ;
      std ← py_last (std_fitness h) ;
      worst ← py_last (worst_fitness h) ;
      Ok (Logger_write self (line_generation gen best mean std worst) out)
    else Ok out.

(** [genotype_str] in [log_end] *)
Definition genotype_snippet (g : G) : string :=
  let genotype_str := str g in
  if decide (75 < String.length genotype_str)
  then String.substring 0 70 genotype_str +:+ "...]"
  else genotype_str.

(** [Logger.log_end]: what has been written when the call returns or
    raises, and the exception if it raises.  [best_individual] is what
    the caller passes, [None] included. *)
Definition Logger_log_end self (best_individual : option (Individual G))
    (total_generations : Z) out
    : list (io_event stat) * option log_exn :=
  if decide (level self = INFO ∨ level self = VERBOSE) then
    let out := Logger_write self line_finished out in
    let out :=
      Logger_write self (line_total_generations total_generations) out in
    match best_individual with
    | None => (out, Some AttributeError)
    | Some b =>
        match fitness b with
        | None => (out, Some (Builtin TypeError))
        | Some f =>
            let out := Logger_write self (line_best_fitness f) out in
            let out := Logger_write self (line_best_age (age b)) out in
            let out :=
              Logger_write self
                (line_best_genotype (genotype_snippet (genotype b))) out in
            (Logger_write self line_rule_end out, None)
        end
    end
  else (out, None).

(** [Logger.close] *)
Definition Logger_close self out : Logger * list (io_event stat) :=
  match _file_handle self with
  | Some path =>
      let out := Logger_write self line_closed out in
      (mkLogger (level self) (verbose_every_n self) None None,
       out ++ [io_close path])
  | None => (self, out)
  end.
End Logger.

(** The stream of a logger that is not silent. *)
Definition stream_of (log_file : option string) : stream :=
  match log_file with
  | Some path =>
      if decide (path = "stderr") then sys_stderr
      else if decide (path = EmptyString) then sys_stdout
      else file_object path
  | None => sys_stdout
  end.

(** [EvolutionaryAlgorithm._get_config].  The values are the size of the
    population and four class names, which are [str] objects; the class
    names of the three injected strategies are parameters. *)
Definition _get_config (population_size : Z)
    (parent_selection reproduction survivor_selection : string)
    : list (string * config_value) :=
  [("Algorithm", config_str "EvolutionaryAlgorithm");
   ("Population Size", config_int population_size);
   ("Parent Selection", config_str parent_selection);
   ("Reproduction", config_str reproduction);
   ("Survivor Selection", config_str survivor_selection)].

Section EngineLogger.
Context {G stat : Type} (str : G → string).
Context (parent_selection reproduction survivor_selection : string).

(** One call of the engine to a [Logger]: the logger and the outside
    after the call, and the exception if the call raises. *)
Definition Logger_receive (lg : Logger) (c : logger_call G stat)
    (out : list (io_event stat))
    : Logger * list (io_event stat) * option log_exn :=
  match c with
  | log_start n =>
      (lg,
       Logger_log_start lg
         (_get_config n parent_selection reproduction survivor_selection)
         out,
       None)
  | log_generation gen h best_in_gen =>
      match Logger_log_generation lg gen h best_in_gen out with
      | Ok out' => (lg, out', None)
      | Raise e => (lg, out, Some (Builtin e))
      end
  | log_end best_individual total_generations =>
      let r := Logger_log_end str lg best_individual total_generations out in
      (lg, r.1, r.2)
  | close =>
      let r := Logger_close lg out in (r.1, r.2, None)
  end.

(** The calls of a run, one after the other, up to the first that
    raises. *)
Fixpoint Logger_replay (lg : Logger) (calls : list (logger_call G stat))
    (out : list (io_event stat))
    : Logger * list (io_event stat) * option log_exn :=
  match calls with
  | [] => (lg, out, None)
  | c :: calls' =>
      let r := Logger_receive lg c out in
      match r.2 with
      | Some e => r
      | None => Logger_replay r.1.1 calls' r.1.2
      end
  end.
End EngineLogger.

(** The generation lines among the events. *)
Definition generation_lines {stat : Type} (out : list (io_event stat))
    : list Z :=
  omap (λ e, match e with
             | io_write _ (line_generation gen _ _ _ _) => Some gen
             | _ => None
             end) out.

(** A [log_generation] call for the generation [gen] whose history has an
    entry in each of its lists. *)
Definition generation_call {G stat : Type} (gen : Z)
    (c : logger_call G stat) : Prop :=
  ∃ h b, c = log_generation gen h b
    ∧ is_Some (last (best_fitness h)) ∧ is_Some (last (mean_fitness h))
    ∧ is_Some (last (std_fitness h)) ∧ is_Some (last (worst_fitness h)).

(** A text for the genotypes of the examples. *)
Definition ex_str (g : list (option Z)) : string :=
  if decide (length g = 0) then "[]" else "[...]".

(** A survivor selection that returns candidates only, and a reproduction
    strategy whose offspring all have age 0, as [Individual(...)] makes
    them. *)
Definition selects_candidates {rng G : Type}
    (ss : list (Individual G) → list (Individual G)
          → M rng (list (Individual G))) : Prop :=
  ∀ old_population offspring s survivors s',
    ss old_population offspring s = Ok (survivors, s') →
    survivors ⊆ old_population ++ offspring.

Definition new_offspring {rng G : Type}
    (rp : list (Individual G) → Z → M rng (list (Individual G))) : Prop :=
  ∀ parents gen s offspring s',
    rp parents gen s = Ok (offspring, s') →
    Forall (λ ind, age ind = 0%Z) offspring.

(* ===================================================================== *)
(** * Properties *)
(* ===================================================================== *)

(** ** Generic facts on lists and rotations *)

Section ListFacts.
Context {T : Type}.
Implicit Types l k : list T.

Lemma py_getitem_Some l (i : nat) (x : T) :
  l !! i = Some x → py_getitem l i = Ok x.
Proof. intros Hx. unfold py_getitem. by rewrite Hx. Qed.

Lemma rotate_nat_add_0_mod (base len : nat) :
  0 < len → rotate_nat_add base 0 len = base `mod` len.
Proof.
  intros ?. rewrite rotate_nat_add_add_mod.
  apply rotate_nat_add_0. by apply Nat.mod_upper_bound, Nat.neq_0_lt_0.
Qed.

Lemma rotate_nat_add_inj (base i j len : nat) :
  i < len → j < len →
  rotate_nat_add base i len = rotate_nat_add base j len → i = j.
Proof.
  intros Hi Hj Heq.
  rewrite <-(rotate_nat_sub_add base len i), <-(rotate_nat_sub_add base len j)
    by done.
  by rewrite Heq.
Qed.

Lemma py_mod_rotate_next (base i len : nat) :
  0 < len →
  py_mod (rotate_nat_add base i len + 1) len
    = Ok (rotate_nat_add base (i + 1) len).
Proof.
  intros ?. unfold py_mod. rewrite decide_False by lia.
  by rewrite rotate_nat_add_add.
Qed.

(** [rotate_nat_add] on the positions of a swath [start..end_]: in the list
    rotated by [end_ + 1] the swath is the last block. *)
Lemma rotate_nat_add_swath (start end_ n i : nat) :
  start ≤ end_ < n → i ≤ end_ - start →
  rotate_nat_add (end_ + 1) (n - (end_ + 1 - start) + i) n = start + i.
Proof.
  intros ??. unfold rotate_nat_add.
  replace (Z.of_nat (end_ + 1) + Z.of_nat (n - (end_ + 1 - start) + i))%Z
    with (Z.of_nat (start + i) + 1 * Z.of_nat n)%Z by lia.
  rewrite Z_mod_plus_full, Z.mod_small by lia. apply Nat2Z.id.
Qed.

Lemma rotate_Permutation (n : nat) l : rotate n l ≡ₚ l.
Proof.
  unfold rotate. rewrite Permutation_app_comm. by rewrite take_drop.
Qed.

Lemma insert_as_take_drop l (i : nat) (x : T) :
  i < length l →
  <[i:=x]> l = take i l ++ [x] ++ drop (i + 1) l.
Proof.
  intros ?. rewrite insert_take_drop by done.
  by rewrite Nat.add_1_r.
Qed.
End ListFacts.

(** ** Ordered crossover *)

Section OrderedCrossoverFacts.
Context {A : Type} `{Countable A}.
Implicit Types (p c : list (option A)).

(** The loop of [_create_child], read in the coordinates of the list
    rotated by [base = end + 1]: position [j] of the rotated list is
    position [(base + j) % gen_len] of the list itself.  After [t] reads
    and [wc] writes, the remaining iterations write the genes of
    [drop t (rotate base p2)] that are not in the swath at the rotated
    positions [wc, wc + 1, ...], and stop once the rotated position [m] of
    [start] is reached. *)
Lemma ox_fill_rotated (p2 : list (option A)) (sw : gset (option A))
    (n start base m : nat) :
  length p2 = n → 0 < n → m < n → rotate_nat_add base m n = start →
  ∀ fuel t wc c,
    length c = n → t + fuel = n →
    wc + length (filter (λ g, g ∉ sw) (drop t (rotate base p2))) = m →
    ∃ c', ox_fill fuel p2 sw n start c
            (rotate_nat_add base t n) (rotate_nat_add base wc n) = Ok c'
      ∧ length c' = n
      ∧ rotate base c' =
          take wc (rotate base c)
          ++ filter (λ g, g ∉ sw) (drop t (rotate base p2))
          ++ drop m (rotate base c).
Proof.
  intros Hp2 Hn Hm Hstart fuel.
  induction fuel as [|fuel IH]; intros t wc c Hc Ht Hwc.
  { exists c. split; [done|]. split; [done|].
    rewrite drop_ge in Hwc |- * by (rewrite length_rotate; lia).
    simpl in *. replace wc with m by lia. by rewrite take_drop. }
  assert (t < n) as Htn by lia.
  destruct (lookup_lt_is_Some_2 (rotate base p2) t) as [gene Hgene];
    [rewrite length_rotate; lia|].
  rewrite (drop_S _ _ _ Hgene) in Hwc |- *.
  rewrite lookup_rotate_r, Hp2 in Hgene by lia.
  cbn [ox_fill]. unfold py_getitem. rewrite Hgene. cbn [mbind result_bind].
  rewrite filter_cons in Hwc |- *.
  destruct (decide (gene ∉ sw)) as [Hin|Hin]; cbn [mbind result_bind].
  - (* the gene is written *)
    simpl in Hwc.
    unfold py_setitem. rewrite decide_True
      by (rewrite Hc; by apply rotate_nat_add_lt).
    cbn [mbind result_bind]. rewrite !py_mod_rotate_next by done.
    cbn [mbind result_bind fst snd].
    assert (rotate base (<[rotate_nat_add base wc n:=gene]> c)
            = <[wc:=gene]> (rotate base c)) as Hrot.
    { rewrite <-Hc. apply rotate_insert_l. lia. }
    destruct (decide (rotate_nat_add base (wc + 1) n = start)) as [Heq|Hne].
    + (* the write pointer has reached [start] *)
      eexists. split; [done|]. rewrite length_insert. split; [done|].
      rewrite <-Hstart in Heq. apply rotate_nat_add_inj in Heq; [|lia..].
      destruct (filter _ (drop (S t) _)) as [|??] eqn:Hf;
        [|simpl in Hwc; lia].
      rewrite Hrot, insert_as_take_drop by (rewrite length_rotate; lia).
      by rewrite <-Heq.
    + destruct (IH (t + 1) (wc + 1) (<[rotate_nat_add base wc n:=gene]> c))
        as (c' & Hrun & Hlen & Hc'); [by rewrite length_insert|lia| |].
      { rewrite !Nat.add_1_r. lia. }
      exists c'. split; [done|]. split; [done|].
      rewrite Hc', Hrot, !Nat.add_1_r.
      assert (wc < m) as Hlt by lia.
      rewrite drop_insert_lt by done.
      rewrite (take_S_r _ _ gene)
        by (apply list_lookup_insert_eq; rewrite length_rotate; lia).
      rewrite take_insert_ge by done.
      by rewrite <-app_assoc.
  - (* the gene is already in the swath *)
    rewrite !py_mod_rotate_next by done. cbn [mbind result_bind fst snd].
    destruct (decide (rotate_nat_add base wc n = start)) as [Heq|Hne].
    + exists c. split; [done|]. split; [done|].
      rewrite <-Hstart in Heq. apply rotate_nat_add_inj in Heq; [|lia..].
      destruct (filter _ (drop (S t) _)) as [|??] eqn:Hf;
        [|simpl in Hwc; lia].
      simpl. rewrite Heq. by rewrite take_drop.
    + destruct (IH (t + 1) wc c) as (c' & Hrun & Hlen & Hc'); [done|lia| |].
      { by rewrite !Nat.add_1_r. }
      exists c'. split; [done|]. split; [done|].
      by rewrite Hc', !Nat.add_1_r.
Qed.

(** The state of [_create_child] before the loop. *)
Lemma ox_initial_child (p1 : list (option A)) (start end_ : nat) :
  start ≤ end_ < length p1 →
  py_slice_assign (replicate (length p1) None) start (end_ + 1)
      (py_slice p1 start (end_ + 1))
    = replicate start None
      ++ py_slice p1 start (end_ + 1)
      ++ replicate (length p1 - (end_ + 1)) None.
Proof.
  intros ?. unfold py_slice_assign.
  rewrite take_replicate, drop_replicate.
  by rewrite Nat.min_l, Nat.max_r by lia.
Qed.

Lemma length_py_slice_swath (p1 : list (option A)) (start end_ : nat) :
  start ≤ end_ < length p1 →
  length (py_slice p1 start (end_ + 1)) = end_ + 1 - start.
Proof.
  intros ?. unfold py_slice. rewrite length_take, length_drop. lia.
Qed.

(** What [_create_child] returns on two permutations of one gene set:
    read from position [end_ + 1] on, the child is the genes of the other
    parent that are not in the swath, in the other parent's circular order
    from [end_ + 1], followed by the swath. *)
Lemma create_child_rotated (p1 p2 : list (option A)) (start end_ : nat) :
  NoDup p1 → p1 ≡ₚ p2 → start ≤ end_ < length p1 →
  let swath := py_slice p1 start (end_ + 1) in
  ∃ child,
    _create_child p1 p2 start end_ = Ok child
    ∧ length child = length p1
    ∧ rotate (end_ + 1) child
        = filter (λ g, g ∉ swath) (rotate (end_ + 1) p2) ++ swath.
Proof.
  intros Hnd Hperm Hse swath.
  unfold _create_child. cbv zeta. rewrite ox_initial_child by done.
  fold swath.
  set (n := length p1) in *. set (base := end_ + 1).
  set (m := n - (end_ + 1 - start)).
  assert (length p2 = n) as Hp2 by (by rewrite <-Hperm).
  assert (length swath = end_ + 1 - start) as Hsw
    by (by apply length_py_slice_swath).
  assert (rotate_nat_add base m n = start) as Hstart.
  { pose proof (rotate_nat_add_swath start end_ n 0) as Hr.
    rewrite !Nat.add_0_r in Hr. apply Hr; lia. }
  set (c0 := replicate start None ++ swath ++ replicate (n - base) None).
  assert (length c0 = n) as Hc0.
  { unfold c0. rewrite !length_app, !length_replicate. lia. }
  assert (py_slice c0 start base = swath) as Hslice.
  { unfold py_slice, c0.
    rewrite drop_app_length' by (by rewrite length_replicate).
    apply take_app_length'. lia. }
  unfold py_mod. rewrite decide_False by lia. cbn [mbind result_bind].
  rewrite Hslice, <-rotate_nat_add_0_mod by lia.
  set (sw := list_to_set swath : gset (option A)).
  assert (∀ g, g ∉ sw ↔ g ∉ swath) as Hsw_iff.
  { intros g. unfold sw. by rewrite elem_of_list_to_set. }
  assert (filter (λ g, g ∉ sw) (rotate base p2)
          = filter (λ g, g ∉ swath) (rotate base p2)) as Hfilter.
  { apply list_filter_iff. intros g. apply Hsw_iff. }
  (* the genes outside the swath are [m] many *)
  assert (NoDup (rotate base p2)) as HndR
    by (by rewrite rotate_Permutation, <-Hperm).
  assert (NoDup swath) as Hndsw.
  { apply (sublist_NoDup swath p1); [done|]. unfold swath, py_slice.
    etrans; [apply sublist_take|apply sublist_drop]. }
  assert (filter (λ g, g ∈ swath) (rotate base p2) ≡ₚ swath) as Hin.
  { apply NoDup_Permutation; [by apply NoDup_filter|done|].
    intros g. rewrite list_elem_of_filter, elem_of_rotate, <-Hperm.
    split; [by intros [??]|]. intros Hg. split; [done|].
    unfold swath, py_slice in Hg.
    by eapply subseteq_drop, subseteq_take. }
  assert (length (filter (λ g, g ∉ swath) (rotate base p2)) = m) as Hlen.
  { pose proof (filter_app_complement (λ g, g ∈ swath) (rotate base p2)) as Hc.
    apply Permutation_length in Hc.
    rewrite length_app, Hin, Hsw, length_rotate, Hp2 in Hc.
    unfold m. lia. }
  destruct (ox_fill_rotated p2 sw n start base m Hp2 ltac:(lia) ltac:(lia)
              Hstart n 0 0 c0 Hc0 eq_refl) as (c' & Hrun & Hlenc & Hrot).
  { by rewrite drop_0, Hfilter, Hlen. }
  rewrite drop_0, take_0, app_nil_l, Hfilter in Hrot.
  assert (drop m (rotate base c0) = swath) as Hdrop.
  { apply list_eq. intros i. rewrite lookup_drop.
    destruct (decide (i < end_ + 1 - start)) as [Hi|Hi].
    - rewrite lookup_rotate_r, Hc0 by lia.
      unfold m, base. rewrite rotate_nat_add_swath by lia.
      unfold c0. rewrite lookup_app_r by (rewrite length_replicate; lia).
      rewrite length_replicate, lookup_app_l by lia.
      f_equal. lia.
    - rewrite (lookup_ge_None_2 swath i) by lia.
      apply lookup_ge_None_2. rewrite length_rotate. lia. }
  rewrite Hdrop in Hrot. by exists c'.
Qed.

(** The child keeps the donor's swath in place, is full, and carries the
    genes of the parents. *)
Lemma create_child_spec (p1 p2 : list (option A)) (start end_ : nat) :
  NoDup p1 → p1 ≡ₚ p2 → start ≤ end_ < length p1 →
  ∃ child,
    _create_child p1 p2 start end_ = Ok child
    ∧ length child = length p1
    ∧ (∀ i, start ≤ i ≤ end_ → child !! i = p1 !! i)
    ∧ py_slice child start (end_ + 1) = py_slice p1 start (end_ + 1)
    ∧ child ≡ₚ p1.
Proof.
  intros Hnd Hperm Hse.
  destruct (create_child_rotated p1 p2 start end_ Hnd Hperm Hse)
    as (child & Hrun & Hlen & Hrot).
  pose proof (length_py_slice_swath p1 start end_ Hse) as Hsw.
  set (swath := py_slice p1 start (end_ + 1)) in *.
  set (rest := filter (λ g, g ∉ swath) (rotate (end_ + 1) p2)) in *.
  assert (length rest = length p1 - (end_ + 1 - start)) as Hrest.
  { apply (f_equal length) in Hrot.
    rewrite length_rotate, length_app in Hrot. lia. }
  assert (∀ i, start ≤ i ≤ end_ → child !! i = p1 !! i) as Hpos.
  { intros i Hi.
    pose proof (rotate_nat_add_swath start end_ (length p1) (i - start)
                  Hse ltac:(lia)) as Hr.
    replace (start + (i - start)) with i in Hr by lia.
    rewrite <-Hr at 1. rewrite <-Hlen at 2.
    rewrite <-lookup_rotate_r by lia. rewrite Hrot.
    rewrite lookup_app_r by lia.
    replace (length p1 - (end_ + 1 - start) + (i - start) - length rest)
      with (i - start) by lia.
    unfold swath, py_slice. rewrite lookup_take_lt, lookup_drop by lia.
    f_equal. lia. }
  exists child. split; [done|]. split; [done|]. split; [done|].
  split.
  - apply list_eq. intros j. unfold swath, py_slice.
    destruct (decide (j < end_ + 1 - start)).
    + rewrite !lookup_take_lt, !lookup_drop by lia. apply Hpos. lia.
    + by rewrite !lookup_take_ge by lia.
  - rewrite <-(rotate_Permutation (end_ + 1) child), Hrot.
    unfold rest.
    rewrite <-(rotate_Permutation (end_ + 1) p2) in Hperm.
    rewrite Hperm.
    rewrite <-(filter_app_complement (λ g, g ∈ swath)
                 (rotate (end_ + 1) p2)) at 2.
    rewrite (Permutation_app_comm (filter _ _)). f_equiv.
    symmetry. apply NoDup_Permutation.
    + apply NoDup_filter. by rewrite <-Hperm.
    + apply (sublist_NoDup swath p1); [done|]. unfold swath, py_slice.
      etrans; [apply sublist_take|apply sublist_drop].
    + intros g. rewrite list_elem_of_filter, <-Hperm.
      split; [by intros [??]|]. intros Hg. split; [done|].
      unfold swath, py_slice in Hg.
      by eapply subseteq_drop, subseteq_take.
Qed.
End OrderedCrossoverFacts.

(** *** The concrete scenario *)

(** C1, as the claim states it, fails: for parent1 = [1..8],
    parent2 = [3,7,5,1,6,8,2,4] and the inclusive cut points 3 and 5,
    [_create_child] does not return [3,7,8,4,5,6,1,2]. *)
Lemma ox_concrete_scenario_refuted :
  _create_child scenario_parent1 scenario_parent2 3 5
    ≠ Ok (Some <$> [3; 7; 8; 4; 5; 6; 1; 2]%Z).
Proof. vm_compute. discriminate. Qed.

(** C1, amended.  For parent1 = [1..8], parent2 = [3,7,5,1,6,8,2,4] and the
    inclusive cut points 3 and 5, [_create_child] returns
    [7,1,8,4,5,6,2,3]: the swath [4,5,6] sits at positions 3 to 5, and the
    genes of parent2 read circularly from position 6 on, without 4, 5 and 6
    (that is 2, 3, 7, 1, 8), are written circularly from position 6 on
    (positions 6, 7, 0, 1, 2). *)
Theorem ox_concrete_scenario :
  let swath := Some <$> [4; 5; 6]%Z in
  let child := Some <$> [7; 1; 8; 4; 5; 6; 2; 3]%Z in
  _create_child scenario_parent1 scenario_parent2 3 5 = Ok child
  ∧ py_slice scenario_parent1 3 (5 + 1) = swath
  ∧ py_slice child 3 (5 + 1) = swath
  ∧ filter (λ g, g ∉ swath) (rotate 6 scenario_parent2)
      = Some <$> [2; 3; 7; 1; 8]%Z
  ∧ rotate 6 child
      = filter (λ g, g ∉ swath) (rotate 6 scenario_parent2) ++ swath.
Proof. cbv zeta. repeat split; vm_compute; reflexivity. Qed.

Section OrderedCrossoverClaims.
Context {A : Type} `{Countable A}.

(** C2.  For two parents that are permutations of one gene set (no gene
    twice, same genes), of equal length at least 2, and cut indices
    [0 <= start <= end_ < length] with [start <> end_], both calls of
    [_create_child] return a child; each child has its swath donor's genes
    on the positions [start..end_], every position of it is filled, and it
    is a permutation of the parents' genes. *)
Theorem ox_children_keep_swath_and_genes
    (parent1 parent2 : list (option A)) (start end_ : nat) :
  NoDup parent1 → parent1 ≡ₚ parent2 →
  2 ≤ length parent1 →
  start ≤ end_ < length parent1 → start ≠ end_ →
  ∃ child1 child2,
    _create_child parent1 parent2 start end_ = Ok child1
    ∧ _create_child parent2 parent1 start end_ = Ok child2
    ∧ length child1 = length parent1 ∧ length child2 = length parent2
    ∧ (∀ i, start ≤ i ≤ end_ →
         child1 !! i = parent1 !! i ∧ child2 !! i = parent2 !! i)
    ∧ py_slice child1 start (end_ + 1) = py_slice parent1 start (end_ + 1)
    ∧ py_slice child2 start (end_ + 1) = py_slice parent2 start (end_ + 1)
    ∧ (child1 ≡ₚ parent1) ∧ (child2 ≡ₚ parent2)
    ∧ (None ∉ parent1 → (None ∉ child1) ∧ (None ∉ child2)).
Proof.
  intros Hnd Hperm _ Hse _.
  assert (NoDup parent2) as Hnd2 by (by rewrite <-Hperm).
  assert (length parent2 = length parent1) as Hlen by (by rewrite Hperm).
  destruct (create_child_spec parent1 parent2 start end_ Hnd Hperm Hse)
    as (child1 & Hrun1 & Hlen1 & Hpos1 & Hsl1 & Hperm1).
  assert (start ≤ end_ < length parent2) as Hse2 by lia.
  destruct (create_child_spec parent2 parent1 start end_ Hnd2
              (symmetry Hperm) Hse2)
    as (child2 & Hrun2 & Hlen2 & Hpos2 & Hsl2 & Hperm2).
  exists child1, child2. repeat split; try done.
  - by apply Hpos1.
  - by apply Hpos2.
  - by rewrite Hperm1.
  - by rewrite Hperm2, <-Hperm.
Qed.
End OrderedCrossoverClaims.

(** A run of C2 on the parents of the concrete scenario. *)
Lemma ox_children_keep_swath_and_genes_witness :
  ∃ child1 child2,
    _create_child scenario_parent1 scenario_parent2 3 5 = Ok child1
    ∧ _create_child scenario_parent2 scenario_parent1 3 5 = Ok child2
    ∧ (child1 ≡ₚ scenario_parent1) ∧ (child2 ≡ₚ scenario_parent2).
Proof.
  destruct (ox_children_keep_swath_and_genes
              scenario_parent1 scenario_parent2 3 5)
    as (child1 & child2 & ? & ? & _ & _ & _ & _ & _ & ? & ? & _).
  - compute_done.
  - compute_done.
  - vm_compute. lia.
  - vm_compute. lia.
  - lia.
  - by exists child1, child2.
Defined.

(** ** Sorting by fitness *)

Section ByFitnessFacts.
Context {G : Type}.
Implicit Types (ind : Individual G) (l : list (Individual G)).

Lemma insert_desc_Permutation ind l : insert_desc ind l ≡ₚ ind :: l.
Proof.
  induction l as [|y l IH]; [done|]. simpl. case_decide; [|done].
  rewrite IH. apply Permutation_swap.
Qed.

Lemma sorted_desc_Permutation l : sorted_desc l ≡ₚ l.
Proof.
  induction l as [|x l IH]; [done|]. simpl.
  by rewrite insert_desc_Permutation, IH.
Qed.

Lemma insert_desc_sorted ind l :
  StronglySorted fitter_eq l → StronglySorted fitter_eq (insert_desc ind l).
Proof.
  induction 1 as [|y l Hl IH Hy]; simpl.
  { repeat constructor. }
  case_decide as Hlt.
  - constructor; [done|]. rewrite insert_desc_Permutation.
    constructor; [|done]. unfold fitter_eq. lia.
  - constructor; [by constructor|].
    constructor; [unfold fitter_eq; lia|].
    eapply Forall_impl; [exact Hy|]. unfold fitter_eq. intros z ?. lia.
Qed.

Lemma sorted_desc_sorted l : StronglySorted fitter_eq (sorted_desc l).
Proof.
  induction l as [|x l IH]; [constructor|]. by apply insert_desc_sorted.
Qed.

Lemma length_sorted_desc l : length (sorted_desc l) = length l.
Proof. by rewrite sorted_desc_Permutation. Qed.

Lemma length_py_prefix_nonneg {T : Type} (k : list T) (n : Z) :
  (0 ≤ n)%Z → length (py_prefix k n) = Z.to_nat n `min` length k.
Proof.
  intros ?. unfold py_prefix. rewrite decide_True by done.
  apply length_take.
Qed.

(** The first [n] of a list sorted by descending fitness are its [n]
    fittest. *)
Lemma py_prefix_sorted_desc_top l (n : Z) :
  (0 ≤ n)%Z →
  let top := py_prefix (sorted_desc l) n in
  let rest := drop (Z.to_nat n) (sorted_desc l) in
  length top = Z.to_nat n `min` length l
  ∧ top ++ rest ≡ₚ l
  ∧ StronglySorted fitter_eq top
  ∧ (∀ x y, x ∈ top → y ∈ rest → fitter_eq x y).
Proof.
  intros Hn top rest.
  assert (top = take (Z.to_nat n) (sorted_desc l)) as Htop
    by (unfold top, py_prefix; by rewrite decide_True).
  pose proof (sorted_desc_sorted l) as Hs.
  rewrite <-(take_drop (Z.to_nat n) (sorted_desc l)) in Hs.
  fold rest in Hs. rewrite <-Htop in Hs.
  split; [|split; [|split]].
  - unfold top. by rewrite length_py_prefix_nonneg, length_sorted_desc.
  - rewrite Htop. unfold rest. by rewrite take_drop, sorted_desc_Permutation.
  - by eapply StronglySorted_app_1_l.
  - intros x y ??. by eapply StronglySorted_app_1_elem_of.
Qed.
End ByFitnessFacts.

(** ** Survivor selection *)

Section SurvivorSelectionClaims.
Context {G : Type}.
Implicit Types (old_population offspring : list (Individual G)).

(** C4.  [CommaSelection.__call__] with fewer offspring than
    [population_size] raises [ValueError] and leaves the list of offspring
    as it was (nothing was sorted), so no partial result is returned.  With
    at least [population_size] evaluated offspring (and a population size
    that is not negative) it sorts the offspring in place and returns
    [population_size] of them, sorted by descending fitness, none less fit
    than an offspring left out; the old population plays no part in the
    outcome. *)
Theorem comma_selection_capacity (population_size : Z)
    old_population offspring :
  ((Z.of_nat (length offspring) < population_size)%Z →
     CommaSelection_call population_size old_population offspring
       = (Raise ValueError, offspring))
  ∧ ((0 ≤ population_size ≤ Z.of_nat (length offspring))%Z →
     Forall evaluated offspring →
     ∃ survivors rest,
       CommaSelection_call population_size old_population offspring
         = (Ok survivors, sorted_desc offspring)
       ∧ length survivors = Z.to_nat population_size
       ∧ survivors ++ rest ≡ₚ offspring
       ∧ StronglySorted fitter_eq survivors
       ∧ (∀ x y, x ∈ survivors → y ∈ rest → fitter_eq x y))
  ∧ (∀ old_population',
       CommaSelection_call population_size old_population' offspring
         = CommaSelection_call population_size old_population offspring).
Proof.
  split; [|split].
  - intros Hlt. unfold CommaSelection_call. by rewrite decide_True.
  - intros Hsize Hev. unfold CommaSelection_call, sort_by_fitness_reverse.
    rewrite decide_False by lia. rewrite decide_True by (by right).
    destruct (py_prefix_sorted_desc_top offspring population_size)
      as (Hlen & Hperm & Hsorted & Htop); [lia|].
    eexists _, _. split; [done|]. split; [|done].
    rewrite Hlen. lia.
  - done.
Qed.

(** C8.  [PlusAgeBasedSelection.__call__], for a population size that is
    not negative and evaluated candidates, returns [min(population_size, E)]
    candidates, [E] being the number of candidates of
    [old_population + offspring] of age at most [max_age]: they are sorted
    by descending fitness, none is less fit than an eligible candidate left
    out, each has age at most [max_age], and when [E < population_size] the
    result is all the eligible candidates and nothing else, fewer than
    [population_size]. *)
Theorem age_based_selection_top_eligible (population_size max_age : Z)
    old_population offspring :
  let eligible :=
    filter (λ ind, (age ind ≤ max_age)%Z) (old_population ++ offspring) in
  (0 ≤ population_size)%Z →
  length eligible < 2 ∨ Forall evaluated eligible →
  ∃ survivors rest,
    PlusAgeBasedSelection_call population_size max_age
        old_population offspring = Ok survivors
    ∧ length survivors = Z.to_nat population_size `min` length eligible
    ∧ survivors ++ rest ≡ₚ eligible
    ∧ StronglySorted fitter_eq survivors
    ∧ (∀ x y, x ∈ survivors → y ∈ rest → fitter_eq x y)
    ∧ Forall (λ ind, (age ind ≤ max_age)%Z) survivors
    ∧ (length eligible < Z.to_nat population_size →
         length survivors < Z.to_nat population_size
         ∧ survivors ≡ₚ eligible).
Proof.
  intros eligible Hsize Hev.
  unfold PlusAgeBasedSelection_call, sort_by_fitness_reverse.
  fold eligible. rewrite decide_True by done. cbn [mbind result_bind].
  destruct (py_prefix_sorted_desc_top eligible population_size)
    as (Hlen & Hperm & Hsorted & Htop); [lia|].
  eexists _, _. split; [done|]. split; [done|]. split; [done|].
  split; [done|]. split; [done|]. split.
  - apply Forall_forall. intros x Hx.
    assert (x ∈ eligible) as Hel.
    { rewrite <-Hperm. apply elem_of_app. by left. }
    by apply list_elem_of_filter in Hel as [? _].
  - intros Hfew. split; [lia|].
    rewrite <-Hperm at 2. rewrite drop_ge; [by rewrite app_nil_r|].
    rewrite length_sorted_desc. lia.
Qed.
End SurvivorSelectionClaims.

(** *** Runs of the survivor selections *)

Lemma comma_selection_capacity_witness :
  CommaSelection_call 3 [cand 9 1] [cand 1 0; cand 5 0]
    = (Raise ValueError, [cand 1 0; cand 5 0])
  ∧ CommaSelection_call 2 [cand 9 1] [cand 1 0; cand 5 0; cand 3 0]
    = (Ok [cand 5 0; cand 3 0], [cand 5 0; cand 3 0; cand 1 0]).
Proof.
  split.
  - destruct (comma_selection_capacity 3 [cand 9 1] [cand 1 0; cand 5 0])
      as (Herr & _ & _).
    apply Herr. simpl. lia.
  - destruct (comma_selection_capacity 2 [cand 9 1]
                [cand 1 0; cand 5 0; cand 3 0])
      as (_ & Hok & _).
    destruct Hok as (survivors & rest & Hrun & _); [simpl; lia| |].
    + repeat constructor; by eexists.
    + reflexivity.
Defined.

Lemma age_based_selection_top_eligible_witness :
  PlusAgeBasedSelection_call 3 2 [cand 9 3; cand 4 1] [cand 6 0]
    = Ok [cand 6 0; cand 4 1].
Proof.
  destruct (age_based_selection_top_eligible 3 2
              [cand 9 3; cand 4 1] [cand 6 0])
    as (survivors & rest & Hrun & _); [lia| |].
  - right. repeat constructor; by eexists.
  - reflexivity.
Defined.

(** ** Code that draws random numbers *)

Section MonadFacts.
Context {rng : Type}.

Lemma M_bind_inv {T U : Type} (m : M rng T) (k : T → M rng U) s r :
  (m ≫= k) s = Ok r → ∃ v s1, m s = Ok (v, s1) ∧ k v s1 = Ok r.
Proof.
  unfold mbind, M_bind. destruct (m s) as [[v s1]|]; [|done].
  intros ?. by exists v, s1.
Qed.

Lemma M_bind_Ok {T U : Type} (m : M rng T) (k : T → M rng U) s v s' :
  m s = Ok (v, s') → (m ≫= k) s = k v s'.
Proof. intros Hm. unfold mbind, M_bind. by rewrite Hm. Qed.

Lemma M_bind_Raise {T U : Type} (m : M rng T) (k : T → M rng U) s e :
  m s = Raise e → (m ≫= k) s = Raise e.
Proof. intros Hm. unfold mbind, M_bind. by rewrite Hm. Qed.

Lemma M_bind_assoc {T U V : Type} (m : M rng T) (f : T → M rng U)
    (g : U → M rng V) s :
  ((m ≫= f) ≫= g) s = (m ≫= λ x, f x ≫= g) s.
Proof. unfold mbind, M_bind. by destruct (m s) as [[??]|]. Qed.

Lemma M_bind_lift_Ok {T U : Type} (r : result T) (k : T → M rng U) s v :
  r = Ok v → (lift r ≫= k) s = k v s.
Proof. by intros ->. Qed.

Lemma lift_inv {T : Type} (r : result T) (s : rng) v s' :
  lift r s = Ok (v, s') → r = Ok v ∧ s' = s.
Proof. unfold lift. destruct r; [|done]. by intros [= -> ->]. Qed.

Lemma result_bind_inv {T U : Type} (r : result T) (k : T → result U) u :
  r ≫= k = Ok u → ∃ v, r = Ok v ∧ k v = Ok u.
Proof. destruct r as [v|]; [|done]. intros ?. by exists v. Qed.
End MonadFacts.

Section RandomFacts.
Context {rng : Type} `{RandomSource rng}.

Lemma py_random_Ok s : ∃ u s', py_random s = Ok (u, s').
Proof. unfold py_random. destruct (random_random s). by eexists _, _. Qed.

Lemma random_sample_Raise {T : Type} (population : list T) (k : Z) s :
  (Z.of_nat (length population) < k)%Z →
  random_sample population k s = Raise ValueError.
Proof. intros ?. unfold random_sample. rewrite decide_False; [done|lia]. Qed.

Lemma omap_lookup_in_range {T : Type} (population : list T) idxs :
  Forall (λ i, i < length population) idxs →
  length (omap (λ i, population !! i) idxs) = length idxs
  ∧ Forall (λ x, x ∈ population) (omap (λ i, population !! i) idxs).
Proof.
  induction 1 as [|i idxs Hi _ [IH1 IH2]]; [by split|]. cbn.
  destruct (lookup_lt_is_Some_2 population i Hi) as [x Hx]. rewrite Hx.
  cbn. split; [by f_equal|].
  constructor; [|done]. by eapply list_elem_of_lookup_2.
Qed.

Lemma random_sample_Ok {T : Type} (population : list T) (k : Z) s :
  (0 ≤ k ≤ Z.of_nat (length population))%Z →
  ∃ l s', random_sample population k s = Ok (l, s')
    ∧ length l = Z.to_nat k ∧ Forall (λ x, x ∈ population) l.
Proof.
  intros Hk. unfold random_sample. rewrite decide_True by done.
  pose proof (sample_indices_length (length population) (Z.to_nat k) s) as Hl.
  pose proof (sample_indices_lt (length population) (Z.to_nat k) s) as Hlt.
  destruct (sample_indices _ _ s) as [idxs s']. simpl in *.
  destruct (omap_lookup_in_range population idxs) as [Hlen Hin]; [apply Hlt; lia|].
  eexists _, _. split; [done|]. split; [|done]. rewrite Hlen. apply Hl. lia.
Qed.

Lemma omap_lookup_seq (n : nat) idxs :
  Forall (λ i, i < n) idxs → omap (λ i, seq 0 n !! i) idxs = idxs.
Proof.
  induction 1 as [|i idxs Hi _ IH]; [done|]. cbn.
  rewrite lookup_seq_lt by done. cbn. by f_equal.
Qed.

(** [random.sample(range(gen_len), 2)] gives two distinct positions. *)
Lemma sample_two_Ok (gen_len : nat) s :
  2 ≤ gen_len →
  ∃ a b s', sample_two gen_len s = Ok ((a, b), s')
    ∧ a ≠ b ∧ a < gen_len ∧ b < gen_len.
Proof.
  intros Hn. unfold sample_two, random_sample.
  unfold mbind at 1, M_bind. rewrite length_seq.
  rewrite decide_True by lia.
  pose proof (sample_indices_length gen_len 2 s Hn) as Hl.
  pose proof (sample_indices_lt gen_len 2 s Hn) as Hlt.
  pose proof (sample_indices_NoDup gen_len 2 s Hn) as Hnd.
  change (Z.to_nat 2) with 2.
  destruct (sample_indices gen_len 2 s) as [idxs s']. simpl in Hl, Hlt, Hnd.
  rewrite omap_lookup_seq by done.
  destruct idxs as [|a [|b [|??]]]; try done.
  apply NoDup_cons in Hnd as [Hab _].
  apply Forall_cons in Hlt as [Ha [Hb _]%Forall_cons].
  exists a, b, s'. split; [done|]. split; [|done].
  intros ->. apply Hab. by left.
Qed.

(** A loop that cannot fail relates the list it is given to the list it
    leaves, element by element. *)
Lemma mapM_Ok {T U : Type} (R : T → U → Prop) (f : T → M rng U) :
  (∀ x s, ∃ y s', f x s = Ok (y, s') ∧ R x y) →
  ∀ l s, ∃ l' s', mapM f l s = Ok (l', s') ∧ Forall2 R l l'.
Proof.
  intros Hf l. induction l as [|x l IH]; intros s.
  { exists [], s. by split. }
  destruct (Hf x s) as (y & s1 & Hy & HR).
  destruct (IH s1) as (l' & s2 & Hl & HRl).
  exists (y :: l'), s2. split; [|by constructor].
  cbn [mapM]. rewrite (M_bind_Ok _ _ _ _ _ Hy).
  by rewrite (M_bind_Ok _ _ _ _ _ Hl).
Qed.
End RandomFacts.

(** ** Mutation *)

Section MutationFacts.
Context {rng : Type} `{RandomSource rng} {A : Type}.
Implicit Types (g : list (option A)) (ind : Individual (list (option A))).

Lemma insert_Permutation_cons g (j : nat) (a b : option A) :
  g !! j = Some b → b :: <[j:=a]> g ≡ₚ a :: g.
Proof.
  revert j. induction g as [|x g IH]; intros [|j] Hj; simplify_eq/=.
  - apply Permutation_swap.
  - rewrite (Permutation_swap x b), (IH j Hj). apply Permutation_swap.
Qed.

Lemma swap_Permutation g (i j : nat) (a b : option A) :
  g !! i = Some a → g !! j = Some b →
  <[j:=a]> (<[i:=b]> g) ≡ₚ g.
Proof.
  revert i j. induction g as [|x g IH]; intros [|i] [|j] Hi Hj;
    simplify_eq/=; try done.
  - by apply insert_Permutation_cons.
  - by apply insert_Permutation_cons.
  - f_equiv. by apply IH.
Qed.

Lemma swap_in_place_Ok g (idx1 idx2 : nat) :
  idx1 < length g → idx2 < length g →
  ∃ g', swap_in_place g idx1 idx2 = Ok g' ∧ g' ≡ₚ g.
Proof.
  intros H1 H2.
  destruct (lookup_lt_is_Some_2 g idx1 H1) as [a Ha].
  destruct (lookup_lt_is_Some_2 g idx2 H2) as [b Hb].
  unfold swap_in_place, py_getitem, py_setitem. rewrite Ha, Hb.
  cbn [mbind result_bind]. rewrite decide_True by done.
  cbn [mbind result_bind]. rewrite decide_True by (by rewrite length_insert).
  eexists. split; [done|]. by apply swap_Permutation.
Qed.

Lemma invert_in_place_Permutation g (start end_ : nat) :
  start ≤ end_ → invert_in_place g start end_ ≡ₚ g.
Proof.
  intros ?. unfold invert_in_place, py_slice_assign, py_slice.
  rewrite reverse_Permutation, Nat.max_r by lia.
  rewrite <-(take_drop start g) at 4. f_equiv.
  rewrite <-(take_drop (end_ + 1 - start) (drop start g)) at 2. f_equiv.
  rewrite drop_drop. by replace (start + (end_ + 1 - start)) with (end_ + 1) by lia.
Qed.

Lemma reordered_refl ind : reordered ind ind.
Proof. by repeat split. Qed.

Lemma reordered_set_genotype ind g :
  g ≡ₚ genotype ind → 2 ≤ length (genotype ind) →
  reordered ind (set_genotype ind g).
Proof. intros ??. repeat split; [done|]. simpl. lia. Qed.

Lemma SwapMutation_one_Ok (prob : Q) ind s :
  ∃ ind' s', SwapMutation_one prob ind s = Ok (ind', s') ∧ reordered ind ind'.
Proof.
  unfold SwapMutation_one.
  destruct (py_random_Ok s) as (u & s1 & Hu). rewrite (M_bind_Ok _ _ _ _ _ Hu).
  destruct (Qlt_b u prob); [|eexists _, _; split; [done|apply reordered_refl]].
  case_decide as Hlen; [eexists _, _; split; [done|apply reordered_refl]|].
  destruct (sample_two_Ok (length (genotype ind)) s1) as
    (a & b & s2 & Hs & _ & Ha & Hb); [lia|].
  rewrite (M_bind_Ok _ _ _ _ _ Hs). cbn [fst snd].
  destruct (swap_in_place_Ok (genotype ind) a b Ha Hb) as (g' & Hg & Hperm).
  rewrite Hg. eexists _, _. split; [done|].
  apply reordered_set_genotype; [done|lia].
Qed.

Lemma InversionMutation_one_Ok (prob : Q) ind s :
  ∃ ind' s',
    InversionMutation_one prob ind s = Ok (ind', s') ∧ reordered ind ind'.
Proof.
  unfold InversionMutation_one.
  destruct (py_random_Ok s) as (u & s1 & Hu). rewrite (M_bind_Ok _ _ _ _ _ Hu).
  destruct (Qlt_b u prob); [|eexists _, _; split; [done|apply reordered_refl]].
  case_decide as Hlen; [eexists _, _; split; [done|apply reordered_refl]|].
  destruct (sample_two_Ok (length (genotype ind)) s1) as
    (a & b & s2 & Hs & _ & Ha & Hb); [lia|].
  rewrite (M_bind_Ok _ _ _ _ _ Hs). cbn [fst snd].
  eexists _, _. split; [done|].
  apply reordered_set_genotype; [|lia].
  apply invert_in_place_Permutation. lia.
Qed.

(** C6.  [SwapMutation.__call__] and [InversionMutation.__call__] return,
    on every list of offspring, for every probability schedule, generation
    and state of the random generator: each offspring then has the genes it
    had, in some order, with its fitness and age, and an offspring whose
    genotype has fewer than two genes is exactly as it was. *)
Theorem mutation_preserves_genes (prob_schedule : schedule)
    (offspring : list (Individual (list (option A))))
    (current_generation : Z) (s : rng) :
  (∃ offspring' s',
     SwapMutation_call prob_schedule offspring current_generation s
       = Ok (offspring', s')
     ∧ Forall2 reordered offspring offspring')
  ∧ (∃ offspring' s',
       InversionMutation_call prob_schedule offspring current_generation s
         = Ok (offspring', s')
       ∧ Forall2 reordered offspring offspring').
Proof.
  split.
  - apply mapM_Ok. apply SwapMutation_one_Ok.
  - apply mapM_Ok. apply InversionMutation_one_Ok.
Qed.
End MutationFacts.

(** ** Parent selection *)

Section ParentSelectionFacts.
Context {rng : Type} `{RandomSource rng} {G : Type}.
Implicit Types (population : list (Individual G)).

Lemma py_max_from_Ok (best : Individual G) l :
  Forall evaluated (best :: l) →
  ∃ winner, py_max_from best l = Ok winner ∧ winner ∈ best :: l.
Proof.
  revert best. induction l as [|x l IH]; intros best Hev.
  { exists best. split; [done|]. by left. }
  apply Forall_cons in Hev as [[fb Hb] [[fx Hx] Hl]%Forall_cons].
  cbn [py_max_from]. rewrite Hx, Hb. cbn [py_gt mbind result_bind].
  destruct (IH (if bool_decide (fb < fx)%Z then x else best))
    as (winner & Hrun & Hin).
  { constructor; [|done]. case_bool_decide; by eexists. }
  exists winner. split; [done|].
  apply elem_of_cons in Hin as [->|Hin].
  - case_bool_decide; [right; by left|by left].
  - right. by right.
Qed.

Lemma tournament_rounds_Raise (rounds : nat) (k : Z) population s :
  (Z.of_nat (length population) < k)%Z →
  tournament_rounds (S rounds) k population s = Raise ValueError.
Proof.
  intros Hk. cbn [tournament_rounds].
  by rewrite (M_bind_Raise _ _ _ _ (random_sample_Raise population k s Hk)).
Qed.

Lemma tournament_rounds_Ok (rounds : nat) (k : Z) population s :
  (1 ≤ k ≤ Z.of_nat (length population))%Z →
  Forall evaluated population →
  ∃ parents s',
    tournament_rounds rounds k population s = Ok (parents, s')
    ∧ length parents = rounds
    ∧ Forall (λ p, p ∈ population) parents.
Proof.
  intros Hk Hev. revert s. induction rounds as [|rounds IH]; intros s.
  { exists [], s. by repeat split. }
  destruct (random_sample_Ok population k s) as (l & s1 & Hl & Hlen & Hin);
    [lia|].
  cbn [tournament_rounds]. rewrite (M_bind_Ok _ _ _ _ _ Hl).
  destruct l as [|c l]; [simpl in Hlen; lia|].
  destruct (py_max_from_Ok c l) as (winner & Hw & Hwin).
  { eapply Forall_impl; [exact Hin|]. intros x Hx.
    by eapply (proj1 (Forall_forall _ _) Hev). }
  cbn [py_max_by_fitness]. rewrite Hw. unfold lift at 1.
  unfold mbind at 1, M_bind at 1.
  destruct (IH s1) as (parents & s2 & Hp & Hplen & Hpin).
  rewrite (M_bind_Ok _ _ _ _ _ Hp).
  exists (winner :: parents), s2. split; [done|]. split; [by simpl; f_equal|].
  constructor; [|done]. by eapply (proj1 (Forall_forall _ _) Hin).
Qed.

(** C10.  [TournamentSelection.__call__] on a population that is not empty
    and has fewer than [k] candidates raises [ValueError] (that of
    [random.sample]) instead of returning parents; the empty population
    alone is special-cased and yields the empty list; and with
    [1 <= k <= |population|] (and an evaluated population) the call returns
    [|population|] parents, each of them from the population. *)
Theorem tournament_needs_k_at_most_population (self : TournamentSelection)
    population (s : rng) :
  (population ≠ [] →
   (Z.of_nat (length population) < tournament_k self)%Z →
   TournamentSelection_call self population s = Raise ValueError)
  ∧ (population = [] →
     TournamentSelection_call self population s = Ok ([], s))
  ∧ ((1 ≤ tournament_k self ≤ Z.of_nat (length population))%Z →
     Forall evaluated population →
     ∃ parents s',
       TournamentSelection_call self population s = Ok (parents, s')
       ∧ length parents = length population
       ∧ Forall (λ p, p ∈ population) parents).
Proof.
  unfold TournamentSelection_call. split; [|split].
  - intros Hne Hk. destruct population as [|c population]; [done|].
    rewrite decide_False by done. by apply tournament_rounds_Raise.
  - by intros ->.
  - intros Hk Hev. case_decide as Hlen.
    + exists [], s. rewrite Hlen. by repeat split.
    + by apply tournament_rounds_Ok.
Qed.
End ParentSelectionFacts.

Lemma tournament_needs_k_at_most_population_witness :
  TournamentSelection_call {| tournament_k := 3 |} [cand 1 0; cand 2 0] 0
    = Raise ValueError
  ∧ TournamentSelection_call {| tournament_k := 3 |}
      ([] : list (Individual (list (option Z)))) 0 = Ok ([], 0)
  ∧ ∃ parents s',
      TournamentSelection_call {| tournament_k := 2 |}
        [cand 1 0; cand 2 0; cand 3 0] 0 = Ok (parents, s')
      ∧ length parents = 3.
Proof.
  split; [|split].
  - destruct (tournament_needs_k_at_most_population
                {| tournament_k := 3 |} [cand 1 0; cand 2 0] 0)
      as (Herr & _ & _).
    apply Herr; [done|simpl; lia].
  - destruct (tournament_needs_k_at_most_population
                {| tournament_k := 3 |}
                ([] : list (Individual (list (option Z)))) 0)
      as (_ & Hnil & _).
    by apply Hnil.
  - destruct (tournament_needs_k_at_most_population
                {| tournament_k := 2 |} [cand 1 0; cand 2 0; cand 3 0] 0)
      as (_ & _ & Hok).
    destruct Hok as (parents & s' & Hrun & Hlen & _); [simpl; lia| |].
    + repeat constructor; by eexists.
    + by exists parents, s'.
Defined.

(** ** The engine *)

Section EngineFacts.
Context {rng G stat : Type} (np_mean np_std : list Z → stat).
Abbreviation engine := (EvolutionaryAlgorithm rng G stat).
Implicit Types (self : engine) (ind : Individual G).
Implicit Types (l population : list (Individual G)).

Lemma np_max_cons_le (x : Z) (l : list Z) :
  (∀ y, y ∈ x :: l → (y ≤ np_max (x :: l))%Z)
  ∧ np_max (x :: l) ∈ x :: l.
Proof.
  simpl. induction l as [|z l [IH1 IH2]]; simpl.
  { split; [|by left]. intros y ->%list_elem_of_singleton. lia. }
  split.
  - intros y [->|[->|Hy]%elem_of_cons]%elem_of_cons.
    + pose proof (IH1 x ltac:(by left)). lia.
    + lia.
    + pose proof (IH1 y ltac:(by right)). lia.
  - destruct (Z.max_spec z (foldr Z.max x l)) as [[_ ->]|[_ ->]].
    + apply elem_of_cons in IH2 as [->|?]; [by left|right; by right].
    + right. by left.
Qed.

(** *** The tracker *)

Lemma tracker_le_refl (best : option (Individual G)) :
  tracker_ok best → tracker_le best best.
Proof.
  intros Hok b ->. exists b. split; [done|].
  split; [unfold fitter_eq; lia|by apply Hok].
Qed.

Lemma tracker_le_trans (b1 b2 b3 : option (Individual G)) :
  tracker_le b1 b2 → tracker_le b2 b3 → tracker_le b1 b3.
Proof.
  intros H12 H23 b Hb. destruct (H12 b Hb) as (b' & Hb' & Hle & _).
  destruct (H23 b' Hb') as (b'' & Hb'' & Hle' & Hev).
  exists b''. split; [done|]. split; [|done].
  unfold fitter_eq in *. lia.
Qed.

Lemma evaluate_loop_spec (f : G → Z) l best l' best' :
  tracker_ok best →
  evaluate_loop f l best = Ok (l', best') →
  Forall evaluated l'
  ∧ length l' = length l
  ∧ tracker_ok best' ∧ tracker_le best best'.
Proof.
  revert best l' best'. induction l as [|ind l IH]; intros best l' best' Hok.
  { intros [= <- <-]. repeat split; try done. by apply tracker_le_refl. }
  cbn [evaluate_loop]. destruct (fitness ind) as [fi|] eqn:Hfi.
  - destruct (evaluate_loop f l best) as [[l1 best1]|] eqn:Hrec; [|done].
    intros [= <- <-].
    destruct (IH _ _ _ Hok Hrec) as (Hev & Hlen & Hok1 & Hle).
    cbn [fst snd]. split; [constructor; [by eexists|done]|].
    split; [by simpl; f_equal|]. by split.
  - set (ind1 := set_fitness ind (f (genotype ind))).
    assert (evaluated ind1) as Hev1 by (by eexists).
    assert (∃ better : bool,
              match best with
              | None => Ok true
              | Some b => py_gt (fitness ind1) (fitness b)
              end = Ok better
              ∧ tracker_ok (if better then Some ind1 else best)
              ∧ tracker_le best (if better then Some ind1 else best))
      as (better & -> & Hok1 & Hle1).
    { destruct best as [b|].
      - destruct (Hok b eq_refl) as [fb Hfb]. rewrite Hfb. simpl.
        eexists. split; [done|]. case_bool_decide as Hlt.
        + split; [by intros ? [= <-]|].
          intros ? [= <-]. exists ind1. split; [done|]. split; [|done].
          unfold fitter_eq, fitness_key. rewrite Hfb. simpl. lia.
        + split; [done|]. by apply tracker_le_refl.
      - exists true. split; [done|]. split; [by intros ? [= <-]|].
        by intros ??. }
    cbn [mbind result_bind].
    destruct (evaluate_loop f l _) as [[l1 best1]|] eqn:Hrec; [|done].
    intros [= <- <-].
    destruct (IH _ _ _ Hok1 Hrec) as (Hev & Hlen & Hok2 & Hle2).
    cbn [fst snd]. split; [by constructor|].
    split; [by simpl; f_equal|]. split; [done|].
    by eapply tracker_le_trans.
Qed.

(** *** The statistics step *)

(** The statistics step changes the history and the logger only. *)
Lemma update_history_frame self (gen : Z) self' :
  _update_history_and_log np_mean np_std self gen = Ok self' →
  population self' = population self
  ∧ best_individual self' = best_individual self
  ∧ select_survivors self' = select_survivors self.
Proof.
  unfold _update_history_and_log.
  destruct (population self) as [|x l] eqn:Hp; [by intros [= <-]|].
  destruct (omap fitness (x :: l)) as [|y fs]; [by intros [= <-]|].
  cbn zeta. destruct (py_max_by_fitness _) as [w|]; [|done].
  by intros [= <-].
Qed.

(** *** The best fitness of a population *)

Lemma omap_fitness_evaluated l :
  Forall evaluated l → omap fitness l = fitness_key <$> l.
Proof.
  induction 1 as [|x l [fx Hx] _ IH]; [done|]. cbn.
  rewrite Hx. cbn. unfold fitness_key at 1. rewrite Hx. by f_equal.
Qed.

Lemma best_fitness_of_spec l :
  Forall evaluated l → l ≠ [] →
  ∃ m, best_fitness_of l = Some m
    ∧ (∀ x, x ∈ l → (fitness_key x ≤ m)%Z)
    ∧ (∃ x, x ∈ l ∧ fitness_key x = m).
Proof.
  intros Hev Hne. unfold best_fitness_of.
  rewrite omap_fitness_evaluated by done.
  destruct l as [|x l]; [done|]. rewrite fmap_cons.
  destruct (np_max_cons_le (fitness_key x) (fitness_key <$> l)) as [Hle Hin].
  eexists. split; [done|]. split.
  - intros y Hy. apply Hle. rewrite <-fmap_cons. by apply list_elem_of_fmap_2.
  - rewrite <-fmap_cons in Hin.
    apply list_elem_of_fmap in Hin as (y & Hy & Hyin). by exists y.
Qed.

(** Keeping the first [n >= 1] of the candidates sorted by descending
    fitness keeps the best fitness of the candidates. *)
Lemma best_fitness_of_top l (n : Z) :
  (1 ≤ n)%Z → Forall evaluated l → l ≠ [] →
  let top := py_prefix (sorted_desc l) n in
  Forall evaluated top ∧ top ≠ []
  ∧ best_fitness_of top = best_fitness_of l.
Proof.
  intros Hn Hev Hne top.
  destruct (py_prefix_sorted_desc_top l n) as (Hlen & Hperm & _ & Htop);
    [lia|]. fold top in Hlen, Hperm, Htop.
  set (rest := drop (Z.to_nat n) (sorted_desc l)) in *.
  assert (top ≠ []) as Htne.
  { intros Hnil. rewrite Hnil in Hlen. simpl in Hlen.
    destruct l; [done|]. simpl in Hlen. lia. }
  assert (Forall evaluated top) as Hevt.
  { apply Forall_forall. intros x Hx.
    apply (proj1 (Forall_forall _ _) Hev). rewrite <-Hperm.
    apply elem_of_app. by left. }
  split; [done|]. split; [done|].
  destruct (best_fitness_of_spec top Hevt Htne) as (mt & -> & Hmt & xt & Hxt & Hkt).
  destruct (best_fitness_of_spec l Hev Hne) as (ml & -> & Hml & xl & Hxl & Hkl).
  f_equal. apply Z.le_antisymm.
  - rewrite <-Hkt. apply Hml. rewrite <-Hperm. apply elem_of_app. by left.
  - rewrite <-Hkl. rewrite <-Hperm in Hxl.
    apply elem_of_app in Hxl as [Hin|Hin]; [by apply Hmt|].
    etrans; [apply (Htop xt xl Hxt Hin)|]. by apply Hmt.
Qed.

Lemma best_fitness_of_app_le l k :
  Forall evaluated l → l ≠ [] → Forall evaluated k →
  ∃ m m', best_fitness_of l = Some m
    ∧ best_fitness_of (l ++ k) = Some m' ∧ (m ≤ m')%Z.
Proof.
  intros Hl Hne Hk.
  destruct (best_fitness_of_spec l Hl Hne) as (m & Hm & _ & x & Hx & Hkx).
  destruct (best_fitness_of_spec (l ++ k)) as (m' & Hm' & Hle & _).
  { by apply Forall_app. }
  { by destruct l. }
  exists m, m'. split; [done|]. split; [done|].
  rewrite <-Hkx. apply Hle. apply elem_of_app. by left.
Qed.

Lemma best_fitness_of_aged l :
  best_fitness_of (aged <$> l) = best_fitness_of l.
Proof.
  unfold best_fitness_of.
  assert (omap fitness (aged <$> l) = omap fitness l) as ->; [|done].
  induction l as [|[g [f|] a] l IH]; [done|..]; cbn; by rewrite IH.
Qed.

Lemma Forall_evaluated_aged l :
  Forall evaluated l → Forall evaluated (aged <$> l).
Proof. intros Hl. apply Forall_fmap. by eapply Forall_impl. Qed.
(** *** One generation under plus selection *)

Lemma run_generation_plus self (mu gen : Z) s self' s' :
  select_survivors self = plus_survivors mu →
  tracker_ok (best_individual self) →
  run_generation np_mean np_std self gen s = Ok (self', s') →
  select_survivors self' = plus_survivors mu
  ∧ tracker_ok (best_individual self')
  ∧ tracker_le (best_individual self) (best_individual self')
  ∧ ((1 ≤ mu)%Z →
     Forall evaluated (population self) → population self ≠ [] →
     Forall evaluated (population self') ∧ population self' ≠ []
     ∧ ∃ m m', population_best self = Some m
         ∧ population_best self' = Some m' ∧ (m ≤ m')%Z).
Proof.
  intros Hplus Hok Hrun. unfold run_generation in Hrun. cbv zeta in Hrun.
  apply M_bind_inv in Hrun as (parents & s1 & _ & Hrun).
  apply M_bind_inv in Hrun as (offspring & s2 & _ & Hrun).
  apply M_bind_inv in Hrun as ([self1 offspring1] & s3 & Heval & Hrun).
  apply lift_inv in Heval as [Heval ->].
  unfold _evaluate_population in Heval.
  apply result_bind_inv in Heval as ([l1 best1] & Heval & [= <- <-]).
  cbn in Heval, Hrun.
  destruct (evaluate_loop_spec _ _ _ _ _ Hok Heval)
    as (Hev1 & _ & Hok1 & Hle1).
  apply M_bind_inv in Hrun as (survivors & s4 & Hsurv & Hrun).
  rewrite Hplus in Hsurv. unfold plus_survivors in Hsurv.
  apply lift_inv in Hsurv as [Hsurv ->].
  apply lift_inv in Hrun as [Hrun ->].
  apply update_history_frame in Hrun as (Hpop & Hbest & Hsel).
  cbn in Hpop, Hbest, Hsel. rewrite Hbest, Hsel.
  split; [done|]. split; [done|]. split; [done|].
  intros Hmu Hev Hne. rewrite Hpop. unfold population_best. rewrite Hpop.
  unfold PlusSelection_call in Hsurv.
  apply result_bind_inv in Hsurv as (sorted & Hsort & [= <-]).
  unfold sort_by_fitness_reverse in Hsort.
  case_decide; [|done]. injection Hsort as <-.
  set (combined := (aged <$> population self) ++ l1).
  assert (Forall evaluated combined) as Hevc.
  { apply Forall_app. split; [by apply Forall_evaluated_aged|done]. }
  assert (combined ≠ []) as Hnec.
  { unfold combined. by destruct (population self). }
  destruct (best_fitness_of_top combined mu Hmu Hevc Hnec)
    as (Hevt & Hnet & Hbt).
  split; [done|]. split; [done|].
  rewrite Hbt. rewrite <-(best_fitness_of_aged (population self)).
  apply best_fitness_of_app_le; [by apply Forall_evaluated_aged| |done].
  by destruct (population self).
Qed.

Lemma run_generations_plus (gens : list Z) self (mu : Z) s self' s' :
  select_survivors self = plus_survivors mu →
  tracker_ok (best_individual self) →
  run_generations np_mean np_std self gens s = Ok (self', s') →
  select_survivors self' = plus_survivors mu
  ∧ tracker_ok (best_individual self')
  ∧ tracker_le (best_individual self) (best_individual self')
  ∧ ((1 ≤ mu)%Z →
     Forall evaluated (population self) → population self ≠ [] →
     Forall evaluated (population self') ∧ population self' ≠ []
     ∧ ∃ m m', population_best self = Some m
         ∧ population_best self' = Some m' ∧ (m ≤ m')%Z).
Proof.
  revert self s. induction gens as [|gen gens IH]; intros self s Hplus Hok Hrun.
  { injection Hrun as <- <-. split; [done|]. split; [done|].
    split; [by apply tracker_le_refl|]. intros _ Hev Hne.
    split; [done|]. split; [done|].
    destruct (best_fitness_of_spec _ Hev Hne) as (m & Hm & _).
    exists m, m. unfold population_best. by rewrite Hm. }
  cbn [run_generations] in Hrun.
  apply M_bind_inv in Hrun as (self1 & s1 & Hstep & Hrun).
  destruct (run_generation_plus _ _ _ _ _ _ Hplus Hok Hstep)
    as (Hplus1 & Hok1 & Hle1 & Hpop1).
  destruct (IH _ _ Hplus1 Hok1 Hrun) as (Hplus2 & Hok2 & Hle2 & Hpop2).
  split; [done|]. split; [done|].
  split; [by eapply tracker_le_trans|]. intros Hmu Hev Hne.
  destruct (Hpop1 Hmu Hev Hne) as (Hev1 & Hne1 & m & m1 & Hm & Hm1 & Hle).
  destruct (Hpop2 Hmu Hev1 Hne1) as (Hev2 & Hne2 & m1' & m2 & Hm1' & Hm2 & Hle').
  split; [done|]. split; [done|]. exists m, m2.
  split; [done|]. split; [done|]. simplify_eq. lia.
Qed.

Lemma run_generations_app self (gens1 gens2 : list Z) s :
  run_generations np_mean np_std self (gens1 ++ gens2) s
  = (self1 ← run_generations np_mean np_std self gens1 ;
     run_generations np_mean np_std self1 gens2) s.
Proof.
  revert self s. induction gens1 as [|gen gens1 IH]; intros self s; [done|].
  cbn [app run_generations]. unfold mbind, M_bind.
  destruct (run_generation _ _ self gen s) as [[self1 s1]|]; [|done].
  apply IH.
Qed.

Lemma generation_range_app (g1 g2 : Z) :
  (g1 ≤ g2)%Z →
  ∃ gens, generation_range g2 = generation_range g1 ++ gens.
Proof.
  intros Hle. unfold generation_range.
  replace (Z.to_nat g2) with (Z.to_nat g1 + (Z.to_nat g2 - Z.to_nat g1))
    by lia.
  rewrite seq_app, fmap_app. by eexists.
Qed.
(** *** The start of a run *)

Lemma run_init_fresh f create sp rp ss (n : Z) self0 s self1 s1 :
  EvolutionaryAlgorithm_init f create sp rp ss n = Ok self0 →
  run_init np_mean np_std self0 s = Ok (self1, s1) →
  select_survivors self1 = ss
  ∧ tracker_ok (best_individual self1)
  ∧ is_Some (best_individual self1)
  ∧ Forall evaluated (population self1) ∧ population self1 ≠ [].
Proof.
  intros [= <-] Hrun. unfold run_init in Hrun. cbv zeta in Hrun.
  apply M_bind_inv in Hrun as (gs & s2 & _ & Hrun).
  apply M_bind_inv in Hrun as ([self2 l2] & s3 & Heval & Hrun).
  apply lift_inv in Heval as [Heval ->].
  unfold _evaluate_population in Heval.
  apply result_bind_inv in Heval as ([l best] & Heval & [= <- <-]).
  cbn in Heval, Hrun.
  assert (tracker_ok (None : option (Individual G))) as Hnone
    by (by intros ??).
  destruct (evaluate_loop_spec _ _ _ _ _ Hnone Heval)
    as (Hev & Hlen & Hok & _).
  destruct best as [b|]; [|done].
  apply lift_inv in Hrun as [Hrun ->].
  apply update_history_frame in Hrun as (-> & -> & ->). cbn.
  split; [done|]. split; [done|]. split; [by eexists|]. split; [done|].
  intros ->. destruct gs; [|done]. by simplify_eq/=.
Qed.

Lemma run_init_empty f create sp rp ss (n : Z) self0 s :
  (n ≤ 0)%Z →
  EvolutionaryAlgorithm_init f create sp rp ss n = Ok self0 →
  run_init np_mean np_std self0 s = Raise ValueError.
Proof.
  intros Hn [= <-]. unfold run_init. cbn.
  by replace (Z.to_nat n) with 0 by lia.
Qed.

(** C5.  In a run of an engine built with plus selection, whatever the
    other strategies and the state of the random generator: the fitness of
    the best-ever tracker after [g2] generations is at least what it was
    after [g1 <= g2] generations, and, when the population size of the plus
    selection is positive, so is the best fitness of the live population. *)
Theorem plus_selection_monotone_elitism
    (f : G → Z) (create : M rng G)
    (sp : list (Individual G) → M rng (list (Individual G)))
    (rp : list (Individual G) → Z → M rng (list (Individual G)))
    (n mu g1 g2 : Z) self0 (s : rng) st1 s1 st2 s2 :
  EvolutionaryAlgorithm_init f create sp rp (plus_survivors mu) n
    = Ok self0 →
  (g1 ≤ g2)%Z →
  run_loop np_mean np_std self0 g1 s = Ok (st1, s1) →
  run_loop np_mean np_std self0 g2 s = Ok (st2, s2) →
  (∃ f1 f2, tracker_fitness st1 = Some f1 ∧ tracker_fitness st2 = Some f2
     ∧ (f1 ≤ f2)%Z)
  ∧ ((1 ≤ mu)%Z →
     ∃ m1 m2, population_best st1 = Some m1 ∧ population_best st2 = Some m2
       ∧ (m1 ≤ m2)%Z).
Proof.
  intros Hinit Hg Hrun1 Hrun2. unfold run_loop in Hrun1, Hrun2.
  apply M_bind_inv in Hrun1 as (self1 & sa & Hi & Hrun1).
  apply M_bind_inv in Hrun2 as (self1' & sa' & Hi' & Hrun2).
  rewrite Hi in Hi'. injection Hi' as <- <-.
  destruct (run_init_fresh _ _ _ _ _ _ _ _ _ _ Hinit Hi)
    as (Hplus & Hok & [b0 Hb0] & Hev & Hne).
  destruct (generation_range_app g1 g2 Hg) as [gens Hgens].
  rewrite Hgens, run_generations_app in Hrun2.
  apply M_bind_inv in Hrun2 as (st1' & s1' & Hrun1' & Hrun2).
  rewrite Hrun1 in Hrun1'. injection Hrun1' as <- <-.
  destruct (run_generations_plus _ _ _ _ _ _ Hplus Hok Hrun1)
    as (Hplus1 & Hok1 & Hle1 & Hpop1).
  destruct (run_generations_plus _ _ _ _ _ _ Hplus1 Hok1 Hrun2)
    as (_ & _ & Hle2 & Hpop2).
  split.
  - destruct (Hle1 b0 Hb0) as (b1 & Hb1 & _ & [f1 Hf1]).
    destruct (Hle2 b1 Hb1) as (b2 & Hb2 & Hle & [f2 Hf2]).
    exists f1, f2. unfold tracker_fitness. rewrite Hb1, Hb2. cbn.
    split; [done|]. split; [done|].
    unfold fitter_eq, fitness_key in Hle. rewrite Hf1, Hf2 in Hle. done.
  - intros Hmu.
    destruct (Hpop1 Hmu Hev Hne) as (Hev1 & Hne1 & _ & m1 & _ & Hm1 & _).
    destruct (Hpop2 Hmu Hev1 Hne1) as (_ & _ & m1' & m2 & Hm1' & Hm2 & Hle).
    exists m1, m2. split; [done|]. split; [done|]. simplify_eq. done.
Qed.
End EngineFacts.

Lemma plus_selection_monotone_elitism_witness :
  ∃ self0 st1 s1 st2 s2,
    EvolutionaryAlgorithm_init ex_fitness ex_create ex_select_parents
        ex_reproduce (plus_survivors 2) 2 = Ok self0
    ∧ run_loop ex_stat ex_stat self0 1 0 = Ok (st1, s1)
    ∧ run_loop ex_stat ex_stat self0 3 0 = Ok (st2, s2)
    ∧ (∃ f1 f2, tracker_fitness st1 = Some f1
         ∧ tracker_fitness st2 = Some f2 ∧ (f1 ≤ f2)%Z)
    ∧ (∃ m1 m2, population_best st1 = Some m1
         ∧ population_best st2 = Some m2 ∧ (m1 ≤ m2)%Z).
Proof.
  eexists _, _, _, _, _.
  split; [reflexivity|]. split; [vm_compute; reflexivity|].
  split; [vm_compute; reflexivity|].
  match goal with
  | |- (∃ f1 f2, tracker_fitness ?st1 = _ ∧ tracker_fitness ?st2 = _ ∧ _) ∧ _ =>
      destruct (plus_selection_monotone_elitism ex_stat ex_stat
                  ex_fitness ex_create ex_select_parents ex_reproduce
                  2 2 1 3 _ 0 st1 2 st2 2 eq_refl)
        as [Htr Hpop]
  end.
  - lia.
  - vm_compute; reflexivity.
  - vm_compute; reflexivity.
  - split; [exact Htr|]. apply Hpop. lia.
Defined.

(** *** The statistics step and the gaps of the history *)

(** C9.  When the live population is empty, or none of its candidates has
    a fitness, [_update_history_and_log] returns with the engine as it was:
    nothing is appended to the five lists of the history and the logger is
    not called.  So the history may have gaps: there is a run of two
    generations whose history records the generations 0 and 2 only, its
    entry of index 1 being that of generation 2. *)
Theorem stats_step_noop_and_gaps :
  (∀ (rng G stat : Type) (np_mean np_std : list Z → stat)
     (self : EvolutionaryAlgorithm rng G stat) (gen : Z),
     population self = []
     ∨ Forall (λ ind, fitness ind = None) (population self) →
     ∃ self', _update_history_and_log np_mean np_std self gen = Ok self'
       ∧ self' = self
       ∧ history self' = history self ∧ logger self' = logger self)
  ∧ (∃ self0 self2 out s,
       ex_gap_engine = Ok self0
       ∧ run ex_stat ex_stat self0 2 0 = Ok (self2, out, s)
       ∧ generation (history self2) = [0; 2]%Z
       ∧ generation (history self2) !! 1 = Some 2%Z
       ∧ length (best_fitness (history self2)) = 2).
Proof.
  split.
  - intros rng G stat np_mean np_std self gen Hpop. exists self.
    split; [|done]. unfold _update_history_and_log.
    destruct (population self) as [|x l] eqn:Hp; [done|].
    destruct Hpop as [?|Hnone]; [done|].
    assert (omap fitness (x :: l) = []) as ->; [|done].
    clear Hp. induction Hnone as [|y k Hy _ IH]; [done|].
    cbn. by rewrite Hy.
  - eexists _, _, _, _. split; [reflexivity|].
    split; [vm_compute; reflexivity|]. by repeat split.
Qed.

Lemma stats_step_noop_and_gaps_witness :
  ∃ self0, ex_plus_engine 2 = Ok self0
    ∧ population self0 = []
    ∧ _update_history_and_log ex_stat ex_stat self0 0 = Ok self0
    ∧ _update_history_and_log ex_stat ex_stat
        (set_population self0 [Individual_init []; Individual_init []]) 5
      = Ok (set_population self0 [Individual_init []; Individual_init []]).
Proof.
  eexists. split; [reflexivity|]. split; [reflexivity|].
  destruct stats_step_noop_and_gaps as [Hnoop _]. split.
  - edestruct (Hnoop nat (list (option Z)) unit ex_stat ex_stat)
      as (self' & -> & -> & _); [|reflexivity].
    by left.
  - edestruct (Hnoop nat (list (option Z)) unit ex_stat ex_stat)
      as (self' & -> & -> & _); [|reflexivity].
    right. by repeat constructor.
Defined.

(** *** Configuration errors *)

(** C7, as the claim states it, fails for the engine: constructing it with
    the population size 0 raises nothing. *)
Lemma engine_init_accepts_zero :
  ¬ ∃ e, ex_plus_engine 0 = Raise e.
Proof. by intros [e ?]. Qed.

(** C7, amended.  [TournamentSelection] with [k <= 0] raises [ValueError]
    when it is constructed.  The constructor of the engine checks nothing:
    it returns an engine for every population size, and with a population
    size that is not positive it is [run] that raises [ValueError], before
    any generation, whatever the number of generations asked for. *)
Theorem configuration_errors :
  (∀ k : Z, (k ≤ 0)%Z → TournamentSelection_init k = Raise ValueError)
  ∧ (∀ (rng G stat : Type) f create sp rp ss (n : Z),
       ∃ self : EvolutionaryAlgorithm rng G stat,
         EvolutionaryAlgorithm_init f create sp rp ss n = Ok self
         ∧ population_size self = n)
  ∧ (∀ (rng G stat : Type) (np_mean np_std : list Z → stat)
       f create sp rp ss (n generations : Z) (s : rng)
       (self : EvolutionaryAlgorithm rng G stat),
       (n ≤ 0)%Z →
       EvolutionaryAlgorithm_init f create sp rp ss n = Ok self →
       run np_mean np_std self generations s = Raise ValueError).
Proof.
  split; [|split].
  - intros k Hk. unfold TournamentSelection_init. by rewrite decide_True.
  - intros. by eexists.
  - intros rng G stat np_mean np_std f create sp rp ss n generations s self
      Hn Hinit.
    unfold run, run_loop.
    apply M_bind_Raise. apply M_bind_Raise.
    by eapply run_init_empty.
Qed.

Lemma configuration_errors_witness :
  TournamentSelection_init 0 = Raise ValueError
  ∧ TournamentSelection_init (-2) = Raise ValueError
  ∧ ∃ self0, ex_plus_engine 0 = Ok self0
      ∧ run ex_stat ex_stat self0 5 0 = Raise ValueError.
Proof.
  destruct configuration_errors as (Hk & Hinit & Hrun).
  split; [by apply Hk|]. split; [by apply Hk|].
  destruct (Hinit nat (list (option Z)) unit ex_fitness ex_create
              ex_select_parents ex_reproduce (plus_survivors 0) 0%Z)
    as (self0 & Hself0 & _).
  exists self0. split; [exact Hself0|].
  by eapply (Hrun nat (list (option Z)) unit ex_stat ex_stat); [|exact Hself0].
Defined.

(** ** Cycle crossover *)

Section CycleCrossoverFacts.
Context {A : Type} `{Countable A}.
Implicit Types (p c : list (option A)) (st : cx_state A).
Implicit Types (log : list (nat * nat)).

(** *** The lookup table *)

Lemma foldl_insert_lookup (L : list (nat * option A))
    (m : gmap (option A) nat) (v : option A) (j : nat) :
  NoDup L.*2 → (∀ iv, iv ∈ L → m !! iv.2 = None) →
  foldl (λ m iv, <[iv.2:=iv.1]> m) m L !! v = Some j
  ↔ (j, v) ∈ L ∨ m !! v = Some j.
Proof.
  revert m. induction L as [|[i0 v0] L IH]; intros m Hnd Hm; simpl.
  { split; [by right|]. by intros [?%elem_of_nil|?]. }
  apply NoDup_cons in Hnd as [Hv0 Hnd]. rewrite IH; [|done|].
  - rewrite lookup_insert_Some, elem_of_cons.
    pose proof (Hm (i0, v0) ltac:(by left)) as Hm0. simpl in Hm0.
    split.
    + intros [?|[[<- <-]|[? ?]]]; [left; by right|left; by left|by right].
    + intros [[[= -> ->]|?]|Hmv]; [right; by left|by left|].
      right. right. split; [|done]. intros <-. congruence.
  - intros [i v'] Hin. simpl. rewrite lookup_insert_ne.
    + apply (Hm (i, v')). by right.
    + intros <-. apply Hv0. by apply (list_elem_of_fmap_2 snd) in Hin.
Qed.

Lemma value_to_index_lookup p (v : option A) (j : nat) :
  NoDup p → value_to_index p !! v = Some j ↔ p !! j = Some v.
Proof.
  intros Hnd. unfold value_to_index. rewrite foldl_insert_lookup.
  - rewrite lookup_empty, elem_of_lookup_imap. split.
    + intros [(i & y & [= -> ->] & ?)|?]; done.
    + intros ?. left. by exists j, v.
  - rewrite fmap_imap.
    by replace (imap (λ n, snd ∘ (λ value, (n, value))) p) with p
      by (apply list_eq; intros i; rewrite list_lookup_imap;
          by destruct (p !! i)).
  - intros ??. apply lookup_empty.
Qed.

(** *** The jump from a position to the next of its cycle *)

Section Jump.
Context (p1 p2 : list (option A)).
Hypothesis Hnd : NoDup p1.
Hypothesis Hperm : p1 ≡ₚ p2.

Lemma jump_lt (i j : nat) :
  jump p1 p2 i j → i < length p1 ∧ j < length p1.
Proof.
  intros (v & Hi & Hj). split; [by eapply lookup_lt_Some|].
  rewrite Hperm. by eapply lookup_lt_Some.
Qed.

Lemma jump_next (i : nat) : i < length p1 → ∃ j, jump p1 p2 i j.
Proof.
  intros Hi. destruct (lookup_lt_is_Some_2 p1 i Hi) as [v Hv].
  assert (v ∈ p2) as [j Hj]%list_elem_of_lookup_1.
  { rewrite <-Hperm. by eapply list_elem_of_lookup_2. }
  exists j. by exists v.
Qed.

Lemma jump_prev (j : nat) : j < length p1 → ∃ i, jump p1 p2 i j.
Proof.
  intros Hj. rewrite Hperm in Hj.
  destruct (lookup_lt_is_Some_2 p2 j Hj) as [v Hv].
  assert (v ∈ p1) as [i Hi]%list_elem_of_lookup_1.
  { rewrite Hperm. by eapply list_elem_of_lookup_2. }
  exists i. by exists v.
Qed.

Lemma jump_det (i j j' : nat) : jump p1 p2 i j → jump p1 p2 i j' → j = j'.
Proof.
  intros (v & Hi & Hj) (v' & Hi' & Hj'). simplify_eq.
  eapply NoDup_lookup; [|done..]. by rewrite <-Hperm.
Qed.

Lemma jump_inj (i i' j : nat) : jump p1 p2 i j → jump p1 p2 i' j → i = i'.
Proof.
  intros (v & Hi & Hj) (v' & Hi' & Hj'). simplify_eq.
  by eapply NoDup_lookup.
Qed.

Lemma jump_dict (i : nat) (v : option A) :
  p1 !! i = Some v →
  ∃ j, py_dict_get (value_to_index p2) v = Ok j ∧ jump p1 p2 i j.
Proof.
  intros Hi. destruct (jump_next i) as [j Hj]; [by eapply lookup_lt_Some|].
  exists j. split; [|done]. destruct Hj as (v' & Hi' & Hj).
  rewrite Hi in Hi'. injection Hi' as <-.
  assert (NoDup p2) as Hnd2 by (by rewrite <-Hperm).
  unfold py_dict_get.
  by rewrite (proj2 (value_to_index_lookup p2 v j Hnd2) Hj).
Qed.
End Jump.
(** *** The loops *)

Section Loops.
Context (p1 p2 : list (option A)).
Hypothesis Hnd : NoDup p1.
Hypothesis Hperm : p1 ≡ₚ p2.

Lemma assigned_label_unique st (k k' i : nat) :
  cx_shape p1 p2 st →
  (k, i) ∈ assigned st → (k', i) ∈ assigned st → k = k'.
Proof.
  intros Hs [a Ha]%list_elem_of_lookup_1 [b Hb]%list_elem_of_lookup_1.
  assert (a = b) as ->; [|congruence].
  eapply (NoDup_lookup _ a b i); [apply Hs|..];
    by rewrite list_lookup_fmap; (rewrite Ha || rewrite Hb).
Qed.

Lemma assigned_position st (k i : nat) :
  (k, i) ∈ assigned st → i ∈ (assigned st).*2.
Proof. intros Hin. by apply (list_elem_of_fmap_2 snd) in Hin. Qed.

Lemma position_assigned st (i : nat) :
  i ∈ (assigned st).*2 → ∃ k, (k, i) ∈ assigned st.
Proof. intros ([k i'] & -> & Hin)%list_elem_of_fmap. by exists k. Qed.

Lemma visited_false st (i : nat) :
  cx_shape p1 p2 st → i < length p1 → i ∉ (assigned st).*2 →
  visited_indices st !! i = Some false.
Proof.
  intros Hs Hi Hnot.
  destruct (lookup_lt_is_Some_2 (visited_indices st) i) as [[] Hv];
    [by rewrite (cx_lenv _ _ _ Hs)| |done].
  by apply (cx_visited _ _ _ Hs) in Hv.
Qed.

(** Once as many positions are assigned as there are positions, every
    position is. *)
Lemma all_assigned st (i : nat) :
  cx_shape p1 p2 st → length p1 ≤ length (assigned st) →
  i < length p1 → i ∈ (assigned st).*2.
Proof.
  intros Hs Hlen Hi.
  assert ((assigned st).*2 ≡ₚ seq 0 (length p1)) as ->.
  { apply submseteq_length_Permutation.
    - apply NoDup_submseteq; [apply Hs|].
      intros j [k Hk]%position_assigned. apply elem_of_seq.
      destruct (cx_entries _ _ _ Hs k j Hk) as [? _]. lia.
    - by rewrite length_seq, length_fmap. }
  apply elem_of_seq. lia.
Qed.
Lemma cx_shape_assign st (cur : nat) (g1 g2 a b : option A) :
  cx_shape p1 p2 st → cur ∉ (assigned st).*2 → 1 ≤ cycle_num st →
  p1 !! cur = Some g1 → p2 !! cur = Some g2 →
  (if decide (cycle_num st `mod` 2 = 1) then a = g1 ∧ b = g2
   else a = g2 ∧ b = g1) →
  cx_shape p1 p2
    (mkCx (<[cur:=a]> (c1_gen st)) (<[cur:=b]> (c2_gen st))
       (<[cur:=true]> (visited_indices st)) (cycle_num st)
       (assigned st ++ [(cycle_num st, cur)])).
Proof.
  intros Hs Hcur Hnum Hg1 Hg2 Hab.
  assert (cur < length p1) as Hlt by (by eapply lookup_lt_Some).
  split; cbn [c1_gen c2_gen visited_indices cycle_num assigned].
  - rewrite length_insert. apply Hs.
  - rewrite length_insert. apply Hs.
  - rewrite length_insert. apply Hs.
  - intros i. rewrite fmap_app, elem_of_app. cbn [fmap list_fmap snd].
    rewrite list_elem_of_singleton.
    rewrite list_lookup_insert_Some, <-(cx_visited _ _ _ Hs).
    rewrite (cx_lenv _ _ _ Hs). split.
    + intros [(-> & _ & _)|[_ ?]]; [by right|by left].
    + intros [?| ->]; [|by left]. destruct (decide (cur = i)) as [->|];
        [by left|by right].
  - rewrite fmap_app. apply NoDup_app. split; [apply Hs|].
    split; [|apply NoDup_singleton].
    intros i Hi ->%list_elem_of_singleton. done.
  - intros k i [Hin|[= -> ->]%list_elem_of_singleton]%elem_of_app.
    + destruct (cx_entries _ _ _ Hs k i Hin) as (Hi & Hk & Hw).
      split; [done|]. split; [done|].
      assert (cur ≠ i) as Hne.
      { intros <-. apply Hcur. by eapply assigned_position. }
      unfold cx_written in *. simpl.
      by rewrite !list_lookup_insert_ne by done.
    + split; [done|]. split; [lia|].
      unfold cx_written. simpl.
      rewrite !list_lookup_insert_eq
        by (by rewrite ?(cx_len1 _ _ _ Hs), ?(cx_len2 _ _ _ Hs)).
      rewrite Hg1, Hg2. by destruct (decide _); destruct Hab as [-> ->].
  - rewrite fmap_app. apply StronglySorted_app_2; [|apply Hs|].
    + intros k k' [[k0 i] [-> Hin]]%list_elem_of_fmap
        ->%list_elem_of_singleton. simpl.
      by destruct (cx_entries _ _ _ Hs k0 i Hin) as (_ & [_ ?] & _).
    + repeat constructor.
Qed.

Lemma cx_assign_spec st (cur : nat) :
  cx_shape p1 p2 st → cur < length p1 →
  cur ∉ (assigned st).*2 → 1 ≤ cycle_num st →
  ∃ st', cx_assign p1 p2 cur st = Ok st'
    ∧ cx_shape p1 p2 st'
    ∧ assigned st' = assigned st ++ [(cycle_num st, cur)]
    ∧ cycle_num st' = cycle_num st.
Proof.
  intros Hs Hlt Hcur Hnum.
  destruct (lookup_lt_is_Some_2 p1 cur Hlt) as [g1 Hg1].
  destruct (lookup_lt_is_Some_2 p2 cur) as [g2 Hg2]; [by rewrite <-Hperm|].
  unfold cx_assign, py_setitem, py_getitem.
  rewrite (cx_lenv _ _ _ Hs), (cx_len1 _ _ _ Hs), (cx_len2 _ _ _ Hs), Hg1, Hg2.
  rewrite decide_True by done. cbn [mbind result_bind].
  destruct (decide (cycle_num st `mod` 2 = 1)) as [Hodd|Heven];
    cbn [mbind result_bind]; rewrite !decide_True by done;
    cbn [mbind result_bind];
    (eexists; split; [done|]; split; [|done]);
    eapply cx_shape_assign; try done.
  - by rewrite decide_True.
  - by rewrite decide_False.
Qed.
(** Leaving the [while]: the position met again is the one the cycle
    started at, and the cycle is closed. *)
Lemma cx_open_exit st (idx0 cur : nat) :
  cx_open p1 p2 idx0 cur st → cur ∈ (assigned st).*2 →
  cx_inv p1 p2 st ∧ (cycle_num st, idx0) ∈ assigned st ∧ cur = idx0.
Proof.
  intros Ho Hcur.
  assert (idx0 ∈ (assigned st).*2) as Hidx0.
  { destruct (decide (idx0 ∈ (assigned st).*2)) as [|Hnot]; [done|].
    by rewrite <-(cx_open_start _ _ _ _ _ Ho Hnot). }
  assert (cur = idx0) as ->.
  { destruct (decide (cur = idx0)) as [|Hne]; [done|].
    destruct (position_assigned _ _ Hcur) as [k Hk].
    destruct (jump_prev p1 p2 Hperm cur (cx_open_cur _ _ _ _ _ Ho))
      as [i Hi].
    by destruct (cx_open_back _ _ _ _ _ Ho k i cur Hk Hne Hi) as [_ []]. }
  pose proof (cx_open_first _ _ _ _ _ Ho Hidx0) as Hfirst.
  split; [|done]. split; [apply Ho|..].
  - intros k i j Hin Hj.
    destruct (cx_open_fwd _ _ _ _ _ Ho k i j Hin Hj) as [|[-> ->]]; done.
  - intros k i j Hin Hj. destruct (decide (j = idx0)) as [->|Hne].
    + pose proof (cx_open_prev _ _ _ _ _ Ho Hidx0 i Hj) as Hprev.
      by rewrite (assigned_label_unique st k (cycle_num st) idx0
                    (cx_open_shape _ _ _ _ _ Ho) Hin Hfirst).
    + by destruct (cx_open_back _ _ _ _ _ Ho k i j Hin Hne Hj).
Qed.

(** One iteration of the [while]. *)
Lemma cx_open_step st st' (idx0 cur cur' : nat) :
  cx_open p1 p2 idx0 cur st → cur ∉ (assigned st).*2 →
  cx_shape p1 p2 st' →
  assigned st' = assigned st ++ [(cycle_num st, cur)] →
  cycle_num st' = cycle_num st →
  jump p1 p2 cur cur' →
  cx_open p1 p2 idx0 cur' st'.
Proof.
  intros Ho Hcur Hs' Hlog Hnum Hjump.
  assert (∀ k i, (k, i) ∈ assigned st' ↔
            (k, i) ∈ assigned st ∨ (k = cycle_num st ∧ i = cur)) as Hin'.
  { intros k i. rewrite Hlog, elem_of_app, list_elem_of_singleton.
    split; (intros [?|?]; [by left|right]); [by simplify_eq|].
    destruct_and!. by subst. }
  assert (∀ i, i ∈ (assigned st').*2 ↔ i ∈ (assigned st).*2 ∨ i = cur)
    as Hpos'.
  { intros i. rewrite Hlog, fmap_app, elem_of_app.
    cbn [fmap list_fmap snd]. by rewrite list_elem_of_singleton. }
  assert (∀ k i, (k, i) ∈ assigned st → ¬ jump p1 p2 i cur') as Hnot.
  { intros k i Hin Hi.
    rewrite (jump_inj p1 p2 Hnd i cur cur' Hi Hjump) in Hin.
    apply Hcur. by eapply assigned_position. }
  split; [done|by eapply jump_lt|rewrite Hnum; apply Ho|..].
  - intros k i j [Hin|[-> ->]]%Hin' Hne Hj.
    + destruct (cx_open_back _ _ _ _ _ Ho k i j Hin Hne Hj) as [Hi _].
      split; [apply Hin'; by left|by eapply Hnot].
    + assert (idx0 ∈ (assigned st).*2) as Hidx0.
      { destruct (decide (idx0 ∈ (assigned st).*2)) as [|Hn]; [done|].
        by destruct Hne; apply (cx_open_start _ _ _ _ _ Ho). }
      pose proof (cx_open_prev _ _ _ _ _ Ho Hidx0 i Hj) as Hi.
      split; [apply Hin'; by left|by eapply Hnot].
  - intros _ i Hi. rewrite Hnum. apply Hin'. right.
    split; [done|]. by eapply jump_inj.
  - intros k i j [Hin|[-> ->]]%Hin' Hj.
    + left. apply Hin'.
      destruct (cx_open_fwd _ _ _ _ _ Ho k i j Hin Hj) as [|[-> ->]];
        [by left|by right].
    + right. split; [|done]. by eapply jump_det.
  - intros Hidx0. exfalso. apply Hidx0, Hpos'.
    destruct (decide (idx0 ∈ (assigned st).*2)) as [|Hn]; [by left|].
    right. symmetry. by apply (cx_open_start _ _ _ _ _ Ho).
  - intros _. rewrite Hnum. apply Hin'.
    destruct (decide (idx0 ∈ (assigned st).*2)) as [Hidx0|Hn].
    + left. by apply (cx_open_first _ _ _ _ _ Ho).
    + right. split; [done|]. symmetry. by apply (cx_open_start _ _ _ _ _ Ho).
Qed.

Lemma cx_cycle_visited (fuel cur : nat) st :
  visited_indices st !! cur = Some true →
  cx_cycle fuel p1 p2 (value_to_index p2) cur st = Ok st.
Proof.
  intros Hv. destruct fuel; cbn [cx_cycle]; unfold py_getitem; by rewrite Hv.
Qed.

(** The [while] returns, with the cycle of [idx0] closed: the positions it
    assigns are a walk from [cur] to [idx0]. *)
Lemma cx_cycle_spec (fuel : nat) (idx0 cur : nat) st :
  cx_open p1 p2 idx0 cur st →
  length p1 ≤ fuel + length (assigned st) →
  ∃ st' (c : list nat),
    cx_cycle fuel p1 p2 (value_to_index p2) cur st = Ok st'
    ∧ cx_inv p1 p2 st' ∧ cycle_num st' = cycle_num st
    ∧ (cycle_num st', idx0) ∈ assigned st'
    ∧ assigned st' = assigned st ++ ((cycle_num st,.) <$> c)
    ∧ cx_walk p1 p2 cur c idx0.
Proof.
  revert cur st. induction fuel as [|fuel IH]; intros cur st Ho Hfuel.
  - assert (cur ∈ (assigned st).*2) as Hcur.
    { apply all_assigned; [apply Ho|lia|apply Ho]. }
    destruct (cx_open_exit _ _ _ Ho Hcur) as (Hinv & Hidx0 & Hexit).
    exists st, []. split; [|by rewrite app_nil_r].
    apply cx_cycle_visited. by apply (cx_visited _ _ _ (cx_open_shape _ _ _ _ _ Ho)).
  - destruct (decide (cur ∈ (assigned st).*2)) as [Hcur|Hcur].
    { destruct (cx_open_exit _ _ _ Ho Hcur) as (Hinv & Hidx0 & Hexit).
      exists st, []. split; [|by rewrite app_nil_r].
      apply cx_cycle_visited.
      by apply (cx_visited _ _ _ (cx_open_shape _ _ _ _ _ Ho)). }
    pose proof (cx_open_shape _ _ _ _ _ Ho) as Hs.
    pose proof (cx_open_cur _ _ _ _ _ Ho) as Hlt.
    destruct (cx_assign_spec st cur Hs Hlt Hcur (cx_open_num _ _ _ _ _ Ho))
      as (st1 & Hassign & Hs1 & Hlog & Hnum).
    destruct (lookup_lt_is_Some_2 p1 cur Hlt) as [v Hv].
    destruct (jump_dict p1 p2 Hnd Hperm cur v Hv) as (cur' & Hdict & Hjump).
    destruct (IH cur' st1)
      as (st' & c & Hrun & Hinv & Hnum' & Hidx0 & Hlog' & Hwalk).
    { by eapply cx_open_step. }
    { rewrite Hlog, length_app. simpl. lia. }
    exists st', (cur :: c). cbn [cx_cycle].
    rewrite (py_getitem_Some _ _ _ (visited_false st cur Hs Hlt Hcur)).
    cbn [mbind result_bind]. rewrite Hassign. cbn [mbind result_bind].
    rewrite (py_getitem_Some _ _ _ Hv). cbn [mbind result_bind].
    rewrite Hdict. cbn [mbind result_bind].
    split; [done|]. split; [done|]. split; [congruence|]. split; [done|].
    split.
    + rewrite Hlog', Hlog, Hnum, <-app_assoc. done.
    + split; [done|]. by exists cur'.
Qed.

(** Entering the [while] at a position that is not visited. *)
Lemma cx_open_next st (idx : nat) :
  cx_inv p1 p2 st → idx < length p1 → idx ∉ (assigned st).*2 →
  cx_open p1 p2 idx idx (next_cycle st).
Proof.
  intros Hinv Hlt Hidx. pose proof (cx_inv_shape _ _ _ Hinv) as Hs.
  split; cbn [next_cycle c1_gen c2_gen visited_indices cycle_num assigned];
    try done.
  - split; cbn [next_cycle c1_gen c2_gen visited_indices cycle_num assigned];
      try apply Hs.
    intros k i Hin. destruct (cx_entries _ _ _ Hs k i Hin) as (? & ? & ?).
    split; [done|]. split; [lia|done].
  - lia.
  - intros k i j Hin Hne Hj. split; [by eapply cx_coclosed|].
    intros Hi. apply Hidx. eapply assigned_position.
    eapply (cx_closed _ _ _ Hinv k i idx); [|done]. by eapply cx_coclosed.
  - intros k i j Hin Hj. left. by eapply cx_closed.
Qed.

(** The entries of a walk in the record of the assignments are those of
    its cycle number. *)
Lemma filter_cycle_entries (k k' : nat) (c : list nat) :
  filter (λ e : nat * nat, e.1 = k) ((k',.) <$> c)
  = if decide (k' = k) then (k',.) <$> c else [].
Proof.
  induction c as [|i c IH]; [by destruct (decide _)|].
  cbn [fmap list_fmap]. rewrite filter_cons. cbn [fst]. fold (fmap (k',.) c).
  rewrite IH. by destruct (decide (k' = k)).
Qed.

Lemma snd_cycle_entries (k : nat) (c : list nat) : ((k,.) <$> c).*2 = c.
Proof. induction c as [|i c IH]; [done|]. cbn [fmap list_fmap snd]. by f_equal. Qed.

Lemma filter_cycle_none (k : nat) log :
  (∀ k' i, (k', i) ∈ log → k' ≠ k) →
  filter (λ e : nat * nat, e.1 = k) log = [].
Proof.
  induction log as [|[k' i] log IH]; intros Hlog; [done|].
  rewrite filter_cons. cbn [fst].
  rewrite decide_False by (apply (Hlog k' i); by left).
  apply IH. intros k'' j Hin. apply (Hlog k'' j). by right.
Qed.

(** A cycle that was found stays as it is when a later cycle is recorded
    after it. *)
Lemma cx_discovered_later st st' (k : nat) (c : list nat) :
  assigned st' = assigned st ++ ((cycle_num st',.) <$> c) →
  k < cycle_num st' →
  cx_discovered p1 p2 st k → cx_discovered p1 p2 st' k.
Proof.
  intros Hlog Hk (idx & c0 & Hpos & Hwalk & Hleast).
  exists idx, c0. split; [|split; [done|]].
  - unfold cx_cycle_positions in *.
    rewrite Hlog, filter_app, filter_cycle_entries.
    rewrite decide_False by lia. by rewrite app_nil_r.
  - intros i Hi. destruct (Hleast i Hi) as (k' & Hk' & Hin).
    exists k'. split; [done|]. rewrite Hlog. apply elem_of_app. by left.
Qed.

(** The [for] over the positions [a], [a + 1], ..., when the positions
    before [a] are assigned.  Every cycle number from 1 to [cycle_num] is
    that of a cycle, found as [cx_discovered] says. *)
Lemma cx_cycles_spec (a m : nat) st :
  cx_inv p1 p2 st → a + m ≤ length p1 →
  (∀ i, i < a → i ∈ (assigned st).*2) →
  (∀ k, 1 ≤ k ≤ cycle_num st → cx_discovered p1 p2 st k) →
  ∃ st', cx_cycles (length p1) (seq a m) p1 p2 (value_to_index p2) st = Ok st'
    ∧ cx_inv p1 p2 st'
    ∧ (∀ i, i < a + m → i ∈ (assigned st').*2)
    ∧ (∀ k, 1 ≤ k ≤ cycle_num st' → cx_discovered p1 p2 st' k).
Proof.
  revert a st. induction m as [|m IH]; intros a st Hinv Hlen Hbefore Hfound.
  { exists st. split; [done|]. split; [done|]. split; [|done].
    intros i Hi. apply Hbefore. lia. }
  pose proof (cx_inv_shape _ _ _ Hinv) as Hs.
  cbn [seq cx_cycles].
  destruct (decide (a ∈ (assigned st).*2)) as [Hidx|Hidx].
  - rewrite (py_getitem_Some _ _ _ (proj2 (cx_visited _ _ _ Hs a) Hidx)).
    cbn [mbind result_bind].
    destruct (IH (S a) st Hinv) as (st' & Hrun & Hinv' & Hall & Hfound');
      [lia| |done|].
    { intros i Hi. destruct (decide (i = a)) as [->|]; [done|].
      apply Hbefore. lia. }
    exists st'. split; [done|]. split; [done|]. split; [|done].
    intros i Hi. apply Hall. lia.
  - rewrite (py_getitem_Some _ _ _ (visited_false st a Hs ltac:(lia) Hidx)).
    cbn [mbind result_bind].
    destruct (cx_cycle_spec (length p1) a a (next_cycle st))
      as (st1 & c & Hrun1 & Hinv1 & Hnum1 & Hidx1 & Hlog1 & Hwalk1).
    { apply cx_open_next; [done|lia|done]. }
    { lia. }
    rewrite Hrun1. cbn [mbind result_bind].
    cbn [next_cycle cycle_num assigned] in Hnum1, Hlog1.
    assert (∀ e, e ∈ assigned st → e ∈ assigned st1) as Hmono1.
    { intros e He. rewrite Hlog1. apply elem_of_app. by left. }
    destruct (IH (S a) st1 Hinv1) as (st' & Hrun & Hinv' & Hall & Hfound');
      [lia| | |].
    { intros i Hi. destruct (decide (i = a)) as [->|].
      - by eapply assigned_position.
      - destruct (position_assigned st i) as [k Hk]; [apply Hbefore; lia|].
        eapply assigned_position. by apply Hmono1. }
    { intros k Hk. rewrite Hnum1 in Hk.
      destruct (decide (k = cycle_num st + 1)) as [->|Hne].
      - destruct c as [|idx c].
        { rewrite app_nil_r in Hlog1. rewrite Hlog1, Hnum1 in Hidx1.
          destruct Hidx. by eapply assigned_position. }
        pose proof Hwalk1 as [-> _].
        exists a, c. split; [|split; [done|]].
        + unfold cx_cycle_positions.
          rewrite Hlog1, filter_app, filter_cycle_entries.
          rewrite decide_True by done.
          rewrite filter_cycle_none.
          * cbn [app]. apply snd_cycle_entries.
          * intros k' i Hin.
            destruct (cx_entries _ _ _ Hs k' i Hin) as (_ & ? & _). lia.
        + intros i Hi.
          destruct (position_assigned st i) as [k' Hk']; [by apply Hbefore|].
          exists k'.
          destruct (cx_entries _ _ _ Hs k' i Hk') as (_ & ? & _).
          split; [lia|by apply Hmono1].
      - apply (cx_discovered_later st st1 k c);
          [by rewrite Hnum1|lia|apply Hfound; lia]. }
    exists st'. split; [done|]. split; [done|]. split; [|done].
    intros i Hi. apply Hall. lia.
Qed.

Lemma cx_initial_inv (n : nat) :
  n = length p1 →
  cx_inv p1 p2
    {| c1_gen := replicate n None; c2_gen := replicate n None;
       visited_indices := replicate n false; cycle_num := 0;
       assigned := [] |}.
Proof.
  intros ->. split; [split|..]; simpl;
    rewrite ?length_replicate; try done.
  - intros i. split; [|by intros ?%elem_of_nil].
    by intros [? _]%lookup_replicate.
  - constructor.
  - by intros ?? ?%elem_of_nil.
  - constructor.
  - by intros ??? ?%elem_of_nil.
  - by intros ??? ?%elem_of_nil.
Qed.
End Loops.

(** *** The children *)

(** A list that takes, at each position, the gene of [q1] in the odd
    cycles and that of [q2] in the even ones is a permutation of [q1], as
    long as a gene does not sit in [q1] and in [q2] at positions of two
    different cycles. *)
Lemma cx_mix_Permutation (q1 q2 c : list (option A)) log :
  NoDup q1 → q1 ≡ₚ q2 → length c = length q1 → NoDup log.*2 →
  (∀ i, i < length q1 →
     ∃ k, (k, i) ∈ log
       ∧ c !! i = (if decide (k `mod` 2 = 1) then q1 else q2) !! i) →
  (∀ ki kj i j x, (ki, i) ∈ log → (kj, j) ∈ log →
     q1 !! i = Some x → q2 !! j = Some x → ki = kj) →
  c ≡ₚ q1.
Proof.
  intros Hnd1 Hperm Hlen Hndl Hat Hsame.
  assert (NoDup q2) as Hnd2 by (by rewrite <-Hperm).
  assert (∀ k k' i, (k, i) ∈ log → (k', i) ∈ log → k = k') as Huniq.
  { intros k k' i [a Ha]%list_elem_of_lookup_1 [b Hb]%list_elem_of_lookup_1.
    assert (a = b) as ->; [|congruence].
    eapply (NoDup_lookup _ a b i); [done|..];
      by rewrite list_lookup_fmap; (rewrite Ha || rewrite Hb). }
  apply submseteq_length_Permutation; [|by rewrite Hlen].
  apply NoDup_submseteq.
  - apply NoDup_alt. intros i j x Hi Hj.
    destruct (Hat i) as (ki & Hki & Hci);
      [rewrite <-Hlen; by eapply lookup_lt_Some|].
    destruct (Hat j) as (kj & Hkj & Hcj);
      [rewrite <-Hlen; by eapply lookup_lt_Some|].
    rewrite Hi in Hci. rewrite Hj in Hcj.
    destruct (decide (ki `mod` 2 = 1)) as [Hoi|Hei];
      destruct (decide (kj `mod` 2 = 1)) as [Hoj|Hej].
    + by eapply (NoDup_lookup q1).
    + by destruct Hej; rewrite <-(Hsame ki kj i j x).
    + by destruct Hei; rewrite <-(Hsame kj ki j i x).
    + by eapply (NoDup_lookup q2).
  - intros x [i Hi]%list_elem_of_lookup_1.
    destruct (Hat i) as (k & _ & Hci);
      [rewrite <-Hlen; by eapply lookup_lt_Some|].
    rewrite Hi in Hci. destruct (decide _).
    + by eapply list_elem_of_lookup_2.
    + rewrite Hperm. by eapply list_elem_of_lookup_2.
Qed.

(** The crossover step on parents that are permutations of one gene set
    returns, every position assigned and every cycle found. *)
Lemma cx_recombine_spec (p1 p2 : list (option A)) :
  NoDup p1 → p1 ≡ₚ p2 →
  ∃ st, cx_recombine p1 p2 = Ok st
    ∧ cx_inv p1 p2 st
    ∧ (∀ i, i < length p1 → ∃ k, (k, i) ∈ assigned st)
    ∧ (∀ k, 1 ≤ k ≤ cycle_num st → cx_discovered p1 p2 st k).
Proof.
  intros Hnd Hperm. unfold cx_recombine. cbv zeta.
  destruct (cx_cycles_spec p1 p2 Hnd Hperm 0 (length p1) _
              (cx_initial_inv p1 p2 _ eq_refl))
    as (st & Hrun & Hinv & Hall & Hfound).
  { lia. }
  { intros i ?. lia. }
  { simpl. intros k ?. lia. }
  exists st. split; [done|]. split; [done|]. split; [|done].
  intros i Hi. apply position_assigned, Hall. lia.
Qed.

(** The children of the crossover step of cycle crossover, for parents
    that are permutations of one gene set. *)
Lemma cx_recombine_children (p1 p2 : list (option A)) :
  NoDup p1 → p1 ≡ₚ p2 →
  ∃ st, cx_recombine p1 p2 = Ok st
    ∧ length (c1_gen st) = length p1 ∧ length (c2_gen st) = length p1
    ∧ (∀ i, i < length p1 →
         (c1_gen st !! i = p1 !! i ∧ c2_gen st !! i = p2 !! i)
         ∨ (c1_gen st !! i = p2 !! i ∧ c2_gen st !! i = p1 !! i))
    ∧ (c1_gen st ≡ₚ p1) ∧ (c2_gen st ≡ₚ p2).
Proof.
  intros Hnd Hperm.
  destruct (cx_recombine_spec p1 p2 Hnd Hperm)
    as (st & Hrun & Hinv & Hpos & _).
  pose proof (cx_inv_shape _ _ _ Hinv) as Hs.
  exists st. split; [done|]. split; [apply Hs|]. split; [apply Hs|]. split.
  { intros i Hi. destruct (Hpos i Hi) as [k Hk].
    destruct (cx_entries _ _ _ Hs k i Hk) as (_ & _ & Hw).
    unfold cx_written in Hw. destruct (decide _); [by left|by right]. }
  split.
  - apply (cx_mix_Permutation p1 p2 _ (assigned st)).
    + done.
    + done.
    + apply Hs.
    + apply Hs.
    + intros i Hi. destruct (Hpos i Hi) as [k Hk]. exists k. split; [done|].
      destruct (cx_entries _ _ _ Hs k i Hk) as (_ & _ & Hw).
      unfold cx_written in Hw. by destruct (decide _); destruct Hw.
    + intros ki kj i j x Hki Hkj Hi Hj.
      eapply (assigned_label_unique p1 p2 st ki kj j Hs); [|done].
      eapply (cx_closed _ _ _ Hinv ki i j); [done|]. by exists x.
  - apply (cx_mix_Permutation p2 p1 _ (assigned st)).
    + by rewrite <-Hperm.
    + done.
    + rewrite <-Hperm. apply Hs.
    + apply Hs.
    + intros i Hi. rewrite <-Hperm in Hi. destruct (Hpos i Hi) as [k Hk].
      exists k. split; [done|].
      destruct (cx_entries _ _ _ Hs k i Hk) as (_ & _ & Hw).
      unfold cx_written in Hw. by destruct (decide _); destruct Hw.
    + intros ki kj i j x Hki Hkj Hi Hj.
      eapply (assigned_label_unique p1 p2 st ki kj i Hs); [done|].
      eapply (cx_closed _ _ _ Hinv kj j i); [done|]. by exists x.
Qed.

(** *** The cycles are determined *)

Section Determined.
Context (p1 p2 : list (option A)).
Hypothesis Hnd : NoDup p1.
Hypothesis Hperm : p1 ≡ₚ p2.

Lemma log_label_unique log (k k' i : nat) :
  NoDup log.*2 → (k, i) ∈ log → (k', i) ∈ log → k = k'.
Proof.
  intros Hndl [a Ha]%list_elem_of_lookup_1 [b Hb]%list_elem_of_lookup_1.
  assert (a = b) as ->; [|congruence].
  eapply (NoDup_lookup _ a b i); [done|..];
    by rewrite list_lookup_fmap; (rewrite Ha || rewrite Hb).
Qed.

(** Two walks from one position to [idx] that do not go through [idx] are
    one walk. *)
Lemma cx_walk_unique (idx i : nat) (c c' : list nat) :
  cx_walk p1 p2 i c idx → cx_walk p1 p2 i c' idx →
  idx ∉ c → idx ∉ c' → c = c'.
Proof.
  revert i c'. induction c as [|x c IH]; intros i c' Hw Hw' Hc Hc'.
  - destruct c' as [|x' c']; [done|].
    cbn [cx_walk] in Hw, Hw'. destruct Hw' as [-> _]. subst i.
    destruct Hc'. by left.
  - destruct c' as [|x' c'].
    + cbn [cx_walk] in Hw, Hw'. destruct Hw as [-> _]. subst i.
      destruct Hc. by left.
    + cbn [cx_walk] in Hw, Hw'.
      destruct Hw as (-> & j & Hj & Hw), Hw' as (-> & j' & Hj' & Hw').
      rewrite (jump_det p1 p2 Hnd Hperm i j' j Hj' Hj) in Hw'.
      f_equal. apply (IH j c' Hw Hw').
      * intros Hin. apply Hc. by right.
      * intros Hin. apply Hc'. by right.
Qed.

Lemma filter_number_eta (k : nat) log :
  filter (λ e : nat * nat, e.1 = k) log
  = (k,.) <$> (filter (λ e : nat * nat, e.1 = k) log).*2.
Proof.
  induction log as [|[k' i] log IH]; [done|].
  rewrite filter_cons. cbn [fst]. destruct (decide (k' = k)) as [->|]; [|done].
  cbn [fmap list_fmap snd]. f_equal. exact IH.
Qed.

(** In a record sorted by cycle number, the cycles up to [S k] are those
    up to [k], followed by the cycle number [S k]. *)
Lemma filter_number_S (k : nat) log :
  StronglySorted le log.*1 →
  filter (λ e : nat * nat, e.1 ≤ S k) log
  = filter (λ e : nat * nat, e.1 ≤ k) log
    ++ filter (λ e : nat * nat, e.1 = S k) log.
Proof.
  induction log as [|[k' i] log IH]; intros Hsort; [done|].
  cbn [fmap list_fmap fst] in Hsort.
  apply StronglySorted_inv in Hsort as [Hsort Hle].
  rewrite !filter_cons. cbn [fst]. rewrite (IH Hsort).
  destruct (decide (k' ≤ k)) as [Hk|Hk].
  { rewrite decide_True by lia. by rewrite decide_False by lia. }
  assert (filter (λ e : nat * nat, e.1 ≤ k) log = []) as ->.
  { clear IH. induction log as [|[k'' j] log IH']; [done|].
    cbn [fmap list_fmap fst] in Hle, Hsort.
    apply Forall_cons in Hle as [? Hle].
    apply StronglySorted_inv in Hsort as [Hsort _].
    rewrite filter_cons. cbn [fst]. rewrite decide_False by lia.
    by apply IH'. }
  by destruct (decide (k' ≤ S k)); destruct (decide (k' = S k)); try lia.
Qed.

Lemma filter_none {B : Type} (P : B → Prop) `{!∀ x, Decision (P x)}
    (l : list B) :
  (∀ x, x ∈ l → ¬ P x) → filter P l = [].
Proof.
  induction l as [|x l IH]; intros Hl; [done|].
  rewrite filter_cons_False by (apply Hl; by left).
  apply IH. intros y Hy. apply Hl. by right.
Qed.

Lemma filter_all {B : Type} (P : B → Prop) `{!∀ x, Decision (P x)}
    (l : list B) :
  (∀ x, x ∈ l → P x) → filter P l = l.
Proof.
  induction l as [|x l IH]; intros Hl; [done|].
  rewrite filter_cons_True by (apply Hl; by left).
  f_equal. apply IH. intros y Hy. apply Hl. by right.
Qed.

Lemma NoDup_filter_fmap {B C : Type} (f : B → C) (P : B → Prop)
    `{!∀ x, Decision (P x)} (l : list B) :
  NoDup (f <$> l) → NoDup (f <$> filter P l).
Proof.
  induction l as [|x l IH]; intros Hl; [done|].
  cbn [fmap list_fmap] in Hl. apply NoDup_cons in Hl as [Hx Hl].
  rewrite filter_cons. destruct (decide (P x)); [|by apply IH].
  cbn [fmap list_fmap]. apply NoDup_cons. split; [|by apply IH].
  intros (y & Hy & [_ Hin]%list_elem_of_filter)%list_elem_of_fmap.
  apply Hx. apply list_elem_of_fmap. by exists y.
Qed.

Lemma cx_cycle_positions_head st (k idx : nat) (c : list nat) :
  cx_cycle_positions st k = idx :: c → (k, idx) ∈ assigned st.
Proof.
  intros Hc. unfold cx_cycle_positions in Hc.
  assert ((k, idx) ∈ filter (λ e : nat * nat, e.1 = k) (assigned st))
    as [_ ?]%list_elem_of_filter; [|done].
  rewrite filter_number_eta, Hc. by left.
Qed.

(** The description [cx_cycles_found] leaves no choice: two records of
    assignments that meet it are one record. *)
Lemma cx_cycles_determined st st' :
  cx_cycles_found p1 p2 st → cx_cycles_found p1 p2 st' →
  assigned st = assigned st' ∧ cycle_num st = cycle_num st'.
Proof.
  assert (∀ st st' k,
    cx_cycles_found p1 p2 st → cx_cycles_found p1 p2 st' →
    (∀ k' i, k' < k → (k', i) ∈ assigned st ↔ (k', i) ∈ assigned st') →
    1 ≤ k ≤ cycle_num st →
    1 ≤ k ≤ cycle_num st'
    ∧ ∀ (idx : nat) (c : list nat) (idx' : nat) (c' : list nat),
        cx_cycle_positions st k = idx :: c →
        cx_cycle_positions st' k = idx' :: c' → idx ≤ idx') as Hstep.
  { intros st1 st2 k (Hpos & Hsort & Hnum & Hfound)
      (Hpos' & Hsort' & Hnum' & Hfound') Hearlier Hk.
    assert (NoDup (assigned st1).*2) as Hndl
      by (rewrite Hpos; apply NoDup_seq).
    assert (NoDup (assigned st2).*2) as Hndl'
      by (rewrite Hpos'; apply NoDup_seq).
    destruct (Hfound k Hk) as (idx0 & c0 & Hc0 & _ & _).
    pose proof (cx_cycle_positions_head st1 k) as Hhead.
    pose proof (cx_cycle_positions_head st2 k) as Hhead'.
    assert (1 ≤ k ≤ cycle_num st2) as Hk'.
    { pose proof (Hhead idx0 c0 Hc0) as Hin.
      assert (idx0 ∈ (assigned st2).*2) as ([k2 i2] & -> & Hin2)%list_elem_of_fmap.
      { rewrite Hpos', <-Hpos. by apply (list_elem_of_fmap_2 snd) in Hin. }
      cbn [snd] in Hin. assert (1 ≤ k2 ≤ cycle_num st2) as Hk2
        by (apply Hnum'; by exists i2).
      destruct (decide (k2 < k)) as [Hlt|]; [|lia].
      apply Hearlier in Hin2; [|done].
      pose proof (log_label_unique _ _ _ _ Hndl Hin Hin2). lia. }
    split; [done|]. intros idx c idx' c' Hc Hc'.
    destruct (decide (idx ≤ idx')) as [|Hgt]; [done|]. exfalso.
    destruct (Hfound k Hk) as (idx1 & c1 & Hc1 & _ & Hleast).
    rewrite Hc in Hc1. injection Hc1 as <- <-.
    destruct (Hleast idx') as (k' & Hlt & Hin); [lia|].
    apply Hearlier in Hin; [|done].
    pose proof (log_label_unique _ _ _ _ Hndl' Hin (Hhead' idx' c' Hc')). lia. }
  intros Hst Hst'.
  pose proof Hst as (Hpos & Hsort & Hnum & Hfound).
  pose proof Hst' as (Hpos' & Hsort' & Hnum' & Hfound').
  assert (NoDup (assigned st).*2) as Hndl by (rewrite Hpos; apply NoDup_seq).
  assert (NoDup (assigned st').*2) as Hndl'
    by (rewrite Hpos'; apply NoDup_seq).
  assert (∀ k, filter (λ e : nat * nat, e.1 ≤ k) (assigned st)
               = filter (λ e : nat * nat, e.1 ≤ k) (assigned st')) as Hupto.
  { intros k. induction k as [|k IH].
    - rewrite !(filter_none (λ e : nat * nat, e.1 ≤ 0)); [done|..].
      + intros [k i] Hin. cbn [fst].
        assert (1 ≤ k ≤ cycle_num st') by (apply Hnum'; by exists i). lia.
      + intros [k i] Hin. cbn [fst].
        assert (1 ≤ k ≤ cycle_num st) by (apply Hnum; by exists i). lia.
    - rewrite !filter_number_S by done. rewrite IH. f_equal.
      assert (∀ k' i, k' < S k →
                (k', i) ∈ assigned st ↔ (k', i) ∈ assigned st') as Hearlier.
      { intros k' i Hk'.
        trans ((k', i) ∈ filter (λ e : nat * nat, e.1 ≤ k) (assigned st)).
        { rewrite list_elem_of_filter. cbn [fst]. split; [|tauto].
          intros ?. split; [lia|done]. }
        rewrite IH, list_elem_of_filter. cbn [fst]. split; [tauto|].
        intros ?. split; [lia|done]. }
      assert (∀ k' i, k' < S k →
                (k', i) ∈ assigned st' ↔ (k', i) ∈ assigned st) as Hearlier'.
      { intros k' i Hk'. symmetry. by apply Hearlier. }
      destruct (decide (1 ≤ S k ≤ cycle_num st)) as [Hk|Hk].
      + destruct (Hstep st st' (S k) Hst Hst' Hearlier Hk) as [Hk' Hle].
        destruct (Hstep st' st (S k) Hst' Hst Hearlier' Hk') as [_ Hle'].
        destruct (Hfound (S k) Hk) as (idx & c & Hc & Hwalk & _).
        destruct (Hfound' (S k) Hk') as (idx' & c' & Hc' & Hwalk' & _).
        assert (idx = idx') as <-.
        { pose proof (Hle idx c idx' c' Hc Hc').
          pose proof (Hle' idx' c' idx c Hc' Hc). lia. }
        assert (NoDup (idx :: c)) as [Hidx _]%NoDup_cons.
        { rewrite <-Hc. by apply NoDup_filter_fmap. }
        assert (NoDup (idx :: c')) as [Hidx' _]%NoDup_cons.
        { rewrite <-Hc'. by apply NoDup_filter_fmap. }
        cbn [cx_walk] in Hwalk, Hwalk'.
        destruct Hwalk as (_ & j & Hj & Hwalk).
        destruct Hwalk' as (_ & j' & Hj' & Hwalk').
        rewrite (jump_det p1 p2 Hnd Hperm idx j' j Hj' Hj) in Hwalk'.
        rewrite (cx_walk_unique idx j c c' Hwalk Hwalk' Hidx Hidx') in Hc.
        unfold cx_cycle_positions in Hc, Hc'.
        rewrite (filter_number_eta (S k) (assigned st)), Hc.
        by rewrite (filter_number_eta (S k) (assigned st')), Hc'.
      + destruct (decide (1 ≤ S k ≤ cycle_num st')) as [Hk'|Hk'].
        { by destruct (Hstep st' st (S k) Hst' Hst Hearlier' Hk'). }
        rewrite !(filter_none (λ e : nat * nat, e.1 = S k)); [done|..].
        * intros [k0 i] Hin. cbn [fst]. intros ->. apply Hk'.
          apply Hnum'. by exists i.
        * intros [k0 i] Hin. cbn [fst]. intros ->. apply Hk.
          apply Hnum. by exists i. }
  assert (assigned st = assigned st') as Hlog.
  { rewrite <-(filter_all (λ e : nat * nat,
                 e.1 ≤ cycle_num st `max` cycle_num st') (assigned st)).
    - rewrite Hupto. apply filter_all. intros [k i] Hin. cbn [fst].
      assert (1 ≤ k ≤ cycle_num st') by (apply Hnum'; by exists i). lia.
    - intros [k i] Hin. cbn [fst].
      assert (1 ≤ k ≤ cycle_num st) by (apply Hnum; by exists i). lia. }
  split; [done|].
  destruct (decide (1 ≤ cycle_num st)) as [Hn|Hn].
  - assert (1 ≤ cycle_num st ≤ cycle_num st') as Ha.
    { apply Hnum'. rewrite <-Hlog. apply Hnum. lia. }
    assert (1 ≤ cycle_num st' ≤ cycle_num st) as Hb.
    { apply Hnum. rewrite Hlog. apply Hnum'. lia. }
    lia.
  - destruct (decide (1 ≤ cycle_num st')) as [Hn'|Hn']; [|lia].
    assert (1 ≤ cycle_num st' ≤ cycle_num st) as Hb.
    { apply Hnum. rewrite Hlog. apply Hnum'. lia. }
    lia.
Qed.

(** So are the children, by the rule of the odd and the even cycles. *)
Lemma cx_children_determined st st' :
  cx_cycles_found p1 p2 st → cx_cycles_found p1 p2 st' →
  (∀ k i, (k, i) ∈ assigned st → cx_written p1 p2 st k i) →
  (∀ k i, (k, i) ∈ assigned st' → cx_written p1 p2 st' k i) →
  length (c1_gen st) = length p1 → length (c2_gen st) = length p1 →
  length (c1_gen st') = length p1 → length (c2_gen st') = length p1 →
  c1_gen st = c1_gen st' ∧ c2_gen st = c2_gen st'.
Proof.
  intros Hst Hst' Hw Hw' Hl1 Hl2 Hl1' Hl2'.
  destruct (cx_cycles_determined st st' Hst Hst') as [Hlog _].
  destruct Hst as (Hpos & _).
  assert (∀ i, c1_gen st !! i = c1_gen st' !! i
               ∧ c2_gen st !! i = c2_gen st' !! i) as Hat.
  { intros i. destruct (decide (i < length p1)) as [Hi|Hi].
    - assert (i ∈ (assigned st).*2) as ([k i'] & -> & Hin)%list_elem_of_fmap.
      { rewrite Hpos. apply elem_of_seq. lia. }
      cbn [snd]. pose proof (Hw k i' Hin) as Hk.
      rewrite Hlog in Hin. pose proof (Hw' k i' Hin) as Hk'.
      unfold cx_written in Hk, Hk'.
      destruct (decide (k `mod` 2 = 1)); destruct Hk as [-> ->];
        by destruct Hk' as [-> ->].
    - by rewrite !lookup_ge_None_2 by lia. }
  split; apply list_eq; intros i; apply Hat.
Qed.

(** The state that the crossover step returns is the one that this
    description leaves: any [st'] that meets it has the record, the number
    of cycles and the children of the code. *)
Corollary cx_recombine_determined st' :
  cx_cycles_found p1 p2 st' →
  (∀ k i, (k, i) ∈ assigned st' → cx_written p1 p2 st' k i) →
  length (c1_gen st') = length p1 → length (c2_gen st') = length p1 →
  ∃ st, cx_recombine p1 p2 = Ok st
    ∧ assigned st = assigned st' ∧ cycle_num st = cycle_num st'
    ∧ c1_gen st = c1_gen st' ∧ c2_gen st = c2_gen st'.
Proof.
  intros Hst' Hw' Hl1' Hl2'.
  destruct (cx_recombine_spec p1 p2 Hnd Hperm)
    as (st & Hrun & Hinv & Hpos & Hfound).
  pose proof (cx_inv_shape _ _ _ Hinv) as Hs.
  assert (cx_cycles_found p1 p2 st) as Hst.
  { split; [|split; [apply Hs|split; [|done]]].
    - apply NoDup_Permutation; [apply Hs|apply NoDup_seq|].
      intros i. rewrite elem_of_seq. split.
      + intros [k Hk]%position_assigned.
        destruct (cx_entries _ _ _ Hs k i Hk) as [? _]. lia.
      + intros ?. destruct (Hpos i) as [k Hk]; [lia|].
        by eapply assigned_position.
    - intros k. split.
      + intros Hk. destruct (Hfound k Hk) as (idx & c & Hc & _).
        exists idx. by eapply cx_cycle_positions_head.
      + intros [i Hi].
        by destruct (cx_entries _ _ _ Hs k i Hi) as (_ & ? & _). }
  exists st. split; [done|].
  destruct (cx_cycles_determined st st' Hst Hst') as [Hlog Hnum].
  split; [done|]. split; [done|].
  apply cx_children_determined; try done.
  - intros k i Hi. by destruct (cx_entries _ _ _ Hs k i Hi) as (_ & _ & ?).
  - apply Hs.
  - apply Hs.
Qed.
End Determined.

(** C3.  On two parents that are permutations of one gene set, the
    crossover step of [CycleCrossover.__call__] returns; every position is
    assigned exactly once, hence in exactly one cycle; the cycles are
    numbered 1, 2, ..., [cycle_num] in the order in which they are found:
    the positions of the cycle number [k] are one closed chain, the walk
    that starts at the first position [idx] that no cycle of a smaller
    number holds, goes from each position to "the position of parent 2
    that holds the gene of parent 1 at this position" and ends when this
    jump comes back to [idx]; so each cycle is closed under the jump; at
    the positions of an odd cycle child 1 has the gene of parent 1 and
    child 2 that of parent 2, at those of an even cycle the other way
    round; so at every position the two children hold the two parents'
    genes, as they are or swapped, and each child is a permutation of the
    parents' genes. *)
Theorem cycle_crossover_cycles (p1 p2 : list (option A)) :
  NoDup p1 → p1 ≡ₚ p2 →
  ∃ st, cx_recombine p1 p2 = Ok st
    ∧ (assigned st).*2 ≡ₚ seq 0 (length p1)
    ∧ StronglySorted le (assigned st).*1
    ∧ (∀ k, 1 ≤ k ≤ cycle_num st ↔ ∃ i, (k, i) ∈ assigned st)
    ∧ (∀ k, 1 ≤ k ≤ cycle_num st →
         ∃ (idx : nat) (c : list nat),
           cx_cycle_positions st k = idx :: c
           ∧ cx_walk p1 p2 idx (idx :: c) idx
           ∧ (∀ i, i < idx → ∃ k', k' < k ∧ (k', i) ∈ assigned st))
    ∧ (∀ k i j, (k, i) ∈ assigned st → jump p1 p2 i j →
         (k, j) ∈ assigned st)
    ∧ (∀ k i, (k, i) ∈ assigned st →
         if decide (k `mod` 2 = 1)
         then c1_gen st !! i = p1 !! i ∧ c2_gen st !! i = p2 !! i
         else c1_gen st !! i = p2 !! i ∧ c2_gen st !! i = p1 !! i)
    ∧ (∀ i, i < length p1 →
         (c1_gen st !! i = p1 !! i ∧ c2_gen st !! i = p2 !! i)
         ∨ (c1_gen st !! i = p2 !! i ∧ c2_gen st !! i = p1 !! i))
    ∧ (c1_gen st ≡ₚ p1) ∧ (c2_gen st ≡ₚ p1).
Proof.
  intros Hnd Hperm.
  destruct (cx_recombine_spec p1 p2 Hnd Hperm)
    as (st & Hrun & Hinv & Hpos & Hfound).
  destruct (cx_recombine_children p1 p2 Hnd Hperm)
    as (st' & Hrun' & _ & _ & Hpairs & Hc1 & Hc2).
  rewrite Hrun in Hrun'. injection Hrun' as <-.
  pose proof (cx_inv_shape _ _ _ Hinv) as Hs.
  exists st. split; [done|]. split; [|split; [apply Hs|]].
  { apply NoDup_Permutation; [apply Hs|apply NoDup_seq|].
    intros i. rewrite elem_of_seq. split.
    - intros [k Hk]%position_assigned.
      destruct (cx_entries _ _ _ Hs k i Hk) as [? _]. lia.
    - intros ?. destruct (Hpos i) as [k Hk]; [lia|].
      by eapply assigned_position. }
  split.
  { intros k. split.
    - intros Hk. destruct (Hfound k Hk) as (idx & c & Hc & _).
      exists idx. by eapply cx_cycle_positions_head.
    - intros [i Hi].
      by destruct (cx_entries _ _ _ Hs k i Hi) as (_ & ? & _). }
  split; [exact Hfound|].
  split; [apply Hinv|]. split.
  { intros k i Hi. by destruct (cx_entries _ _ _ Hs k i Hi) as (_ & _ & ?). }
  split; [done|]. split; [done|]. by rewrite Hperm.
Qed.
End CycleCrossoverFacts.

(** A run of C3, on the parents of the scenario of ordered crossover: two
    cycles, of the positions 0, 3, 7, 5, 4, 2 and of the positions 1, 6;
    the children take the positions 1 and 6 from the other parent. *)
Lemma cycle_crossover_cycles_witness :
  ∃ st, cx_recombine scenario_parent1 scenario_parent2 = Ok st
    ∧ assigned st
      = [(1, 0); (1, 3); (1, 7); (1, 5); (1, 4); (1, 2); (2, 1); (2, 6)]
    ∧ c1_gen st = Some <$> [1; 7; 3; 4; 5; 6; 2; 8]%Z
    ∧ c2_gen st = Some <$> [3; 2; 5; 1; 6; 8; 7; 4]%Z
    ∧ (c1_gen st ≡ₚ scenario_parent1) ∧ (c2_gen st ≡ₚ scenario_parent1).
Proof.
  destruct (cycle_crossover_cycles scenario_parent1 scenario_parent2)
    as (st & Hrun & _ & _ & _ & _ & _ & _ & _ & Hc1 & Hc2).
  - compute_done.
  - compute_done.
  - exists st. split; [exact Hrun|].
    assert (assigned st
            = [(1, 0); (1, 3); (1, 7); (1, 5); (1, 4); (1, 2); (2, 1); (2, 6)]
            ∧ c1_gen st = Some <$> [1; 7; 3; 4; 5; 6; 2; 8]%Z
            ∧ c2_gen st = Some <$> [3; 2; 5; 1; 6; 8; 7; 4]%Z)
      as (Hlog & Hg1 & Hg2).
    { symmetry in Hrun. vm_compute in Hrun. injection Hrun as ->.
      exact (conj eq_refl (conj eq_refl eq_refl)). }
    exact (conj Hlog (conj Hg1 (conj Hg2 (conj Hc1 Hc2)))).
Defined.

(** ** The two [__call__] on a pair of parents *)

Section CrossoverCallFacts.
Context {rng : Type} `{RandomSource rng} {A : Type} `{Countable A}.
Implicit Types (a b : Individual (list (option A))).

(** [OrderedCrossover.__call__] on two parents that are permutations of one
    gene set: the cut points it draws are distinct positions, ordered as
    [start < end_], and whether the pair recombines or not the two
    offspring are fresh individuals whose genotypes are permutations of
    the parents' genes. *)
Corollary OrderedCrossover_call_pair (rate_schedule : schedule) a b
    (current_generation : Z) (s : rng) :
  NoDup (genotype a) → genotype a ≡ₚ genotype b →
  ∃ c1 c2 s',
    OrderedCrossover_call rate_schedule [a; b] current_generation s
      = Ok ([Individual_init c1; Individual_init c2], s')
    ∧ (c1 ≡ₚ genotype a) ∧ (c2 ≡ₚ genotype b).
Proof.
  intros Hnd Hperm.
  unfold OrderedCrossover_call. cbn [OrderedCrossover_pairs].
  rewrite decide_False by (by rewrite Hperm; intros []).
  destruct (decide (length (genotype a) < 2)) as [Hshort|Hlong].
  { by eexists _, _, _. }
  destruct (py_random_Ok s) as (u & s1 & Hu).
  rewrite M_bind_assoc, (M_bind_Ok _ _ _ _ _ Hu).
  destruct (Qlt_b _ u); [by eexists _, _, _|].
  destruct (sample_two_Ok (length (genotype a)) s1)
    as (x & y & s2 & Hs & Hxy & Hx & Hy); [lia|].
  destruct (create_child_spec (genotype a) (genotype b)
              (x `min` y) (x `max` y) Hnd Hperm)
    as (c1 & Hc1 & _ & _ & _ & Hp1); [lia|].
  destruct (create_child_spec (genotype b) (genotype a)
              (x `min` y) (x `max` y))
    as (c2 & Hc2 & _ & _ & _ & Hp2);
    [by rewrite <-Hperm|done|rewrite <-Hperm; lia|].
  exists c1, c2, s2. split; [|done].
  rewrite M_bind_assoc, (M_bind_Ok _ _ _ _ _ Hs). cbn [fst snd].
  rewrite M_bind_assoc, (M_bind_lift_Ok _ _ _ _ Hc1).
  by rewrite M_bind_assoc, (M_bind_lift_Ok _ _ _ _ Hc2).
Qed.

(** [CycleCrossover.__call__] on two such parents; when the number drawn
    is not above the rate, the offspring are the children of the crossover
    step. *)
Corollary CycleCrossover_call_pair (rate_schedule : schedule) a b
    (current_generation : Z) (s : rng) :
  NoDup (genotype a) → genotype a ≡ₚ genotype b →
  ∃ c1 c2 s',
    CycleCrossover_call rate_schedule [a; b] current_generation s
      = Ok ([Individual_init c1; Individual_init c2], s')
    ∧ (c1 ≡ₚ genotype a) ∧ (c2 ≡ₚ genotype b)
    ∧ (Qlt_b (resolve rate_schedule current_generation) (random_random s).1
         = false →
       ∃ st, cx_recombine (genotype a) (genotype b) = Ok st
         ∧ c1 = c1_gen st ∧ c2 = c2_gen st).
Proof.
  intros Hnd Hperm.
  unfold CycleCrossover_call. cbn [CycleCrossover_pairs].
  rewrite decide_False by (by rewrite Hperm; intros []).
  assert (py_random s = Ok ((random_random s).1, (random_random s).2))
    as Hu by (unfold py_random; by destruct (random_random s)).
  rewrite (M_bind_Ok _ _ _ _ _ Hu).
  destruct (Qlt_b _ _) eqn:Hdraw.
  { exists (genotype a), (genotype b), (random_random s).2.
    split; [done|]. split; [done|]. split; [done|]. intros ?. discriminate. }
  destruct (cx_recombine_children (genotype a) (genotype b) Hnd Hperm)
    as (st & Hrun & _ & _ & _ & Hp1 & Hp2).
  exists (c1_gen st), (c2_gen st), (random_random s).2.
  split; [|split; [done|split; [done|]]].
  - by rewrite M_bind_assoc, (M_bind_lift_Ok _ _ _ _ Hrun).
  - intros _. by exists st.
Qed.
End CrossoverCallFacts.

(** A run of the mutations on the counter random source. *)
Lemma mutation_preserves_genes_witness :
  ∃ offspring1 offspring2 s1 s2,
    SwapMutation_call (Fixed 1)
        [Individual_init scenario_parent1; Individual_init [Some 1%Z]] 1 0
      = Ok (offspring1, s1)
    ∧ Forall2 reordered
        [Individual_init scenario_parent1; Individual_init [Some 1%Z]]
        offspring1
    ∧ InversionMutation_call (Fixed 1)
        [Individual_init scenario_parent1; Individual_init [Some 1%Z]] 1 0
      = Ok (offspring2, s2)
    ∧ Forall2 reordered
        [Individual_init scenario_parent1; Individual_init [Some 1%Z]]
        offspring2.
Proof.
  destruct (mutation_preserves_genes (Fixed 1)
              [Individual_init scenario_parent1; Individual_init [Some 1%Z]]
              1 0%nat)
    as [(o1 & s1 & Hs & Hr1) (o2 & s2 & Hi & Hr2)].
  by exists o1, o2, s1, s2.
Defined.

(* ===================================================================== *)
(** * Further properties *)
(* ===================================================================== *)

(** ** [_evaluate_population] *)

Section EvaluateFacts.
Context {rng G stat : Type}.
Implicit Types (self : EvolutionaryAlgorithm rng G stat).
Implicit Types (ind : Individual G) (l : list (Individual G)).

Lemma evaluate_loop_lazy (f : G → Z) l (best : option (Individual G)) :
  tracker_ok best →
  ∃ best', evaluate_loop f l best = Ok (evaluate_one f <$> l, best')
    ∧ tracker_ok best' ∧ tracker_le best best'
    ∧ (∀ ind, ind ∈ l → fitness ind = None →
         ∃ b', best' = Some b' ∧ (f (genotype ind) ≤ fitness_key b')%Z)
    ∧ (best' = best
       ∨ ∃ ind, ind ∈ l ∧ fitness ind = None
           ∧ best' = Some (evaluate_one f ind))
    ∧ (Forall evaluated l → best' = best).
Proof.
  revert best. induction l as [|ind l IH]; intros best Hok.
  { exists best. split; [done|]. split; [done|].
    split; [by apply tracker_le_refl|]. split; [by intros ? ?%elem_of_nil|].
    split; [by left|done]. }
  cbn [evaluate_loop fmap list_fmap]. unfold evaluate_one at 1.
  destruct (fitness ind) as [fi|] eqn:Hfi.
  - destruct (IH best Hok) as (best' & Hrun & Hok' & Hle & Hdom & Hfrom & Hsame).
    exists best'. rewrite Hrun. cbn [mbind result_bind fst snd].
    split; [done|]. split; [done|]. split; [done|]. split; [|split].
    + intros x [->|Hx]%elem_of_cons Hnone; [congruence|by apply Hdom].
    + destruct Hfrom as [?|(x & Hx & Hnone & ?)]; [by left|right].
      exists x. split; [by right|done].
    + intros [_ Hl]%Forall_cons. by apply Hsame.
  - set (ind1 := set_fitness ind (f (genotype ind))).
    assert (evaluate_one f ind = ind1) as Hone
      by (unfold evaluate_one; by rewrite Hfi).
    assert (∃ better : bool,
              match best with
              | None => Ok true
              | Some b => py_gt (fitness ind1) (fitness b)
              end = Ok better
              ∧ tracker_ok (if better then Some ind1 else best)
              ∧ tracker_le best (if better then Some ind1 else best)
              ∧ ∃ b1, (if better then Some ind1 else best) = Some b1
                  ∧ (f (genotype ind) ≤ fitness_key b1)%Z)
      as (better & -> & Hok1 & Hle1 & b1 & Hb1 & Hdom1).
    { destruct best as [b|].
      - destruct (Hok b eq_refl) as [fb Hfb]. rewrite Hfb. simpl.
        eexists. split; [done|]. case_bool_decide as Hlt.
        + split; [by intros ? [= <-]; eexists|]. split.
          * intros ? [= <-]. exists ind1. split; [done|].
            split; [|by eexists].
            unfold fitter_eq, fitness_key. rewrite Hfb. simpl. lia.
          * exists ind1. split; [done|]. unfold fitness_key. simpl. lia.
        + split; [done|]. split; [by apply tracker_le_refl|].
          exists b. split; [done|]. unfold fitness_key. rewrite Hfb. simpl. lia.
      - exists true. split; [done|]. split; [by intros ? [= <-]; eexists|].
        split; [by intros ??|]. exists ind1. split; [done|].
        unfold fitness_key. simpl. lia. }
    cbn [mbind result_bind].
    destruct (IH _ Hok1) as (best' & Hrun & Hok' & Hle & Hdom & Hfrom & Hsame).
    exists best'. rewrite Hrun. cbn [mbind result_bind fst snd].
    split; [done|]. split; [done|].
    split; [by eapply tracker_le_trans|]. split; [|split].
    + intros x [->|Hx]%elem_of_cons Hnone; [|by apply Hdom].
      destruct (Hle b1 Hb1) as (b' & Hb' & Hfit & _).
      exists b'. split; [done|]. unfold fitter_eq in Hfit. lia.
    + destruct Hfrom as [->|(x & Hx & Hnone & ->)].
      * destruct better; [right|by left].
        exists ind. rewrite Hone. split; [by left|done].
      * right. exists x. split; [by right|done].
    + intros [[? Hev] _]%Forall_cons. congruence.
Qed.

(** X1.  [_evaluate_population] never raises on an engine whose tracker is
    unset or evaluated.  It leaves every evaluated individual of its list
    as it is and gives each of the others the fitness of its genotype; of
    the engine it changes the tracker only.  The new tracker is at least as
    fit as the old one and as every individual evaluated by the call, and
    it is the old tracker or one of the individuals the call evaluated; a
    list of evaluated individuals leaves it as it was. *)
Theorem evaluate_population_lazy self l :
  tracker_ok (best_individual self) →
  ∃ best',
    _evaluate_population self l
      = Ok (set_best_individual self best',
            evaluate_one (evaluate_genotype self) <$> l)
    ∧ tracker_ok best' ∧ tracker_le (best_individual self) best'
    ∧ (∀ ind, ind ∈ l → fitness ind = None →
         ∃ b', best' = Some b'
           ∧ (evaluate_genotype self (genotype ind) ≤ fitness_key b')%Z)
    ∧ (best' = best_individual self
       ∨ ∃ ind, ind ∈ l ∧ fitness ind = None
           ∧ best' = Some (evaluate_one (evaluate_genotype self) ind))
    ∧ (Forall evaluated l → best' = best_individual self).
Proof.
  intros Hok.
  destruct (evaluate_loop_lazy (evaluate_genotype self) l _ Hok)
    as (best' & Hrun & Hrest).
  exists best'. split; [|done].
  unfold _evaluate_population. by rewrite Hrun.
Qed.
End EvaluateFacts.


Lemma evaluate_population_lazy_witness :
  tracker_ok (best_individual ex_started)
  ∧ ∃ best',
      _evaluate_population ex_started
          [Individual_init [Some 7%Z]; cand 9 0; Individual_init [Some 2%Z]]
        = Ok (set_best_individual ex_started best',
              evaluate_one ex_fitness
                <$> [Individual_init [Some 7%Z]; cand 9 0;
                     Individual_init [Some 2%Z]])
      ∧ best' = Some (set_fitness (Individual_init [Some 7%Z]) 7).
Proof.
  assert (tracker_ok (best_individual ex_started)) as Hok.
  { intros b Hb. injection Hb as <-. by eexists. }
  split; [exact Hok|].
  destruct (evaluate_population_lazy ex_started
              [Individual_init [Some 7%Z]; cand 9 0;
               Individual_init [Some 2%Z]] Hok)
    as (best' & Hrun & _).
  exists best'. split; [exact Hrun|].
  vm_compute in Hrun. by injection Hrun as <-.
Defined.

(** ** [max] by fitness *)

Section MaxFacts.
Context {G : Type}.
Implicit Types (ind : Individual G) (l : list (Individual G)).

Lemma py_max_from_inv (best : Individual G) l winner :
  evaluated best →
  py_max_from best l = Ok winner →
  Forall evaluated l ∧ evaluated winner ∧ winner ∈ best :: l
  ∧ (∀ x, x ∈ best :: l → fitter_eq winner x).
Proof.
  revert best. induction l as [|x l IH]; intros best Hb.
  { intros [= <-]. split; [done|]. split; [done|]. split; [by left|].
    intros x ->%list_elem_of_singleton. unfold fitter_eq. lia. }
  cbn [py_max_from]. destruct Hb as [fb Hfb]. rewrite Hfb.
  destruct (fitness x) as [fx|] eqn:Hfx; [|done].
  cbn [py_gt mbind result_bind]. intros Hrun.
  apply IH in Hrun as (Hl & Hw & Hin & Hmax);
    [|case_bool_decide; by eexists].
  split; [constructor; [by eexists|done]|]. split; [done|].
  assert (fitter_eq (if bool_decide (fb < fx)%Z then x else best) best
          ∧ fitter_eq (if bool_decide (fb < fx)%Z then x else best) x)
    as [Hgeb Hgex].
  { unfold fitter_eq, fitness_key. case_bool_decide; rewrite ?Hfb, ?Hfx;
      simpl; lia. }
  pose proof (Hmax _ ltac:(by left)) as Hcur.
  split.
  - apply elem_of_cons in Hin as [->|Hin].
    + case_bool_decide; [right; by left|by left].
    + right. by right.
  - unfold fitter_eq in *.
    intros y [->|[->|Hy]%elem_of_cons]%elem_of_cons; [lia|lia|].
    apply Hmax. by right.
Qed.

(** [max(l, key=...)] returns only when [l] has one element or all of its
    elements are evaluated, and what it returns is a fittest element. *)
Lemma py_max_by_fitness_inv l winner :
  py_max_by_fitness l = Ok winner →
  winner ∈ l
  ∧ ((2 ≤ length l ∨ evaluated winner) →
     Forall evaluated l ∧ ∀ x, x ∈ l → fitter_eq winner x).
Proof.
  destruct l as [|x l]; [done|]. cbn [py_max_by_fitness].
  destruct l as [|y l].
  { intros [= <-]. split; [by left|]. intros [Hlen|Hev]; [simpl in Hlen; lia|].
    split; [by constructor|].
    intros z ->%list_elem_of_singleton. unfold fitter_eq. lia. }
  intros Hrun.
  assert (evaluated x) as Hx.
  { cbn [py_max_from] in Hrun. destruct (fitness y); [|done].
    destruct (fitness x) eqn:Hfx; [by eexists|done]. }
  apply (py_max_from_inv _ _ _ Hx) in Hrun as (Hl & Hw & Hin & Hmax).
  split; [done|]. intros _. split; [by constructor|done].
Qed.
End MaxFacts.


(** ** The statistics step and one generation, for any strategies *)

(** Reading a field of an engine that was just written. *)
Ltac engine_simpl :=
  cbn [fst snd app call_logger set_population set_best_individual
       set_current_generation set_history evaluate_genotype create_genotype
       select_parents reproduce select_survivors population_size population
       current_generation best_individual logger history].
Tactic Notation "engine_simpl" "in" hyp(H) :=
  cbn [fst snd app call_logger set_population set_best_individual
       set_current_generation set_history evaluate_genotype create_genotype
       select_parents reproduce select_survivors population_size population
       current_generation best_individual logger history] in H.

Section RunFacts.
Context {rng G stat : Type} (np_mean np_std : list Z → stat).
Implicit Types (self : EvolutionaryAlgorithm rng G stat).
Implicit Types (ind : Individual G) (l : list (Individual G)).

Lemma omap_fitness_nil l :
  omap fitness l = [] → Forall (λ ind, fitness ind = None) l.
Proof.
  induction l as [|x l IH]; [done|]. cbn.
  destruct (fitness x) eqn:Hx; [done|]. intros Hl. constructor; auto.
Qed.

(** The statistics step either does nothing, on a population without any
    fitness, or records the statistics of a population that is evaluated
    throughout and tells the logger of a fittest individual. *)
Lemma update_history_inv self (gen : Z) self' :
  _update_history_and_log np_mean np_std self gen = Ok self' →
  (self' = self ∧ Forall (λ ind, fitness ind = None) (population self))
  ∨ (population self ≠ [] ∧ Forall evaluated (population self)
     ∧ ∃ b, b ∈ population self
         ∧ (∀ x, x ∈ population self → fitter_eq b x)
         ∧ fitness b = Some (np_max (fitness_key <$> population self))
         ∧ let h := history_record np_mean np_std (history self) gen
                      (population self) in
           self' = call_logger (set_history self h) (log_generation gen h b)).
Proof.
  unfold _update_history_and_log.
  destruct (population self) as [|x l] eqn:Hp; [intros [= <-]; by left|].
  destruct (omap fitness (x :: l)) as [|y fs] eqn:Hfs.
  { intros [= <-]. left. split; [done|]. by apply omap_fitness_nil. }
  cbn zeta. cbn [population set_history history]. rewrite Hp.
  destruct (py_max_by_fitness (x :: l)) as [w|] eqn:Hmax; [|done].
  cbn [mbind result_bind]. intros [= <-]. right. split; [done|].
  apply py_max_by_fitness_inv in Hmax as [Hin Hall].
  destruct Hall as [Hev Hfit].
  { destruct l as [|z l]; [|left; simpl; lia]. right.
    apply list_elem_of_singleton in Hin as ->.
    cbn in Hfs. destruct (fitness x) eqn:Hx; [by eexists|done]. }
  assert (y :: fs = fitness_key <$> x :: l) as Hkeys
    by (by rewrite <-Hfs, omap_fitness_evaluated).
  split; [done|]. exists w. split; [done|]. split; [done|].
  assert (fitness w = Some (np_max (fitness_key <$> x :: l))) as Hw.
  { destruct (proj1 (Forall_forall _ _) Hev w Hin) as [fw Hfw].
    rewrite Hfw. f_equal. rewrite <-Hkeys.
    destruct (np_max_cons_le y fs) as [Hle Hmem].
    rewrite Hkeys in Hle, Hmem |- *.
    apply list_elem_of_fmap in Hmem as (z & Hz & Hzin).
    assert (fitness_key w = fw) as Hkw
      by (unfold fitness_key; by rewrite Hfw).
    rewrite <-Hkw. apply Z.le_antisymm.
    - apply Hle. by apply list_elem_of_fmap_2.
    - rewrite Hz. by apply Hfit. }
  split; [done|]. cbn zeta. unfold history_record. by rewrite <-Hkeys.
Qed.

(** One pass of the loop of [run] returns only when its four strategies
    and its statistics step return; the offspring are evaluated lazily and
    the population is aged before the survivors are selected. *)
Lemma run_generation_inv self (gen : Z) s self' s' :
  tracker_ok (best_individual self) →
  run_generation np_mean np_std self gen s = Ok (self', s') →
  ∃ parents offspring best1 survivors s1 s2,
    select_parents self (population self) s = Ok (parents, s1)
    ∧ reproduce self parents gen s1 = Ok (offspring, s2)
    ∧ tracker_ok best1 ∧ tracker_le (best_individual self) best1
    ∧ (best1 = best_individual self
       ∨ ∃ ind, ind ∈ offspring ∧ fitness ind = None
           ∧ best1 = Some (evaluate_one (evaluate_genotype self) ind))
    ∧ (∀ ind, ind ∈ offspring → fitness ind = None →
         ∃ b', best1 = Some b'
           ∧ (evaluate_genotype self (genotype ind) ≤ fitness_key b')%Z)
    ∧ select_survivors self (aged <$> population self)
        (evaluate_one (evaluate_genotype self) <$> offspring) s2
      = Ok (survivors, s')
    ∧ _update_history_and_log np_mean np_std
        (set_population
           (set_best_individual (set_current_generation self gen) best1)
           survivors) gen
      = Ok self'.
Proof.
  intros Hok Hrun. unfold run_generation in Hrun. cbv zeta in Hrun.
  apply M_bind_inv in Hrun as (parents & s1 & Hsel & Hrun).
  apply M_bind_inv in Hrun as (offspring & s2 & Hrep & Hrun).
  destruct (evaluate_loop_lazy (evaluate_genotype self) offspring _ Hok)
    as (best1 & Heval & Hok1 & Hle1 & Hdom & Hfrom & _).
  unfold _evaluate_population in Hrun.
  cbn [set_current_generation evaluate_genotype best_individual] in Hrun.
  rewrite Heval in Hrun. cbn [mbind result_bind fst snd] in Hrun.
  rewrite M_bind_lift_Ok with (v := (set_best_individual
    (set_current_generation self gen) best1,
    evaluate_one (evaluate_genotype self) <$> offspring)) in Hrun by done.
  cbn [fst snd] in Hrun.
  apply M_bind_inv in Hrun as (survivors & s4 & Hsurv & Hrun).
  apply lift_inv in Hrun as [Hrun ->].
  exists parents, offspring, best1, survivors, s1, s2.
  repeat (split; [done|]). done.
Qed.

Lemma create_genotypes_length (k : nat) (create : M rng G) s gs s' :
  create_genotypes k create s = Ok (gs, s') → length gs = k.
Proof.
  revert s gs s'. induction k as [|k IH]; intros s gs s'.
  { by intros [= <- <-]. }
  cbn [create_genotypes]. intros Hrun.
  apply M_bind_inv in Hrun as (g & s1 & _ & Hrun).
  apply M_bind_inv in Hrun as (l & s2 & Hl & [= <- <-]).
  simpl. f_equal. by eapply IH.
Qed.

Lemma update_history_evaluated self (gen : Z) self' :
  population self ≠ [] → Forall evaluated (population self) →
  _update_history_and_log np_mean np_std self gen = Ok self' →
  ∃ b, b ∈ population self
    ∧ fitness b = Some (np_max (fitness_key <$> population self))
    ∧ let h := history_record np_mean np_std (history self) gen
                 (population self) in
      self' = call_logger (set_history self h) (log_generation gen h b).
Proof.
  intros Hne Hev Hrun.
  apply update_history_inv in Hrun
    as [[_ Hnone]|(_ & _ & b & Hb & _ & Hfb & Hself)].
  - destruct (population self) as [|x l]; [done|].
    apply Forall_cons in Hnone as [Hx _].
    apply Forall_cons in Hev as [[? Hx'] _]. congruence.
  - by exists b.
Qed.

(** The start of [run] returns only for a positive population size; it
    then leaves a population of that size, evaluated throughout, a tracker
    that holds a fittest individual of it, and the first entry of the
    history, of which the logger has been told. *)
Lemma run_init_inv f create sp rp ss (n : Z) self0 s self1 s1 :
  EvolutionaryAlgorithm_init f create sp rp ss n = Ok self0 →
  run_init np_mean np_std self0 s = Ok (self1, s1) →
  ∃ gs b0 b,
    let pop := evaluate_one f <$> (Individual_init <$> gs) in
    let h := history_record np_mean np_std (mkHistory [] [] [] [] []) 0 pop in
    create_genotypes (Z.to_nat n) create s = Ok (gs, s1)
    ∧ (1 ≤ n)%Z ∧ length pop = Z.to_nat n
    ∧ Forall evaluated pop ∧ pop ≠ []
    ∧ b0 ∈ pop ∧ (∀ x, x ∈ pop → fitter_eq b0 x)
    ∧ fitness b = Some (np_max (fitness_key <$> pop))
    ∧ self1 = mkEngine f create sp rp ss n pop 0 (Some b0)
                [log_start n; log_generation 0 h b] h.
Proof.
  intros [= <-] Hrun. unfold run_init in Hrun. cbv zeta in Hrun.
  engine_simpl in Hrun.
  apply M_bind_inv in Hrun as (gs & s2 & Hgs & Hrun).
  assert (tracker_ok (None : option (Individual G))) as Hnone
    by (by intros ??).
  destruct (evaluate_loop_lazy f (Individual_init <$> gs) _ Hnone)
    as (best & Heval & Hok & _ & Hdom & Hfrom & _).
  unfold _evaluate_population in Hrun. engine_simpl in Hrun.
  rewrite Heval in Hrun. cbn [mbind result_bind fst snd] in Hrun.
  rewrite M_bind_lift_Ok with (v := (set_best_individual
    (mkEngine f create sp rp ss n (Individual_init <$> gs) 0 None
       [log_start n] (mkHistory [] [] [] [] [])) best,
    evaluate_one f <$> (Individual_init <$> gs))) in Hrun by done.
  engine_simpl in Hrun.
  destruct best as [b0|]; [|done].
  apply lift_inv in Hrun as [Hrun ->].
  set (pop := evaluate_one f <$> (Individual_init <$> gs)) in *.
  assert (Forall evaluated pop) as Hev.
  { unfold pop. rewrite <-list_fmap_compose. apply Forall_fmap.
    apply Forall_forall. intros g _. by eexists. }
  destruct Hfrom as [?|(ind & Hind & Hfi & [= ->])]; [done|].
  assert (pop ≠ []) as Hne.
  { unfold pop. destruct gs; [|done]. by apply elem_of_nil in Hind. }
  assert (length pop = Z.to_nat n) as Hlen.
  { unfold pop. rewrite !length_fmap. by eapply create_genotypes_length. }
  apply update_history_evaluated in Hrun as (b & Hb & Hfb & Hself);
    [|done..].
  cbn in Hb, Hfb, Hself. fold pop in Hb, Hfb, Hself.
  exists gs, (evaluate_one f ind), b. cbv zeta. fold pop.
  split; [done|]. split.
  { destruct pop; [done|]. simpl in Hlen. lia. }
  split; [done|]. split; [done|]. split; [done|].
  split; [by apply list_elem_of_fmap_2|]. split; [|done].
  intros x (y & -> & Hy)%list_elem_of_fmap.
  pose proof Hy as (g & -> & _)%list_elem_of_fmap.
  destruct (Hdom _ Hy eq_refl) as (b' & [= <-] & Hle). done.
Qed.

(** *** The history and the logger *)

Lemma logger_follows_record (calls : list (logger_call G stat))
    (h : History stat) (gen : Z) l b :
  history_lengths h → logger_follows calls h →
  fitness b = Some (np_max (fitness_key <$> l)) →
  let h' := history_record np_mean np_std h gen l in
  history_lengths h'
  ∧ logger_follows (calls ++ [log_generation gen h' b]) h'.
Proof.
  intros (Hb & Hm & Hs & Hw) [Hlen Hcalls] Hfb h'. split.
  { unfold history_lengths, h', history_record. cbn.
    rewrite !length_app. cbn. lia. }
  split.
  { unfold h', history_record. cbn. rewrite !length_app. cbn. lia. }
  intros i c Hi. apply lookup_app_Some in Hi as [Hi|[Hge Hi]].
  - destruct (Hcalls i c Hi) as (gen' & b' & Hgen & -> & Hfit).
    pose proof (lookup_lt_Some _ _ _ Hi) as Hlt.
    exists gen', b'. unfold h', history_record. cbn.
    split; [by apply lookup_app_l_Some|]. split.
    + f_equal. unfold history_take. cbn.
      rewrite !take_app_le by lia. done.
    + rewrite Hfit. symmetry. apply lookup_app_l. lia.
  - apply list_lookup_singleton_Some in Hi as [Hi <-].
    assert (i = length calls) as -> by lia.
    exists gen, b. unfold h', history_record. cbn. split.
    { rewrite Hlen. apply list_lookup_middle. done. }
    split.
    + f_equal. unfold history_take. cbn.
      rewrite !take_ge by (rewrite length_app; cbn; lia). done.
    + rewrite Hfb. symmetry. rewrite <-Hb in Hlen. rewrite Hlen.
      apply list_lookup_middle. done.
Qed.

Lemma update_history_shape self (n gen : Z) (done : list Z) self' :
  run_shape n done self →
  _update_history_and_log np_mean np_std self gen = Ok self' →
  run_shape n (done ++ [gen]) self'.
Proof.
  intros (Hbest & Hlens & (gens & Hgens & Hsub) & calls & Hlog & Hfol) Hrun.
  apply update_history_inv in Hrun
    as [[-> _]|(_ & _ & b & _ & _ & Hfb & ->)].
  { split; [done|]. split; [done|]. split; [|by exists calls].
    exists gens. split; [done|]. by apply sublist_inserts_r. }
  destruct (logger_follows_record calls (history self) gen (population self)
              b Hlens Hfol Hfb) as [Hlens' Hfol'].
  unfold run_shape. engine_simpl. split; [done|]. split; [done|]. split.
  - exists (gens ++ [gen]). cbn. rewrite Hgens. split; [done|].
    by apply sublist_app.
  - exists (calls ++ [log_generation gen
      (history_record np_mean np_std (history self) gen (population self))
      b]).
    rewrite Hlog. done.
Qed.

Lemma run_generation_shape self (n gen : Z) (done : list Z) s self' s' :
  run_shape n done self →
  run_generation np_mean np_std self gen s = Ok (self', s') →
  run_shape n (done ++ [gen]) self'.
Proof.
  intros Hshape Hrun.
  pose proof Hshape as ((b & Hb & Hev) & Hlens & Hgens & Hcalls).
  assert (tracker_ok (best_individual self)) as Hok.
  { intros b' Hb'. rewrite Hb in Hb'. by injection Hb' as <-. }
  apply (run_generation_inv _ _ _ _ _ Hok) in Hrun
    as (parents & offspring & best1 & survivors & s1 & s2 & _ & _ & Hok1
        & Hle1 & _ & _ & _ & Hrun).
  eapply update_history_shape; [|exact Hrun].
  split; [|done].
  destruct (Hle1 b Hb) as (b1 & -> & _ & Hev1). by exists b1.
Qed.

Lemma run_generations_shape (gens : list Z) self (n : Z) (done : list Z)
    s self' s' :
  run_shape n done self →
  run_generations np_mean np_std self gens s = Ok (self', s') →
  run_shape n (done ++ gens) self'.
Proof.
  revert self done s. induction gens as [|gen gens IH]; intros self done s.
  { intros Hshape [= <- <-]. by rewrite app_nil_r. }
  intros Hshape Hrun. cbn [run_generations] in Hrun.
  apply M_bind_inv in Hrun as (self1 & s1 & Hstep & Hrun).
  replace (done ++ gen :: gens) with ((done ++ [gen]) ++ gens)
    by (by rewrite <-app_assoc).
  eapply IH; [|exact Hrun]. by eapply run_generation_shape.
Qed.

Lemma run_init_shape f create sp rp ss (n : Z) self0 s self1 s1 :
  EvolutionaryAlgorithm_init f create sp rp ss n = Ok self0 →
  run_init np_mean np_std self0 s = Ok (self1, s1) →
  run_shape n [] self1.
Proof.
  intros Hinit Hrun.
  destruct (run_init_inv _ _ _ _ _ _ _ _ _ _ Hinit Hrun)
    as (gs & b0 & b & _ & _ & _ & Hev & _ & Hb0 & _ & Hfb & ->).
  assert (history_lengths (mkHistory (stat:=stat) [] [] [] [] [])) as Hl0
    by done.
  assert (logger_follows ([] : list (logger_call G stat))
            (mkHistory [] [] [] [] [])) as Hf0.
  { split; [done|]. intros i c Hi. by rewrite lookup_nil in Hi. }
  destruct (logger_follows_record [] _ 0
              (evaluate_one f <$> (Individual_init <$> gs)) b Hl0 Hf0 Hfb)
    as [Hlens Hfol].
  split.
  { exists b0. split; [done|]. by apply (proj1 (Forall_forall _ _) Hev). }
  split; [done|]. split; [by exists []|]. by eexists.
Qed.

Lemma generation_range_sorted (g : Z) :
  StronglySorted Z.lt (0%Z :: generation_range g).
Proof.
  unfold generation_range.
  assert (∀ k a, StronglySorted Z.lt
            (Z.of_nat a :: ((λ i, Z.of_nat i) <$> seq (S a) k))) as Hseq.
  { induction k as [|k IH]; intros a; [repeat constructor|].
    constructor; [apply IH|]. apply Forall_fmap, Forall_forall.
    intros i Hi%elem_of_seq. simpl. lia. }
  apply (Hseq (Z.to_nat g) 0).
Qed.

Lemma StronglySorted_sublist {T : Type} (R : relation T) (l k : list T) :
  l `sublist_of` k → StronglySorted R k → StronglySorted R l.
Proof.
  induction 1 as [|x l k Hsub IH|x l k Hsub IH]; intros Hk; [done|..].
  - apply StronglySorted_inv in Hk as [Hk Hx]. constructor; [by apply IH|].
    apply Forall_forall. intros y Hy.
    apply (proj1 (Forall_forall _ _) Hx). by eapply elem_of_sublist.
  - apply StronglySorted_inv in Hk as [Hk _]. by apply IH.
Qed.

(** X2.  Whatever the strategies of an engine, a call of [run] that
    returns gives back the tracker and the history of the engine; the
    tracker holds an evaluated individual (never [None]); the five lists
    of the history have the same length; the recorded generation numbers
    start with 0, go on with some of [1 .. generations] in their order and
    are strictly increasing; and the logger has received [log_start], then
    one [log_generation] per entry of the history (with the generation
    number of the entry, the history as it was up to the entry, and an
    individual whose fitness is the best fitness of the entry), then
    [log_end] with the tracker and [close]. *)
Theorem run_history_and_logger f create sp rp ss (n g : Z) self0 s
    self out s' :
  EvolutionaryAlgorithm_init f create sp rp ss n = Ok self0 →
  run np_mean np_std self0 g s = Ok (self, out, s') →
  out = (best_individual self, history self)
  ∧ (∃ b, best_individual self = Some b ∧ evaluated b)
  ∧ history_lengths (history self)
  ∧ (∃ gens, generation (history self) = 0%Z :: gens
       ∧ gens `sublist_of` generation_range g)
  ∧ StronglySorted Z.lt (generation (history self))
  ∧ ∃ calls,
      logger self
        = log_start n :: calls ++ [log_end (best_individual self) g; close]
      ∧ logger_follows calls (history self).
Proof.
  intros Hinit Hrun. unfold run, run_loop in Hrun.
  apply M_bind_inv in Hrun as (self2 & s2 & Hloop & [= <- <- <-]).
  apply M_bind_inv in Hloop as (self1 & s1 & Hstart & Hloop).
  pose proof (run_init_shape _ _ _ _ _ _ _ _ _ _ Hinit Hstart) as Hshape.
  apply (run_generations_shape _ _ _ _ _ _ _ Hshape) in Hloop
    as (Hbest & Hlens & (gens & Hgens & Hsub) & calls & Hlog & Hfol).
  rewrite app_nil_l in Hsub. engine_simpl.
  split; [done|]. split; [done|]. split; [done|].
  split; [by exists gens|]. split.
  - rewrite Hgens.
    eapply StronglySorted_sublist; [|apply (generation_range_sorted g)].
    by apply sublist_skip.
  - exists calls. split; [|done]. rewrite Hlog. cbn.
    by rewrite <-app_assoc.
Qed.

(** *** Runs under plus selection *)

Lemma np_max_spec l :
  l ≠ [] →
  (∀ x, x ∈ l → (fitness_key x ≤ np_max (fitness_key <$> l))%Z)
  ∧ ∃ x, x ∈ l ∧ fitness_key x = np_max (fitness_key <$> l).
Proof.
  intros Hne. destruct l as [|y l]; [done|]. rewrite fmap_cons.
  destruct (np_max_cons_le (fitness_key y) (fitness_key <$> l)) as [Hle Hin].
  rewrite <-fmap_cons in Hle, Hin |- *. split.
  - intros x Hx. apply Hle. by apply list_elem_of_fmap_2.
  - apply list_elem_of_fmap in Hin as (x & Hx & Hxin). by exists x.
Qed.

Lemma np_max_aged l :
  np_max (fitness_key <$> (aged <$> l)) = np_max (fitness_key <$> l).
Proof. by rewrite <-list_fmap_compose. Qed.

Lemma StronglySorted_snoc_last (l : list Z) (m m' : Z) :
  StronglySorted Z.le l → last l = Some m → (m ≤ m')%Z →
  StronglySorted Z.le (l ++ [m']).
Proof.
  intros Hs Hlast Hle. apply last_Some in Hlast as [l0 ->].
  apply StronglySorted_app. split; [|split; [done|repeat constructor]].
  intros x y Hx ->%list_elem_of_singleton.
  apply elem_of_app in Hx as [Hx| ->%list_elem_of_singleton]; [|done].
  etrans; [|exact Hle].
  by eapply (StronglySorted_app_1_elem_of Z.le l0 [m]); [| |left].
Qed.

(** The [mu >= 1] first of the candidates sorted by descending fitness:
    what plus selection keeps. *)
Lemma plus_top l (mu : Z) :
  (1 ≤ mu)%Z → Forall evaluated l → l ≠ [] →
  let top := py_prefix (sorted_desc l) mu in
  Forall evaluated top ∧ top ≠ []
  ∧ length top = Z.to_nat mu `min` length l
  ∧ np_max (fitness_key <$> top) = np_max (fitness_key <$> l).
Proof.
  intros Hmu Hev Hne top.
  destruct (best_fitness_of_top l mu Hmu Hev Hne) as (Hevt & Hnet & Hbest).
  fold top in Hevt, Hnet, Hbest.
  split; [done|]. split; [done|].
  split.
  { unfold top. rewrite length_py_prefix_nonneg by lia.
    by rewrite length_sorted_desc. }
  unfold best_fitness_of in Hbest.
  rewrite !omap_fitness_evaluated in Hbest by done.
  destruct top; [done|]. destruct l; [done|]. by injection Hbest.
Qed.

Lemma evaluate_one_evaluated (f : G → Z) ind : evaluated (evaluate_one f ind).
Proof.
  unfold evaluate_one. destruct (fitness ind) eqn:Hf; by eexists.
Qed.

Lemma fitness_key_aged ind : fitness_key (aged ind) = fitness_key ind.
Proof. done. Qed.

Lemma run_generation_plus_state self (n mu : Z) rp (gen : Z) (done : list Z)
    s self' s' :
  (1 ≤ mu)%Z →
  plus_state n mu rp done self →
  run_generation np_mean np_std self gen s = Ok (self', s') →
  plus_state n mu rp (done ++ [gen]) self'.
Proof.
  intros Hmu [Hss Hrp Hok Hev Hne Hlo Hhi Hdone Hgens Hlens Hlast Hsorted
              (b0 & Hb0 & Hb0le & Hb0eq)] Hrun.
  apply (run_generation_inv _ _ _ _ _ Hok) in Hrun
    as (parents & offspring & best1 & survivors & s1 & s2 & _ & Hrep & Hok1
        & Hle1 & Hfrom & Hdom & Hsurv & Hstats).
  set (f := evaluate_genotype self) in *.
  set (cands := (aged <$> population self) ++ (evaluate_one f <$> offspring))
    in *.
  assert (Forall evaluated cands) as Hevc.
  { apply Forall_app. split; [by apply Forall_evaluated_aged|].
    apply Forall_fmap, Forall_forall. intros ind _.
    apply evaluate_one_evaluated. }
  assert (cands ≠ []) as Hnec
    by (unfold cands; by destruct (population self)).
  rewrite Hss in Hsurv. unfold plus_survivors in Hsurv.
  apply lift_inv in Hsurv as [Hsurv ->].
  unfold PlusSelection_call in Hsurv. fold cands in Hsurv.
  unfold sort_by_fitness_reverse in Hsurv.
  rewrite decide_True in Hsurv by (by right).
  cbn [mbind result_bind] in Hsurv. injection Hsurv as <-.
  destruct (plus_top cands mu Hmu Hevc Hnec) as (Hevt & Hnet & Hlent & Hmax).
  set (top := py_prefix (sorted_desc cands) mu) in *.
  apply update_history_evaluated in Hstats as (b & Hb & Hfb & ->);
    [|done..].
  engine_simpl in Hb. engine_simpl in Hfb.
  destruct (np_max_spec (population self) Hne) as [Hpop_le (xm & Hxm & Hxmk)].
  destruct (np_max_spec cands Hnec) as [Hc_le (xc & Hxc & Hxck)].
  assert (np_max (fitness_key <$> population self)
          ≤ np_max (fitness_key <$> cands))%Z as Hgrow.
  { rewrite <-Hxmk, <-(fitness_key_aged xm). apply Hc_le.
    apply elem_of_app. left. by apply list_elem_of_fmap_2. }
  assert (length cands = length (population self) + length offspring)
    as Hlenc by (unfold cands; by rewrite length_app, !length_fmap).
  split; engine_simpl; try done.
  - lia.
  - lia.
  - destruct done; simpl; lia.
  - cbn. by rewrite Hgens.
  - cbn. rewrite !length_app. cbn. lia.
  - cbn. by rewrite last_snoc.
  - cbn. eapply StronglySorted_snoc_last; [done..|]. by rewrite Hmax.
  - rewrite Hmax. destruct (Hle1 b0 Hb0) as (b1 & -> & Hb1le & Hb1ev).
    exists b1. split; [done|].
    assert (∀ ind, ind ∈ offspring → fitness ind = None →
              (fitness_key (evaluate_one f ind) ≤ fitness_key b1)%Z) as Hdom'.
    { intros ind Hind Hnone.
      destruct (Hdom ind Hind Hnone) as (b' & [= <-] & Hle).
      unfold evaluate_one. rewrite Hnone. done. }
    split.
    + destruct Hfrom as [Hsame|(ind & Hind & Hnone & [= ->])].
      * rewrite Hb0 in Hsame. injection Hsame as ->. lia.
      * apply Hc_le. apply elem_of_app. right.
        by apply list_elem_of_fmap_2.
    + intros Hfresh. apply Z.le_antisymm.
      * destruct Hfrom as [Hsame|(ind & Hind & Hnone & [= ->])].
        -- rewrite Hb0 in Hsame. injection Hsame as ->. lia.
        -- apply Hc_le. apply elem_of_app. right.
           by apply list_elem_of_fmap_2.
      * rewrite <-Hxck.
        apply elem_of_app in Hxc as [Hxc|Hxc].
        -- apply list_elem_of_fmap in Hxc as (y & -> & Hy).
           rewrite fitness_key_aged. specialize (Hpop_le y Hy).
           specialize (Hb0eq Hfresh). unfold fitter_eq in Hb1le. lia.
        -- apply list_elem_of_fmap in Hxc as (ind & -> & Hind).
           apply Hdom'; [done|]. rewrite Hrp in Hrep.
           apply Hfresh in Hrep.
           by apply (proj1 (Forall_forall _ _) Hrep).
Qed.

Lemma run_generations_plus_state (gens : list Z) self (n mu : Z) rp
    (done : list Z) s self' s' :
  (1 ≤ mu)%Z →
  plus_state n mu rp done self →
  run_generations np_mean np_std self gens s = Ok (self', s') →
  plus_state n mu rp (done ++ gens) self'.
Proof.
  intros Hmu. revert self done s.
  induction gens as [|gen gens IH]; intros self done s.
  { intros Hst [= <- <-]. by rewrite app_nil_r. }
  intros Hst Hrun. cbn [run_generations] in Hrun.
  apply M_bind_inv in Hrun as (self1 & s1 & Hstep & Hrun).
  replace (done ++ gen :: gens) with ((done ++ [gen]) ++ gens)
    by (by rewrite <-app_assoc).
  eapply IH; [|exact Hrun]. by eapply run_generation_plus_state.
Qed.

Lemma run_init_plus_state f create sp rp (n mu : Z) self0 s self1 s1 :
  EvolutionaryAlgorithm_init f create sp rp (plus_survivors mu) n
    = Ok self0 →
  run_init np_mean np_std self0 s = Ok (self1, s1) →
  plus_state n mu rp [] self1.
Proof.
  intros Hinit Hrun.
  destruct (run_init_inv _ _ _ _ _ _ _ _ _ _ Hinit Hrun)
    as (gs & b0 & b & _ & Hn & Hlen & Hev & Hne & Hb0 & Hb0max & Hfb & ->).
  set (pop := evaluate_one f <$> (Individual_init <$> gs)) in *.
  destruct (np_max_spec pop Hne) as [Hle (xm & Hxm & Hxmk)].
  assert (fitness_key b0 = np_max (fitness_key <$> pop)) as Hb0k.
  { apply Z.le_antisymm; [by apply Hle|]. rewrite <-Hxmk. by apply Hb0max. }
  split; engine_simpl; try done.
  - intros ? [= <-]. by apply (proj1 (Forall_forall _ _) Hev).
  - lia.
  - lia.
  - repeat constructor.
  - exists b0. split; [done|]. split; [lia|done].
Qed.

Lemma run_inv f create sp rp ss (n g : Z) self0 s self out s' :
  EvolutionaryAlgorithm_init f create sp rp ss n = Ok self0 →
  run np_mean np_std self0 g s = Ok (self, out, s') →
  ∃ self1 s1 self2,
    run_init np_mean np_std self0 s = Ok (self1, s1)
    ∧ run_generations np_mean np_std self1 (generation_range g) s1
      = Ok (self2, s')
    ∧ population self = population self2
    ∧ best_individual self = best_individual self2
    ∧ history self = history self2
    ∧ out = (best_individual self2, history self2).
Proof.
  intros Hinit Hrun. unfold run, run_loop in Hrun.
  apply M_bind_inv in Hrun as (self2 & s2 & Hloop & [= <- <- <-]).
  apply M_bind_inv in Hloop as (self1 & s1 & Hstart & Hloop).
  by exists self1, s1, self2.
Qed.

Lemma generation_range_nil (g : Z) :
  generation_range g = [] ↔ (g ≤ 0)%Z.
Proof.
  unfold generation_range. split.
  - intros Hnil. apply fmap_nil_inv in Hnil.
    destruct (Z.to_nat g) eqn:Hg; [lia|done].
  - intros Hg. by replace (Z.to_nat g) with 0 by lia.
Qed.

(** X3.  In an engine built with plus selection of a size [mu >= 1],
    whatever the other strategies, when [run] returns the live population
    holds an individual that is at least as fit as the best-ever tracker:
    the best individual found is never lost.  When the reproduction
    strategy only yields individuals without fitness, the best fitness of
    the live population is the fitness of the tracker. *)
Theorem plus_selection_keeps_best f create sp rp (n mu g : Z) self0 s
    self out s' :
  EvolutionaryAlgorithm_init f create sp rp (plus_survivors mu) n
    = Ok self0 →
  (1 ≤ mu)%Z →
  run np_mean np_std self0 g s = Ok (self, out, s') →
  ∃ t m x,
    tracker_fitness self = Some t
    ∧ population_best self = Some m
    ∧ x ∈ population self ∧ fitness x = Some m
    ∧ (t ≤ m)%Z
    ∧ (fresh_offspring rp → t = m).
Proof.
  intros Hinit Hmu Hrun.
  destruct (run_inv _ _ _ _ _ _ _ _ _ _ _ _ Hinit Hrun)
    as (self1 & s1 & self2 & Hstart & Hloop & Hpop & Hbest & _ & _).
  pose proof (run_init_plus_state _ _ _ _ _ _ _ _ _ _ Hinit Hstart) as Hst.
  apply (run_generations_plus_state _ _ _ _ _ _ _ _ _ Hmu Hst) in Hloop
    as [_ _ Hok Hev Hne _ _ _ _ _ _ _ (b & Hb & Hble & Hbeq)].
  destruct (np_max_spec _ Hne) as [_ (x & Hx & Hxk)].
  destruct (Hok b Hb) as [t Ht].
  destruct (proj1 (Forall_forall _ _) Hev x Hx) as [m Hm].
  assert (fitness_key b = t) as Hbk by (unfold fitness_key; by rewrite Ht).
  assert (fitness_key x = m) as Hxm by (unfold fitness_key; by rewrite Hm).
  exists t, m, x. unfold tracker_fitness, population_best.
  rewrite Hbest, Hpop, Hb. cbn. split; [done|]. split.
  { unfold best_fitness_of. rewrite omap_fitness_evaluated by done.
    destruct (population self2); [done|]. cbn -[np_max].
    rewrite <-fmap_cons. by rewrite <-Hxk, Hxm. }
  split; [done|]. split; [done|]. split; [lia|].
  intros Hfresh. specialize (Hbeq Hfresh). lia.
Qed.

(** X4.  In an engine of population size [n] built with plus selection of
    size [mu >= 1], however many offspring the reproduction strategy
    yields, the population that [run] leaves has between [min(n, mu)] and
    [max(n, mu)] individuals: exactly [n] when [mu = n] or when no
    generation was run, and exactly [mu] when [mu <= n] and a generation
    was run. *)
Theorem plus_selection_population_size f create sp rp (n mu g : Z) self0 s
    self out s' :
  EvolutionaryAlgorithm_init f create sp rp (plus_survivors mu) n
    = Ok self0 →
  (1 ≤ mu)%Z →
  run np_mean np_std self0 g s = Ok (self, out, s') →
  (1 ≤ n)%Z
  ∧ Z.to_nat n `min` Z.to_nat mu ≤ length (population self)
      ≤ Z.to_nat n `max` Z.to_nat mu
  ∧ (mu = n → length (population self) = Z.to_nat n)
  ∧ ((g ≤ 0)%Z → length (population self) = Z.to_nat n)
  ∧ ((1 ≤ g)%Z → (mu ≤ n)%Z → length (population self) = Z.to_nat mu).
Proof.
  intros Hinit Hmu Hrun.
  destruct (run_inv _ _ _ _ _ _ _ _ _ _ _ _ Hinit Hrun)
    as (self1 & s1 & self2 & Hstart & Hloop & Hpop & _ & _ & _).
  pose proof (run_init_plus_state _ _ _ _ _ _ _ _ _ _ Hinit Hstart) as Hst.
  destruct (run_init_inv _ _ _ _ _ _ _ _ _ _ Hinit Hstart)
    as (_ & _ & _ & _ & Hn & _).
  apply (run_generations_plus_state _ _ _ _ _ _ _ _ _ Hmu Hst) in Hloop
    as [_ _ _ _ _ Hlo Hhi Hdone _ _ _ _ _].
  rewrite app_nil_l in Hdone. rewrite Hpop.
  split; [done|]. split; [done|]. split; [intros ->; lia|]. split.
  - intros Hg. apply generation_range_nil in Hg. by rewrite Hg in Hdone.
  - intros Hg Hle. destruct (generation_range g) eqn:Hr.
    + apply generation_range_nil in Hr. lia.
    + lia.
Qed.

(** X5.  In an engine built with plus selection of a size [mu >= 1],
    whatever the other strategies, the history that [run] returns has an
    entry for every generation from 0 to [generations], its best fitness
    values never decrease from one generation to the next, and the last of
    them is the best fitness of the population that the run leaves. *)
Theorem plus_selection_history f create sp rp (n mu g : Z) self0 s
    self out s' :
  EvolutionaryAlgorithm_init f create sp rp (plus_survivors mu) n
    = Ok self0 →
  (1 ≤ mu)%Z →
  run np_mean np_std self0 g s = Ok (self, out, s') →
  generation out.2 = 0%Z :: generation_range g
  ∧ length (best_fitness out.2) = S (Z.to_nat g)
  ∧ StronglySorted Z.le (best_fitness out.2)
  ∧ last (best_fitness out.2) = population_best self.
Proof.
  intros Hinit Hmu Hrun.
  destruct (run_inv _ _ _ _ _ _ _ _ _ _ _ _ Hinit Hrun)
    as (self1 & s1 & self2 & Hstart & Hloop & Hpop & _ & _ & ->).
  pose proof (run_init_plus_state _ _ _ _ _ _ _ _ _ _ Hinit Hstart) as Hst.
  apply (run_generations_plus_state _ _ _ _ _ _ _ _ _ Hmu Hst) in Hloop
    as [_ _ _ Hev Hne _ _ _ Hgens Hlens Hlast Hsorted _].
  rewrite app_nil_l in Hgens. cbn [snd].
  split; [done|]. split.
  { rewrite Hlens, Hgens. cbn. unfold generation_range.
    by rewrite length_fmap, length_seq. }
  split; [done|]. rewrite Hlast. unfold population_best. rewrite Hpop.
  unfold best_fitness_of. rewrite omap_fitness_evaluated by done.
  by destruct (population self2).
Qed.
End RunFacts.


Lemma ex_reproduce_fresh : fresh_offspring ex_reproduce.
Proof.
  intros parents gen s offspring s' [= <- <-].
  apply Forall_fmap, Forall_forall. by intros p _.
Qed.

Lemma run_history_and_logger_witness :
  ∃ self0 self out s',
    ex_gap_engine = Ok self0
    ∧ run ex_stat ex_stat self0 2 0 = Ok (self, out, s')
    ∧ out = (best_individual self, history self)
    ∧ generation (history self) = [0; 2]%Z
    ∧ StronglySorted Z.lt (generation (history self))
    ∧ ∃ calls,
        logger self
          = log_start 1 :: calls ++ [log_end (best_individual self) 2; close]
        ∧ logger_follows calls (history self).
Proof.
  destruct ex_gap_engine as [self0|] eqn:Hinit; [|by vm_compute in Hinit].
  destruct (run ex_stat ex_stat self0 2 0) as [[[self out] s']|] eqn:Hrun.
  - exists self0, self, out, s'. split; [reflexivity|].
    split; [exact Hrun|].
    destruct (run_history_and_logger ex_stat ex_stat _ _ _ _ _ _ _ _ _ _ _ _
                Hinit Hrun)
      as (Hout & _ & _ & _ & Hsorted & Hlog).
    split; [exact Hout|]. split; [|exact (conj Hsorted Hlog)].
    injection Hinit as <-. vm_compute in Hrun. by injection Hrun as <- _ _.
  - injection Hinit as <-. by vm_compute in Hrun.
Defined.

Lemma plus_selection_keeps_best_witness :
  ∃ self0 self out s',
    ex_plus_engine 2 = Ok self0
    ∧ run ex_stat ex_stat self0 3 0 = Ok (self, out, s')
    ∧ ∃ t x,
        tracker_fitness self = Some t
        ∧ population_best self = Some t
        ∧ x ∈ population self ∧ fitness x = Some t.
Proof.
  destruct (ex_plus_engine 2) as [self0|] eqn:Hinit;
    [|by vm_compute in Hinit].
  destruct (run ex_stat ex_stat self0 3 0) as [[[self out] s']|] eqn:Hrun.
  - exists self0, self, out, s'. split; [reflexivity|].
    split; [exact Hrun|].
    destruct (plus_selection_keeps_best ex_stat ex_stat _ _ _ _ _ _ _ _ _ _
                _ _ Hinit ltac:(lia) Hrun)
      as (t & m & x & Ht & Hm & Hx & Hfx & _ & Heq).
    specialize (Heq ex_reproduce_fresh). subst m. by exists t, x.
  - injection Hinit as <-. by vm_compute in Hrun.
Defined.

Lemma plus_selection_population_size_witness :
  ∃ self0 self out s',
    ex_plus_engine 2 = Ok self0
    ∧ run ex_stat ex_stat self0 3 0 = Ok (self, out, s')
    ∧ length (population self) = 2.
Proof.
  destruct (ex_plus_engine 2) as [self0|] eqn:Hinit;
    [|by vm_compute in Hinit].
  destruct (run ex_stat ex_stat self0 3 0) as [[[self out] s']|] eqn:Hrun.
  - exists self0, self, out, s'. split; [reflexivity|].
    split; [exact Hrun|].
    destruct (plus_selection_population_size ex_stat ex_stat _ _ _ _ _ _ _
                _ _ _ _ _ Hinit ltac:(lia) Hrun)
      as (_ & _ & Hsame & _).
    by apply Hsame.
  - injection Hinit as <-. by vm_compute in Hrun.
Defined.

Lemma plus_selection_history_witness :
  ∃ self0 self out s',
    ex_plus_engine 2 = Ok self0
    ∧ run ex_stat ex_stat self0 3 0 = Ok (self, out, s')
    ∧ generation out.2 = [0; 1; 2; 3]%Z
    ∧ StronglySorted Z.le (best_fitness out.2)
    ∧ last (best_fitness out.2) = population_best self.
Proof.
  destruct (ex_plus_engine 2) as [self0|] eqn:Hinit;
    [|by vm_compute in Hinit].
  destruct (run ex_stat ex_stat self0 3 0) as [[[self out] s']|] eqn:Hrun.
  - exists self0, self, out, s'. split; [reflexivity|].
    split; [exact Hrun|].
    destruct (plus_selection_history ex_stat ex_stat _ _ _ _ _ _ _ _ _ _ _
                _ Hinit ltac:(lia) Hrun)
      as (Hgens & _ & Hsorted & Hlast).
    split; [exact Hgens|]. exact (conj Hsorted Hlast).
  - injection Hinit as <-. by vm_compute in Hrun.
Defined.


(** ** Survivor selection: ties and sizes *)

Section SurvivorSelectionFacts.
Context {G : Type}.
Implicit Types (ind : Individual G) (l : list (Individual G)).
Implicit Types (old_population offspring : list (Individual G)).

(** The sort is stable: individuals of one fitness stay in the order they
    had. *)
Lemma filter_insert_desc (v : Z) ind l :
  filter (λ x, fitness_key x = v) (insert_desc ind l)
  = filter (λ x, fitness_key x = v) (ind :: l).
Proof.
  induction l as [|y l IH]; [done|]. cbn [insert_desc].
  case_decide as Hlt; [|done].
  rewrite filter_cons, IH, !(filter_cons _ ind), (filter_cons _ y).
  repeat case_decide; try done; lia.
Qed.

Lemma filter_sorted_desc (v : Z) l :
  filter (λ x, fitness_key x = v) (sorted_desc l)
  = filter (λ x, fitness_key x = v) l.
Proof.
  induction l as [|x l IH]; [done|].
  change (sorted_desc (x :: l)) with (insert_desc x (sorted_desc l)).
  by rewrite filter_insert_desc, !filter_cons, IH.
Qed.

Lemma filter_take_prefix {T : Type} (P : T → Prop) `{∀ x, Decision (P x)}
    (k : nat) (l : list T) :
  filter P (take k l) `prefix_of` filter P l.
Proof.
  exists (filter P (drop k l)). by rewrite <-filter_app, take_drop.
Qed.


(** X6.  [PlusSelection.__call__] with a size [mu >= 0], on candidates
    that are all evaluated (or fewer than two): it returns the
    [min(mu, number of candidates)] fittest of the old population and the
    offspring together, sorted by descending fitness, none of them less fit
    than a candidate left out.  Ties are broken by position: among the
    candidates of one fitness the survivors are the first ones in the order
    old population, then offspring, so that an offspring never displaces
    an individual of the old population that is as fit. *)
Theorem plus_selection_call (mu : Z) old_population offspring :
  let candidates := old_population ++ offspring in
  (0 ≤ mu)%Z →
  length candidates < 2 ∨ Forall evaluated candidates →
  ∃ survivors rest,
    PlusSelection_call mu old_population offspring = Ok survivors
    ∧ length survivors = Z.to_nat mu `min` length candidates
    ∧ survivors ++ rest ≡ₚ candidates
    ∧ StronglySorted fitter_eq survivors
    ∧ (∀ x y, x ∈ survivors → y ∈ rest → fitter_eq x y)
    ∧ (∀ v : Z,
         filter (λ x, fitness_key x = v) survivors
         `prefix_of` filter (λ x, fitness_key x = v) old_population
                     ++ filter (λ x, fitness_key x = v) offspring).
Proof.
  intros candidates Hmu Hev.
  destruct (py_prefix_sorted_desc_top candidates mu Hmu)
    as (Hlen & Hperm & Hsorted & Htop).
  exists (py_prefix (sorted_desc candidates) mu),
    (drop (Z.to_nat mu) (sorted_desc candidates)).
  split.
  { unfold PlusSelection_call, sort_by_fitness_reverse.
    fold candidates. by rewrite decide_True. }
  split; [done|]. split; [done|]. split; [done|]. split; [done|].
  intros v. rewrite <-filter_app. fold candidates.
  rewrite <-(filter_sorted_desc v candidates).
  unfold py_prefix. rewrite decide_True by done.
  apply filter_take_prefix.
Qed.

End SurvivorSelectionFacts.

Lemma plus_selection_call_witness :
  ∃ survivors,
    PlusSelection_call 2 [cand 5 1; cand 7 2] [cand 7 0; cand 9 0]
      = Ok survivors
    ∧ length survivors = 2
    ∧ filter (λ x, fitness_key x = 7%Z) survivors
      `prefix_of` [cand 7 2; cand 7 0].
Proof.
  destruct (plus_selection_call 2 [cand 5 1; cand 7 2] [cand 7 0; cand 9 0])
    as (survivors & rest & Hcall & Hlen & _ & _ & _ & Hties).
  - lia.
  - right. repeat constructor; by eexists.
  - exists survivors. split; [exact Hcall|]. split; [exact Hlen|].
    exact (Hties 7%Z).
Defined.



(** ** Parent selection: the winners of the tournaments; uniform choice *)

Section ParentSelectionMore.
Context {rng : Type} `{RandomSource rng} {G : Type}.
Implicit Types (ind : Individual G) (population : list (Individual G)).

(** [random.sample] returns the elements at distinct positions. *)
Lemma random_sample_inv {T : Type} (population : list T) (k : Z) s l s' :
  random_sample population k s = Ok (l, s') →
  (0 ≤ k ≤ Z.of_nat (length population))%Z
  ∧ ∃ idxs, NoDup idxs ∧ length idxs = Z.to_nat k
      ∧ Forall (λ i, i < length population) idxs
      ∧ l = omap (λ i, population !! i) idxs.
Proof.
  unfold random_sample. case_decide as Hk; [|done].
  pose proof (sample_indices_length (length population) (Z.to_nat k) s) as Hl.
  pose proof (sample_indices_lt (length population) (Z.to_nat k) s) as Hlt.
  pose proof (sample_indices_NoDup (length population) (Z.to_nat k) s) as Hnd.
  destruct (sample_indices _ _ s) as [idxs s1]. simpl in *.
  intros [= <- <-]. split; [done|]. exists idxs.
  split; [apply Hnd; lia|]. split; [apply Hl; lia|].
  split; [apply Hlt; lia|done].
Qed.

Lemma elem_of_omap_lookup {T : Type} (population : list T)
    (idxs : list nat) j x :
  j ∈ idxs → population !! j = Some x →
  x ∈ omap (λ i, population !! i) idxs.
Proof. intros Hj Hx. apply list_elem_of_omap. by exists j. Qed.

Lemma tournament_rounds_inv (rounds : nat) (k : Z) population s parents s' :
  tournament_rounds rounds k population s = Ok (parents, s') →
  Forall (tournament_winner k population) parents.
Proof.
  revert s parents. induction rounds as [|rounds IH]; intros s parents.
  { by intros [= <- <-]. }
  cbn [tournament_rounds]. intros Hrun.
  apply M_bind_inv in Hrun as (contenders & s1 & Hsample & Hrun).
  apply M_bind_inv in Hrun as (winner & s2 & Hmax & Hrun).
  apply lift_inv in Hmax as [Hmax ->].
  apply M_bind_inv in Hrun as (parents' & s3 & Hrest & [= <- <-]).
  constructor; [|by eapply IH].
  apply random_sample_inv in Hsample
    as (Hk & idxs & Hnd & Hlen & Hlt & ->).
  destruct (omap_lookup_in_range population idxs Hlt) as [Hlen' Hin].
  apply py_max_by_fitness_inv in Hmax as [Hw Hfit].
  split; [by apply (proj1 (Forall_forall _ _) Hin)|].
  exists idxs. split; [done|]. split; [done|]. intros j Hj.
  destruct (lookup_lt_is_Some_2 population j) as [x Hx].
  { by apply (proj1 (Forall_forall _ _) Hlt). }
  exists x. split; [done|].
  pose proof (elem_of_omap_lookup population idxs j x Hj Hx) as Hxin.
  destruct (decide (2 ≤ length idxs)) as [Hlen2|Hlen1].
  - apply Hfit; [left; lia|done].
  - destruct (omap (λ i, population !! i) idxs) as [|c [|c' l]];
      [by apply elem_of_nil in Hw| |simpl in Hlen'; lia].
    apply list_elem_of_singleton in Hw as ->.
    apply list_elem_of_singleton in Hxin as ->.
    unfold fitter_eq. lia.
Qed.

(** X8.  [TournamentSelection.__call__] on an evaluated population with
    [1 <= k <= len(population)]: it returns, and every parent is the
    winner of a tournament, an individual of the population that is at
    least as fit as the individuals at [k] distinct positions of the
    population.  With [k = len(population)] every parent is a fittest
    individual of the population. *)
Theorem tournament_selects_winners (self : TournamentSelection)
    population (s : rng) :
  (1 ≤ tournament_k self ≤ Z.of_nat (length population))%Z →
  Forall evaluated population →
  ∃ parents s',
    TournamentSelection_call self population s = Ok (parents, s')
    ∧ length parents = length population
    ∧ Forall (tournament_winner (tournament_k self) population) parents
    ∧ (tournament_k self = Z.of_nat (length population) →
       Forall (λ p, ∀ x, x ∈ population → fitter_eq p x) parents).
Proof.
  intros Hk Hev.
  destruct (tournament_rounds_Ok (length population) (tournament_k self)
              population s Hk Hev) as (parents & s' & Hrun & Hlen & _).
  exists parents, s'. unfold TournamentSelection_call.
  rewrite decide_False by (destruct population; simpl in *; [lia|done]).
  split; [done|]. split; [done|].
  pose proof (tournament_rounds_inv _ _ _ _ _ _ Hrun) as Hwin.
  split; [done|]. intros Hall.
  eapply Forall_impl; [exact Hwin|].
  intros p (_ & idxs & Hnd & Hlenk & Hbeats) x Hx.
  apply list_elem_of_lookup in Hx as [i Hi].
  assert (idxs ≡ₚ seq 0 (length population)) as Hperm.
  { apply submseteq_length_Permutation.
    - apply NoDup_submseteq; [done|]. intros j Hj.
      destruct (Hbeats j Hj) as (y & Hy & _).
      apply elem_of_seq. apply lookup_lt_Some in Hy. lia.
    - rewrite length_seq. lia. }
  destruct (Hbeats i) as (y & Hy & Hfit).
  { rewrite Hperm. apply elem_of_seq. apply lookup_lt_Some in Hi. lia. }
  by simplify_eq.
Qed.

(** *** [UniformSelection] *)

Lemma py_floor_unit (u : Q) (n : nat) :
  (0 <= u)%Q → (u < 1)%Q → 0 < n →
  (0 ≤ py_floor (u * inject_Z (Z.of_nat n)) < Z.of_nat n)%Z.
Proof.
  destruct u as [a d]. unfold Qle, Qlt, py_floor. cbn.
  intros H0 H1 Hn. rewrite Pos.mul_1_r. split.
  - apply Z.div_pos; nia.
  - apply Z.div_lt_upper_bound; nia.
Qed.

Lemma random_choices_Ok `{!UnitRandom rng} {T : Type} (population : list T)
    (k : nat) s :
  population ≠ [] →
  ∃ l s', random_choices population k s = Ok (l, s')
    ∧ length l = k ∧ Forall (λ x, x ∈ population) l.
Proof.
  intros Hne. revert s. induction k as [|k IH]; intros s.
  { exists [], s. by repeat split. }
  cbn [random_choices]. unfold py_random.
  unfold mbind at 1, M_bind at 1.
  pose proof (random_unit s) as [H0 H1].
  destruct (random_random s) as [u s1]. simpl in H0, H1.
  destruct (py_floor_unit u (length population) H0 H1) as [Hlo Hhi].
  { destruct population; [done|simpl; lia]. }
  unfold py_getitem_int. rewrite decide_True by done.
  destruct (lookup_lt_is_Some_2 population
              (Z.to_nat (py_floor (u * inject_Z (Z.of_nat (length population))))))
    as [x Hx]; [lia|].
  unfold py_getitem. rewrite Hx. unfold lift at 1.
  unfold mbind at 1, M_bind at 1.
  destruct (IH s1) as (l & s2 & Hl & Hlen & Hin).
  rewrite (M_bind_Ok _ _ _ _ _ Hl).
  exists (x :: l), s2. split; [done|]. split; [by simpl; f_equal|].
  constructor; [|done]. by eapply list_elem_of_lookup_2.
Qed.

(** X9.  [UniformSelection.__call__] never raises, whether or not the
    population is evaluated: it returns as many parents as the population
    has individuals, each of them an individual of the population, and on
    an empty population it returns the empty list without drawing a random
    number. *)
Theorem uniform_selection_call `{!UnitRandom rng} population (s : rng) :
  ∃ parents s',
    UniformSelection_call population s = Ok (parents, s')
    ∧ length parents = length population
    ∧ Forall (λ p, p ∈ population) parents
    ∧ (population = [] → parents = [] ∧ s' = s).
Proof.
  unfold UniformSelection_call. destruct population as [|x l].
  { exists [], s. by repeat split. }
  rewrite decide_False by done.
  destruct (random_choices_Ok (x :: l) (length (x :: l)) s)
    as (parents & s' & Hrun & Hlen & Hin); [done|].
  exists parents, s'. by repeat split.
Qed.
End ParentSelectionMore.


Lemma tournament_selects_winners_witness :
  ∃ parents s',
    TournamentSelection_call {| tournament_k := 2 |}
        [cand 5 0; cand 7 0; cand 7 1] 0
      = Ok (parents, s')
    ∧ length parents = 3
    ∧ Forall (tournament_winner 2 [cand 5 0; cand 7 0; cand 7 1]) parents.
Proof.
  destruct (tournament_selects_winners {| tournament_k := 2 |}
              [cand 5 0; cand 7 0; cand 7 1] 0)
    as (parents & s' & Hrun & Hlen & Hwin & _).
  - simpl. lia.
  - repeat constructor; by eexists.
  - exists parents, s'. split; [exact Hrun|]. split; [exact Hlen|exact Hwin].
Defined.

Lemma uniform_selection_call_witness :
  ∃ parents s',
    UniformSelection_call [cand 5 0; Individual_init []; cand 7 1] 0
      = Ok (parents, s')
    ∧ length parents = 3
    ∧ Forall (λ p, p ∈ [cand 5 0; Individual_init []; cand 7 1]) parents.
Proof.
  destruct (uniform_selection_call (rng:=nat)
              [cand 5 0; Individual_init []; cand 7 1] 0)
    as (parents & s' & Hrun & Hlen & Hin & _).
  exists parents, s'. split; [exact Hrun|]. split; [exact Hlen|exact Hin].
Defined.


(** ** Mutation: the exact effect of a swap and of an inversion *)

Section MutationMore.
Context {rng : Type} `{RandomSource rng} {A : Type}.
Implicit Types (g : list (option A)) (ind : Individual (list (option A))).

Lemma swap_in_place_exact g (idx1 idx2 : nat) :
  idx1 < length g → idx2 < length g →
  ∃ g', swap_in_place g idx1 idx2 = Ok g'
    ∧ length g' = length g
    ∧ g' !! idx1 = g !! idx2 ∧ g' !! idx2 = g !! idx1
    ∧ ∀ k, k ≠ idx1 → k ≠ idx2 → g' !! k = g !! k.
Proof.
  intros H1 H2.
  destruct (lookup_lt_is_Some_2 g idx1 H1) as [a Ha].
  destruct (lookup_lt_is_Some_2 g idx2 H2) as [b Hb].
  unfold swap_in_place, py_getitem, py_setitem. rewrite Ha, Hb.
  cbn [mbind result_bind]. rewrite decide_True by done.
  cbn [mbind result_bind]. rewrite decide_True by (by rewrite length_insert).
  eexists. split; [done|]. split; [by rewrite !length_insert|].
  split; [|split].
  - destruct (decide (idx1 = idx2)) as [->|Hne].
    + rewrite list_lookup_insert_eq by (by rewrite length_insert). congruence.
    + rewrite list_lookup_insert_ne by done.
      rewrite list_lookup_insert_eq by done. done.
  - rewrite list_lookup_insert_eq by (by rewrite length_insert). done.
  - intros k Hk1 Hk2. by rewrite !list_lookup_insert_ne.
Qed.

Lemma invert_in_place_exact g (start end_ : nat) :
  start ≤ end_ < length g →
  length (invert_in_place g start end_) = length g
  ∧ (∀ k, start ≤ k ≤ end_ →
       invert_in_place g start end_ !! k = g !! (start + end_ - k))
  ∧ ∀ k, k < start ∨ end_ < k → invert_in_place g start end_ !! k = g !! k.
Proof.
  intros Hse. unfold invert_in_place, py_slice_assign, py_slice.
  rewrite Nat.max_r by lia.
  assert (length (take start g) = start) as Hl1
    by (rewrite length_take; lia).
  assert (length (reverse (take (end_ + 1 - start) (drop start g)))
          = end_ + 1 - start) as Hl2
    by (rewrite length_reverse, length_take, length_drop; lia).
  split; [|split].
  - rewrite !length_app, Hl1, Hl2, length_drop. lia.
  - intros k Hk. rewrite lookup_app_r by lia. rewrite Hl1.
    rewrite lookup_app_l by lia.
    rewrite reverse_lookup
      by (rewrite length_take, length_drop; lia).
    rewrite length_take, length_drop.
    rewrite lookup_take_lt by lia. rewrite lookup_drop. f_equal. lia.
  - intros k [Hk|Hk].
    + rewrite lookup_app_l by lia. by rewrite lookup_take_lt.
    + rewrite lookup_app_r by lia. rewrite Hl1.
      rewrite lookup_app_r by lia. rewrite Hl2.
      rewrite lookup_drop. f_equal. lia.
Qed.

Lemma swapped_changes g g' : NoDup g → swapped g g' → g' ≠ g.
Proof.
  intros Hnd (i & j & Hij & Hi & Hj & _ & Hgi & _) ->.
  destruct (lookup_lt_is_Some_2 g i Hi) as [x Hx].
  rewrite Hx in Hgi. apply Hij. by eapply NoDup_lookup.
Qed.

Lemma inverted_changes g g' : NoDup g → inverted g g' → g' ≠ g.
Proof.
  intros Hnd (start & end_ & Hse & _ & Hin & _) ->.
  specialize (Hin start ltac:(lia)).
  replace (start + end_ - start) with end_ in Hin by lia.
  destruct (lookup_lt_is_Some_2 g start ltac:(lia)) as [x Hx].
  rewrite Hx in Hin. assert (start = end_); [|lia].
  by eapply NoDup_lookup.
Qed.

(** The body of the loop of [SwapMutation.__call__]: it mutates exactly
    when the random number drawn is below the probability and there are
    two genes or more. *)
Lemma SwapMutation_one_exact (prob : Q) ind s :
  ∃ ind' s',
    SwapMutation_one prob ind s = Ok (ind', s')
    ∧ mutated_by swapped ind ind'
    ∧ (Qlt_b (random_random s).1 prob = false → ind' = ind)
    ∧ (Qlt_b (random_random s).1 prob = true →
       2 ≤ length (genotype ind) →
       swapped (genotype ind) (genotype ind')
       ∧ fitness ind' = fitness ind ∧ age ind' = age ind).
Proof.
  unfold SwapMutation_one, py_random.
  unfold mbind at 1, M_bind at 1.
  destruct (random_random s) as [u s1]. cbn [fst].
  destruct (Qlt_b u prob).
  2:{ eexists _, _. split; [done|]. split; [by left|]. by split. }
  case_decide as Hlen.
  { eexists _, _. split; [done|]. split; [by left|].
    split; [done|]. intros _ ?. lia. }
  destruct (sample_two_Ok (length (genotype ind)) s1) as
    (a & b & s2 & Hs & Hab & Ha & Hb); [lia|].
  rewrite (M_bind_Ok _ _ _ _ _ Hs). cbn [fst snd].
  destruct (swap_in_place_exact (genotype ind) a b Ha Hb)
    as (g' & Hg & Hlen' & Hga & Hgb & Hrest).
  rewrite Hg. eexists _, _. split; [done|].
  assert (swapped (genotype ind) g') as Hsw.
  { exists a, b. by repeat split. }
  split; [right; by repeat split|]. split; [done|]. by intros _ _.
Qed.

Lemma InversionMutation_one_exact (prob : Q) ind s :
  ∃ ind' s',
    InversionMutation_one prob ind s = Ok (ind', s')
    ∧ mutated_by inverted ind ind'
    ∧ (Qlt_b (random_random s).1 prob = false → ind' = ind)
    ∧ (Qlt_b (random_random s).1 prob = true →
       2 ≤ length (genotype ind) →
       inverted (genotype ind) (genotype ind')
       ∧ fitness ind' = fitness ind ∧ age ind' = age ind).
Proof.
  unfold InversionMutation_one, py_random.
  unfold mbind at 1, M_bind at 1.
  destruct (random_random s) as [u s1]. cbn [fst].
  destruct (Qlt_b u prob).
  2:{ eexists _, _. split; [done|]. split; [by left|]. by split. }
  case_decide as Hlen.
  { eexists _, _. split; [done|]. split; [by left|].
    split; [done|]. intros _ ?. lia. }
  destruct (sample_two_Ok (length (genotype ind)) s1) as
    (a & b & s2 & Hs & Hab & Ha & Hb); [lia|].
  rewrite (M_bind_Ok _ _ _ _ _ Hs). cbn [fst snd].
  destruct (invert_in_place_exact (genotype ind) (a `min` b) (a `max` b))
    as (Hlen' & Hin & Hout); [lia|].
  eexists _, _. split; [done|].
  assert (inverted (genotype ind)
            (invert_in_place (genotype ind) (a `min` b) (a `max` b)))
    as Hinv.
  { exists (a `min` b), (a `max` b). split; [lia|]. by repeat split. }
  split; [right; by repeat split|]. split; [done|]. by intros _ _.
Qed.

(** X10.  [SwapMutation.__call__] and [InversionMutation.__call__] return
    the offspring one by one either untouched or changed by exactly one
    step, with fitness and age as they were: a swap exchanges the genes at
    two distinct positions and leaves every other position as it was; an
    inversion reverses the genes of one segment of two or more positions
    and leaves the positions outside of it as they were. *)
Theorem mutation_exact_step (prob_schedule : schedule)
    (offspring : list (Individual (list (option A))))
    (current_generation : Z) (s : rng) :
  (∃ offspring' s',
     SwapMutation_call prob_schedule offspring current_generation s
       = Ok (offspring', s')
     ∧ Forall2 (mutated_by swapped) offspring offspring')
  ∧ (∃ offspring' s',
       InversionMutation_call prob_schedule offspring current_generation s
         = Ok (offspring', s')
       ∧ Forall2 (mutated_by inverted) offspring offspring').
Proof.
  split.
  - apply mapM_Ok. intros ind s0.
    destruct (SwapMutation_one_exact
                (resolve prob_schedule current_generation) ind s0)
      as (ind' & s' & Hrun & Hmut & _). by exists ind', s'.
  - apply mapM_Ok. intros ind s0.
    destruct (InversionMutation_one_exact
                (resolve prob_schedule current_generation) ind s0)
      as (ind' & s' & Hrun & Hmut & _). by exists ind', s'.
Qed.

Lemma Qlt_b_nonpositive `{!UnitRandom rng} (prob : Q) s :
  (prob <= 0)%Q → Qlt_b (random_random s).1 prob = false.
Proof.
  intros Hp. destruct (random_unit s) as [H0 _].
  unfold Qlt_b. apply negb_false_iff, Qle_bool_iff.
  by eapply Qle_trans.
Qed.

Lemma Qlt_b_certain `{!UnitRandom rng} (prob : Q) s :
  (1 <= prob)%Q → Qlt_b (random_random s).1 prob = true.
Proof.
  intros Hp. destruct (random_unit s) as [_ H1].
  unfold Qlt_b. apply negb_true_iff, not_true_is_false.
  rewrite Qle_bool_iff. intros Hle.
  apply (Qlt_irrefl 1). eapply Qle_lt_trans; [|exact H1].
  by eapply Qle_trans.
Qed.

Lemma Forall2_eq_same {T : Type} (l k : list T) : Forall2 eq l k → l = k.
Proof. induction 1; by f_equal. Qed.

(** X11.  The two ends of the mutation probability.  With a probability
    of 0 or less for the generation, [SwapMutation.__call__] and
    [InversionMutation.__call__] return the offspring as they were.  With
    a probability of 1 or more, every offspring of two genes or more is
    mutated: two of its genes are exchanged, or a segment of it is
    reversed, and if its genes are pairwise distinct its genotype is not
    what it was. *)
Theorem mutation_probability_ends `{!UnitRandom rng}
    (prob_schedule : schedule)
    (offspring : list (Individual (list (option A))))
    (current_generation : Z) (s : rng) :
  let prob := resolve prob_schedule current_generation in
  ((prob <= 0)%Q →
   (∃ s', SwapMutation_call prob_schedule offspring current_generation s
            = Ok (offspring, s'))
   ∧ (∃ s', InversionMutation_call prob_schedule offspring
              current_generation s = Ok (offspring, s')))
  ∧ ((1 <= prob)%Q →
     (∃ offspring' s',
        SwapMutation_call prob_schedule offspring current_generation s
          = Ok (offspring', s')
        ∧ Forall2 (λ before after,
            2 ≤ length (genotype before) →
            swapped (genotype before) (genotype after)
            ∧ (NoDup (genotype before) →
               genotype after ≠ genotype before))
            offspring offspring')
     ∧ (∃ offspring' s',
          InversionMutation_call prob_schedule offspring
            current_generation s = Ok (offspring', s')
          ∧ Forall2 (λ before after,
              2 ≤ length (genotype before) →
              inverted (genotype before) (genotype after)
              ∧ (NoDup (genotype before) →
                 genotype after ≠ genotype before))
              offspring offspring')).
Proof.
  intros prob. split.
  - intros Hp. split.
    + assert (∀ ind s0, ∃ ind' s',
                SwapMutation_one prob ind s0 = Ok (ind', s') ∧ ind = ind')
        as Hone.
      { intros ind s0.
        destruct (SwapMutation_one_exact prob ind s0)
          as (ind' & s' & Hrun & _ & Hkeep & _).
        exists ind', s'. split; [done|]. symmetry. apply Hkeep.
        by apply Qlt_b_nonpositive. }
      destruct (mapM_Ok _ _ Hone offspring s) as (l' & s' & Hrun & Heq).
      apply Forall2_eq_same in Heq as <-. by exists s'.
    + assert (∀ ind s0, ∃ ind' s',
                InversionMutation_one prob ind s0 = Ok (ind', s') ∧ ind = ind')
        as Hone.
      { intros ind s0.
        destruct (InversionMutation_one_exact prob ind s0)
          as (ind' & s' & Hrun & _ & Hkeep & _).
        exists ind', s'. split; [done|]. symmetry. apply Hkeep.
        by apply Qlt_b_nonpositive. }
      destruct (mapM_Ok _ _ Hone offspring s) as (l' & s' & Hrun & Heq).
      apply Forall2_eq_same in Heq as <-. by exists s'.
  - intros Hp. split.
    + apply mapM_Ok. intros ind s0.
      destruct (SwapMutation_one_exact prob ind s0)
        as (ind' & s' & Hrun & _ & _ & Hfire).
      exists ind', s'. split; [done|]. intros Hlen.
      destruct (Hfire (Qlt_b_certain prob s0 Hp) Hlen) as (Hsw & _).
      split; [done|]. intros Hnd. by apply swapped_changes.
    + apply mapM_Ok. intros ind s0.
      destruct (InversionMutation_one_exact prob ind s0)
        as (ind' & s' & Hrun & _ & _ & Hfire).
      exists ind', s'. split; [done|]. intros Hlen.
      destruct (Hfire (Qlt_b_certain prob s0 Hp) Hlen) as (Hinv & _).
      split; [done|]. intros Hnd. by apply inverted_changes.
Qed.

(** X12.  A mutation step is its own inverse: exchanging the genes at the
    same two positions again, or reversing the same segment again, gives
    back the genotype as it was. *)
Theorem mutation_step_involutive g (idx1 idx2 start end_ : nat) :
  (idx1 < length g → idx2 < length g →
   ∃ g', swap_in_place g idx1 idx2 = Ok g'
     ∧ swap_in_place g' idx1 idx2 = Ok g)
  ∧ (start ≤ end_ < length g →
     invert_in_place (invert_in_place g start end_) start end_ = g).
Proof.
  split.
  - intros H1 H2.
    destruct (swap_in_place_exact g idx1 idx2 H1 H2)
      as (g' & Hg' & Hlen & Ha & Hb & Hrest).
    destruct (swap_in_place_exact g' idx1 idx2)
      as (g'' & Hg'' & Hlen' & Ha' & Hb' & Hrest'); [lia..|].
    exists g'. split; [done|]. rewrite Hg''. f_equal.
    apply list_eq. intros k.
    destruct (decide (k = idx1)) as [->|Hk1]; [congruence|].
    destruct (decide (k = idx2)) as [->|Hk2]; [congruence|].
    rewrite Hrest' by done. by apply Hrest.
  - intros Hse.
    destruct (invert_in_place_exact g start end_ Hse) as (Hlen & Hin & Hout).
    destruct (invert_in_place_exact (invert_in_place g start end_) start end_)
      as (Hlen' & Hin' & Hout'); [lia|].
    apply list_eq. intros k.
    destruct (decide (start ≤ k ≤ end_)) as [Hk|Hk].
    + rewrite Hin' by done. rewrite Hin by lia. f_equal. lia.
    + rewrite Hout' by lia. apply Hout. lia.
Qed.
End MutationMore.

Lemma mutation_exact_step_witness :
  ∃ offspring1 offspring2 s1 s2,
    SwapMutation_call (Fixed 1)
        [Individual_init scenario_parent1; Individual_init [Some 1%Z]] 1 0
      = Ok (offspring1, s1)
    ∧ Forall2 (mutated_by swapped)
        [Individual_init scenario_parent1; Individual_init [Some 1%Z]]
        offspring1
    ∧ InversionMutation_call (Fixed 1)
        [Individual_init scenario_parent1; Individual_init [Some 1%Z]] 1 0
      = Ok (offspring2, s2)
    ∧ Forall2 (mutated_by inverted)
        [Individual_init scenario_parent1; Individual_init [Some 1%Z]]
        offspring2.
Proof.
  destruct (mutation_exact_step (Fixed 1)
              [Individual_init scenario_parent1; Individual_init [Some 1%Z]]
              1 0%nat)
    as [(o1 & s1 & Hs & Hr1) (o2 & s2 & Hi & Hr2)].
  by exists o1, o2, s1, s2.
Defined.

Lemma mutation_probability_ends_witness :
  (∃ s', SwapMutation_call (Fixed 0) [Individual_init scenario_parent1] 1 0
           = Ok ([Individual_init scenario_parent1], s'))
  ∧ (∃ offspring' s',
       InversionMutation_call (Scheduled (λ gen, inject_Z gen))
           [Individual_init scenario_parent1] 1 0
         = Ok (offspring', s')
       ∧ Forall2 (λ before after,
           2 ≤ length (genotype before) →
           inverted (genotype before) (genotype after)
           ∧ (NoDup (genotype before) →
              genotype after ≠ genotype before))
           [Individual_init scenario_parent1] offspring').
Proof.
  split.
  - destruct (mutation_probability_ends (rng:=nat) (Fixed 0)
                [Individual_init scenario_parent1] 1 0) as [Hzero _].
    destruct Hzero as [Hswap _]; [done|]. exact Hswap.
  - destruct (mutation_probability_ends (rng:=nat)
                (Scheduled (λ gen, inject_Z gen))
                [Individual_init scenario_parent1] 1 0) as [_ Hone].
    destruct Hone as [_ Hinv]; [done|]. exact Hinv.
Defined.

Lemma mutation_step_involutive_witness :
  (∃ g', swap_in_place scenario_parent1 2 5 = Ok g'
     ∧ swap_in_place g' 2 5 = Ok scenario_parent1)
  ∧ invert_in_place (invert_in_place scenario_parent1 2 5) 2 5
    = scenario_parent1.
Proof.
  destruct (mutation_step_involutive scenario_parent1 2 5 2 5)
    as [Hswap Hinv].
  split; [apply Hswap; simpl; lia|apply Hinv; simpl; lia].
Defined.


(** ** Crossover on a list of parents *)

Section CrossoverMore.
Context {rng : Type} `{RandomSource rng} {A : Type} `{Countable A}.
Implicit Types (a b : Individual (list (option A))).
Implicit Types (parents : list (Individual (list (option A)))).
Implicit Types
  (Rc : list (option A) → list (option A)
       → list (option A) → list (option A) → Prop).

Lemma pair_ind {T : Type} (P : list T → Prop) :
  P [] → (∀ x, P [x]) → (∀ x y l, P l → P (x :: y :: l)) → ∀ l, P l.
Proof.
  intros Hnil Hone Hpair l.
  assert (P l ∧ ∀ x, P (x :: l)) as [? _]; [|done].
  induction l as [|y l [IH1 IH2]]; [by split|].
  split; [by apply IH2|]. intros x. by apply Hpair.
Qed.

Lemma offspring_of_length Rc parents offspring :
  offspring_of Rc parents offspring → length offspring = length parents.
Proof. induction 1; simpl; by f_equal; try f_equal. Qed.

(** One pair of parents of [OrderedCrossover.__call__]: the pair is
    cloned, when the genotypes have fewer than two genes or the random
    number drawn is above the rate, or recombined at two cut points
    [start < end_]. *)
Lemma OrderedCrossover_pairs_step Rc (rate : Q) a b parents s :
  length (genotype a) = length (genotype b) →
  (length (genotype a) < 2 →
   Rc (genotype a) (genotype b) (genotype a) (genotype b)) →
  (2 ≤ length (genotype a) → Qlt_b rate (random_random s).1 = true →
   Rc (genotype a) (genotype b) (genotype a) (genotype b)) →
  (2 ≤ length (genotype a) → Qlt_b rate (random_random s).1 = false →
   ∀ start end_, start < end_ < length (genotype a) →
     ∃ c1 c2,
       _create_child (genotype a) (genotype b) start end_ = Ok c1
       ∧ _create_child (genotype b) (genotype a) start end_ = Ok c2
       ∧ Rc (genotype a) (genotype b) c1 c2) →
  ∃ c1 c2 s1,
    Rc (genotype a) (genotype b) c1 c2
    ∧ OrderedCrossover_pairs rate (a :: b :: parents) s
      = (offspring ← OrderedCrossover_pairs rate parents ;
         mret (Individual_init c1 :: Individual_init c2 :: offspring)) s1.
Proof.
  intros Hlen Hshort Hclone Hcross. cbn [OrderedCrossover_pairs].
  rewrite decide_False by (by intros []).
  destruct (decide (length (genotype a) < 2)) as [Hlt|Hge].
  { exists (genotype a), (genotype b), s. split; [by apply Hshort|done]. }
  assert (py_random s = Ok ((random_random s).1, (random_random s).2))
    as Hu by (unfold py_random; by destruct (random_random s)).
  rewrite M_bind_assoc, (M_bind_Ok _ _ _ _ _ Hu).
  destruct (Qlt_b rate (random_random s).1) eqn:Hdraw.
  { exists (genotype a), (genotype b), (random_random s).2.
    split; [apply Hclone; [lia|done]|done]. }
  destruct (sample_two_Ok (length (genotype a)) (random_random s).2)
    as (x & y & s2 & Hs & Hxy & Hx & Hy); [lia|].
  destruct (Hcross ltac:(lia) eq_refl (x `min` y) (x `max` y))
    as (c1 & c2 & Hc1 & Hc2 & HRc); [lia|].
  exists c1, c2, s2. split; [done|].
  rewrite M_bind_assoc, (M_bind_Ok _ _ _ _ _ Hs). cbn [fst snd].
  rewrite M_bind_assoc, (M_bind_lift_Ok _ _ _ _ Hc1).
  by rewrite M_bind_assoc, (M_bind_lift_Ok _ _ _ _ Hc2).
Qed.

(** One pair of parents of [CycleCrossover.__call__]: cloned when the
    random number drawn is above the rate, recombined otherwise. *)
Lemma CycleCrossover_pairs_step Rc (rate : Q) a b parents s :
  length (genotype a) = length (genotype b) →
  (Qlt_b rate (random_random s).1 = true →
   Rc (genotype a) (genotype b) (genotype a) (genotype b)) →
  (Qlt_b rate (random_random s).1 = false →
   ∃ st, cx_recombine (genotype a) (genotype b) = Ok st
     ∧ Rc (genotype a) (genotype b) (c1_gen st) (c2_gen st)) →
  ∃ c1 c2 s1,
    Rc (genotype a) (genotype b) c1 c2
    ∧ CycleCrossover_pairs rate (a :: b :: parents) s
      = (offspring ← CycleCrossover_pairs rate parents ;
         mret (Individual_init c1 :: Individual_init c2 :: offspring)) s1.
Proof.
  intros Hlen Hclone Hcross. cbn [CycleCrossover_pairs].
  rewrite decide_False by (by intros []).
  assert (py_random s = Ok ((random_random s).1, (random_random s).2))
    as Hu by (unfold py_random; by destruct (random_random s)).
  rewrite (M_bind_Ok _ _ _ _ _ Hu).
  destruct (Qlt_b rate (random_random s).1) eqn:Hdraw.
  { exists (genotype a), (genotype b), (random_random s).2.
    split; [by apply Hclone|done]. }
  destruct (Hcross eq_refl) as (st & Hrun & HRc).
  exists (c1_gen st), (c2_gen st), (random_random s).2. split; [done|].
  by rewrite M_bind_assoc, (M_bind_lift_Ok _ _ _ _ Hrun).
Qed.

(** A recombination that fails makes [CycleCrossover.__call__] fail. *)
Lemma CycleCrossover_pairs_Raise (rate : Q) a b parents s e :
  length (genotype a) = length (genotype b) →
  Qlt_b rate (random_random s).1 = false →
  cx_recombine (genotype a) (genotype b) = Raise e →
  CycleCrossover_pairs rate (a :: b :: parents) s = Raise e.
Proof.
  intros Hlen Hdraw Hrun. cbn [CycleCrossover_pairs].
  rewrite decide_False by (by intros []).
  assert (py_random s = Ok ((random_random s).1, (random_random s).2))
    as Hu by (unfold py_random; by destruct (random_random s)).
  rewrite (M_bind_Ok _ _ _ _ _ Hu). rewrite Hdraw, Hrun. done.
Qed.

Lemma OrderedCrossover_pairs_Ok (R : relation (Individual (list (option A))))
    Rc (rate : Q) :
  (∀ a b s, R a b →
     length (genotype a) = length (genotype b)
     ∧ (length (genotype a) < 2 →
        Rc (genotype a) (genotype b) (genotype a) (genotype b))
     ∧ (2 ≤ length (genotype a) → Qlt_b rate (random_random s).1 = true →
        Rc (genotype a) (genotype b) (genotype a) (genotype b))
     ∧ (2 ≤ length (genotype a) → Qlt_b rate (random_random s).1 = false →
        ∀ start end_, start < end_ < length (genotype a) →
          ∃ c1 c2,
            _create_child (genotype a) (genotype b) start end_ = Ok c1
            ∧ _create_child (genotype b) (genotype a) start end_ = Ok c2
            ∧ Rc (genotype a) (genotype b) c1 c2)) →
  ∀ parents s, paired R parents →
    ∃ offspring s',
      OrderedCrossover_pairs rate parents s = Ok (offspring, s')
      ∧ offspring_of Rc parents offspring.
Proof.
  intros HR parents.
  induction parents as [|a|a b parents IH] using pair_ind; intros s Hp.
  - exists [], s. split; [done|constructor].
  - exists [Individual_init (genotype a)], s. split; [done|constructor].
  - destruct Hp as [Hab Hp].
    destruct (HR a b s Hab) as (Hlen & Hshort & Hclone & Hcross).
    destruct (OrderedCrossover_pairs_step Rc rate a b parents s
                Hlen Hshort Hclone Hcross) as (c1 & c2 & s1 & HRc & ->).
    destruct (IH s1 Hp) as (offspring & s' & Hrun & Hoff).
    rewrite (M_bind_Ok _ _ _ _ _ Hrun).
    eexists _, _. split; [done|]. by constructor.
Qed.

Lemma CycleCrossover_pairs_Ok (R : relation (Individual (list (option A))))
    Rc (rate : Q) :
  (∀ a b s, R a b →
     length (genotype a) = length (genotype b)
     ∧ (Qlt_b rate (random_random s).1 = true →
        Rc (genotype a) (genotype b) (genotype a) (genotype b))
     ∧ (Qlt_b rate (random_random s).1 = false →
        ∃ st, cx_recombine (genotype a) (genotype b) = Ok st
          ∧ Rc (genotype a) (genotype b) (c1_gen st) (c2_gen st))) →
  ∀ parents s, paired R parents →
    ∃ offspring s',
      CycleCrossover_pairs rate parents s = Ok (offspring, s')
      ∧ offspring_of Rc parents offspring.
Proof.
  intros HR parents.
  induction parents as [|a|a b parents IH] using pair_ind; intros s Hp.
  - exists [], s. split; [done|constructor].
  - exists [Individual_init (genotype a)], s. split; [done|constructor].
  - destruct Hp as [Hab Hp].
    destruct (HR a b s Hab) as (Hlen & Hclone & Hcross).
    destruct (CycleCrossover_pairs_step Rc rate a b parents s
                Hlen Hclone Hcross) as (c1 & c2 & s1 & HRc & ->).
    destruct (IH s1 Hp) as (offspring & s' & Hrun & Hoff).
    rewrite (M_bind_Ok _ _ _ _ _ Hrun).
    eexists _, _. split; [done|]. by constructor.
Qed.

(** X13.  [OrderedCrossover.__call__] and [CycleCrossover.__call__] on a
    whole list of parents whose pairs are permutations of one set of
    pairwise distinct genes: the call returns as many offspring as there
    are parents; the offspring are fresh individuals (no fitness, age 0);
    the two offspring of a pair carry the genes of the two parents of the
    pair, in some order each; and with an odd number of parents the last
    offspring is a fresh copy of the last parent. *)
Theorem crossover_call_offspring (rate_schedule : schedule) parents
    (current_generation : Z) (s : rng) :
  paired (λ a b, NoDup (genotype a) ∧ genotype a ≡ₚ genotype b) parents →
  let same_genes := λ (pa pb c1 c2 : list (option A)),
    (c1 ≡ₚ pa) ∧ (c2 ≡ₚ pb) in
  (∃ offspring s',
     OrderedCrossover_call rate_schedule parents current_generation s
       = Ok (offspring, s')
     ∧ offspring_of same_genes parents offspring
     ∧ length offspring = length parents)
  ∧ (∃ offspring s',
       CycleCrossover_call rate_schedule parents current_generation s
         = Ok (offspring, s')
       ∧ offspring_of same_genes parents offspring
       ∧ length offspring = length parents).
Proof.
  intros Hp same_genes. split.
  - destruct (OrderedCrossover_pairs_Ok
                (λ a b, NoDup (genotype a) ∧ genotype a ≡ₚ genotype b)
                same_genes (resolve rate_schedule current_generation))
      with (parents := parents) (s := s) as (offspring & s' & Hrun & Hoff);
      [|exact Hp|].
    + intros a b s0 [Hnd Hperm]. split; [by rewrite Hperm|].
      split; [done|]. split; [done|].
      intros _ _ start end_ Hse.
      destruct (create_child_spec (genotype a) (genotype b) start end_
                  Hnd Hperm) as (c1 & Hc1 & _ & _ & _ & Hp1); [lia|].
      destruct (create_child_spec (genotype b) (genotype a) start end_)
        as (c2 & Hc2 & _ & _ & _ & Hp2);
        [by rewrite <-Hperm|done|rewrite <-Hperm; lia|].
      by exists c1, c2.
    + exists offspring, s'. split; [done|]. split; [done|].
      by eapply offspring_of_length.
  - destruct (CycleCrossover_pairs_Ok
                (λ a b, NoDup (genotype a) ∧ genotype a ≡ₚ genotype b)
                same_genes (resolve rate_schedule current_generation))
      with (parents := parents) (s := s) as (offspring & s' & Hrun & Hoff);
      [|exact Hp|].
    + intros a b s0 [Hnd Hperm]. split; [by rewrite Hperm|].
      split; [done|]. intros _.
      destruct (cx_recombine_children (genotype a) (genotype b) Hnd Hperm)
        as (st & Hst & _ & _ & _ & Hp1 & Hp2).
      by exists st.
    + exists offspring, s'. split; [done|]. split; [done|].
      by eapply offspring_of_length.
Qed.

(** *** Identical parents *)

Lemma rotate_inj {T : Type} (n : nat) (l k : list T) :
  length l = length k → rotate n l = rotate n k → l = k.
Proof.
  intros Hlen. unfold rotate. rewrite Hlen.
  set (m := n `mod` length k). intros Heq.
  apply app_inj_1 in Heq as [Hd Ht]; [|by rewrite !length_drop, Hlen].
  by rewrite <-(take_drop m l), <-(take_drop m k), Hd, Ht.
Qed.

Lemma filter_not_in_swath (l sw : list (option A)) :
  NoDup (l ++ sw) → filter (λ g, g ∉ sw) (l ++ sw) = l.
Proof.
  intros (_ & Hdisj & _)%NoDup_app. rewrite filter_app.
  assert (∀ k, k ⊆ sw → filter (λ g, g ∉ sw) k = []) as Hnone.
  { induction k as [|x k IHk]; intros Hk; [done|].
    rewrite filter_cons, decide_False by (intros Hn; apply Hn, Hk; by left).
    apply IHk. intros y Hy. apply Hk. by right. }
  rewrite (Hnone sw) by (intros x0 Hx0; exact Hx0).
  rewrite app_nil_r. induction l as [|x l IH]; [done|].
  rewrite filter_cons, decide_True by (apply Hdisj; by left).
  f_equal. apply IH. intros y Hy. apply Hdisj. by right.
Qed.

(** Ordered crossover of a genotype with itself gives the genotype. *)
Lemma create_child_same (p : list (option A)) (start end_ : nat) :
  NoDup p → start ≤ end_ < length p →
  _create_child p p start end_ = Ok p.
Proof.
  intros Hnd Hse.
  destruct (create_child_rotated p p start end_ Hnd) as (child & -> & Hlen & Hrot);
    [done..|].
  f_equal. apply (rotate_inj (end_ + 1)); [done|]. rewrite Hrot.
  set (swath := py_slice p start (end_ + 1)).
  assert (∃ l, rotate (end_ + 1) p = l ++ swath) as [l Hl].
  { unfold rotate, swath, py_slice.
    destruct (decide (end_ + 1 = length p)) as [Hfull|Hpart].
    - rewrite Hfull, Nat.Div0.mod_same, drop_0, take_0, app_nil_r.
      exists (take start p).
      rewrite (take_ge (drop start p)) by (rewrite length_drop; lia).
      by rewrite take_drop.
    - rewrite Nat.mod_small by lia.
      exists (drop (end_ + 1) p ++ take start p). rewrite <-app_assoc.
      f_equal. rewrite take_take_drop. f_equal. lia. }
  rewrite Hl. rewrite filter_not_in_swath; [done|].
  rewrite <-Hl. unfold rotate. rewrite Permutation_app_comm, take_drop. done.
Qed.

Lemma cx_recombine_same (p : list (option A)) :
  NoDup p →
  ∃ st, cx_recombine p p = Ok st ∧ c1_gen st = p ∧ c2_gen st = p.
Proof.
  intros Hnd.
  destruct (cx_recombine_children p p Hnd) as
    (st & Hrun & Hl1 & Hl2 & Hpos & _); [done|].
  exists st. split; [done|].
  split; apply list_eq; intros i; destruct (decide (i < length p)) as [Hi|Hi].
  - destruct (Hpos i Hi) as [[? _]|[? _]]; done.
  - rewrite !lookup_ge_None_2 by lia. done.
  - destruct (Hpos i Hi) as [[_ ?]|[_ ?]]; done.
  - rewrite !lookup_ge_None_2 by lia. done.
Qed.

Lemma offspring_of_clones parents offspring :
  offspring_of (λ pa pb c1 c2 : list (option A), c1 = pa ∧ c2 = pb)
    parents offspring →
  offspring = (λ p, Individual_init (genotype p)) <$> parents.
Proof.
  induction 1 as [|a|a b parents c1 c2 offspring [-> ->] _ IH]; [done..|].
  cbn. by rewrite IH.
Qed.

(** X14.  Crossover of identical parents changes nothing: when the two
    parents of every pair have the same genotype, of pairwise distinct
    genes, [OrderedCrossover.__call__] and [CycleCrossover.__call__]
    return, whatever the rate and the random numbers drawn, one fresh
    individual per parent with the genotype of that parent. *)
Theorem crossover_identical_parents (rate_schedule : schedule) parents
    (current_generation : Z) (s : rng) :
  paired (λ a b, NoDup (genotype a) ∧ genotype a = genotype b) parents →
  (∃ s',
     OrderedCrossover_call rate_schedule parents current_generation s
       = Ok ((λ p, Individual_init (genotype p)) <$> parents, s'))
  ∧ (∃ s',
       CycleCrossover_call rate_schedule parents current_generation s
         = Ok ((λ p, Individual_init (genotype p)) <$> parents, s')).
Proof.
  intros Hp. split.
  - destruct (OrderedCrossover_pairs_Ok
                (λ a b, NoDup (genotype a) ∧ genotype a = genotype b)
                (λ pa pb c1 c2, c1 = pa ∧ c2 = pb)
                (resolve rate_schedule current_generation))
      with (parents := parents) (s := s) as (offspring & s' & Hrun & Hoff);
      [|exact Hp|].
    + intros a b s0 [Hnd Heq]. split; [by rewrite Heq|].
      split; [done|]. split; [done|].
      intros _ _ start end_ Hse. rewrite <-Heq.
      exists (genotype a), (genotype a).
      rewrite create_child_same by (done || lia). done.
    + apply offspring_of_clones in Hoff as ->. by exists s'.
  - destruct (CycleCrossover_pairs_Ok
                (λ a b, NoDup (genotype a) ∧ genotype a = genotype b)
                (λ pa pb c1 c2, c1 = pa ∧ c2 = pb)
                (resolve rate_schedule current_generation))
      with (parents := parents) (s := s) as (offspring & s' & Hrun & Hoff);
      [|exact Hp|].
    + intros a b s0 [Hnd Heq]. split; [by rewrite Heq|].
      split; [done|]. intros _. rewrite <-Heq.
      destruct (cx_recombine_same (genotype a) Hnd) as (st & Hst & H1 & H2).
      by exists st.
    + apply offspring_of_clones in Hoff as ->. by exists s'.
Qed.

(** *** Cycle crossover on any two genotypes of one length *)

Lemma foldl_insert_Some (L : list (nat * option A))
    (m : gmap (option A) nat) (v : option A) (j : nat) :
  foldl (λ m iv, <[iv.2:=iv.1]> m) m L !! v = Some j →
  (j, v) ∈ L ∨ m !! v = Some j.
Proof.
  revert m. induction L as [|[i w] L IH]; intros m; [by right|].
  cbn [foldl]. intros [Hin|Hm]%IH; [left; by right|].
  cbn in Hm. destruct (decide (w = v)) as [->|Hne].
  - rewrite lookup_insert_eq in Hm. injection Hm as ->. left. by left.
  - rewrite lookup_insert_ne in Hm by done. by right.
Qed.

Lemma foldl_insert_is_Some (L : list (nat * option A))
    (m : gmap (option A) nat) (v : option A) :
  (∃ j, (j, v) ∈ L) ∨ is_Some (m !! v) →
  is_Some (foldl (λ m iv, <[iv.2:=iv.1]> m) m L !! v).
Proof.
  revert m. induction L as [|[i w] L IH]; intros m.
  { intros [[j Hj]|?]; [by apply elem_of_nil in Hj|done]. }
  cbn [foldl]. intros Hv. apply IH. cbn.
  destruct (decide (w = v)) as [->|Hne].
  { right. rewrite lookup_insert_eq. by eexists. }
  rewrite lookup_insert_ne by done.
  destruct Hv as [[j Hj]|?]; [|by right].
  apply elem_of_cons in Hj as [[= ]|Hj]; [congruence|]. left. by exists j.
Qed.

Lemma value_to_index_Some (p : list (option A)) (v : option A) (j : nat) :
  value_to_index p !! v = Some j → p !! j = Some v.
Proof.
  unfold value_to_index. intros [Hin|Hm]%foldl_insert_Some.
  - apply elem_of_lookup_imap in Hin as (i & y & [= -> ->] & Hy). done.
  - by rewrite lookup_empty in Hm.
Qed.

Lemma value_to_index_is_Some (p : list (option A)) (v : option A) :
  v ∈ p → is_Some (value_to_index p !! v).
Proof.
  intros [j Hj]%list_elem_of_lookup. unfold value_to_index.
  apply foldl_insert_is_Some. left. exists j.
  apply elem_of_lookup_imap. by exists j, v.
Qed.

Lemma unvisited_insert (l : list bool) (i : nat) :
  l !! i = Some false →
  length (filter (λ b : bool, b = false) (<[i:=true]> l)) + 1
  = length (filter (λ b : bool, b = false) l).
Proof.
  revert i. induction l as [|b l IH]; intros i Hi; [by destruct i|].
  destruct i as [|i].
  - injection Hi as ->. change (<[0:=true]> (false :: l)) with (true :: l).
    rewrite !filter_cons. rewrite decide_False by done.
    rewrite decide_True by done. simpl. lia.
  - change (<[S i:=true]> (b :: l)) with (b :: <[i:=true]> l).
    rewrite !filter_cons. specialize (IH i Hi).
    destruct (decide (b = false)); simpl; lia.
Qed.

Lemma unvisited_le (st : cx_state A) :
  unvisited st ≤ length (visited_indices st).
Proof. apply length_filter. Qed.

Section CxTotal.
Context (p1 p2 : list (option A)).
Hypothesis Hlen : length p1 = length p2.
Implicit Types (st : cx_state A).

Lemma cx_assign_any st (cur : nat) :
  cx_any p1 p2 st → cur < length p1 →
  ∃ st', cx_assign p1 p2 cur st = Ok st'
    ∧ length (c1_gen st') = length p1 ∧ length (c2_gen st') = length p1
    ∧ visited_indices st' = <[cur:=true]> (visited_indices st)
    ∧ (∀ i, i ≠ cur →
         c1_gen st' !! i = c1_gen st !! i ∧ c2_gen st' !! i = c2_gen st !! i)
    ∧ ((c1_gen st' !! cur = p1 !! cur ∧ c2_gen st' !! cur = p2 !! cur)
       ∨ (c1_gen st' !! cur = p2 !! cur ∧ c2_gen st' !! cur = p1 !! cur)).
Proof.
  intros [Hl1 Hl2 Hlv _] Hcur.
  destruct (lookup_lt_is_Some_2 p1 cur Hcur) as [g1 Hg1].
  destruct (lookup_lt_is_Some_2 p2 cur ltac:(lia)) as [g2 Hg2].
  unfold cx_assign, py_setitem, py_getitem.
  rewrite decide_True by lia. cbn [mbind result_bind].
  rewrite Hg1, Hg2. cbn [mbind result_bind].
  destruct (decide (cycle_num st `mod` 2 = 1)).
  - rewrite !decide_True by lia. cbn [mbind result_bind].
    eexists. split; [done|]. cbn.
    rewrite !length_insert. split; [done|]. split; [done|]. split; [done|].
    split; [intros i Hi; by rewrite !list_lookup_insert_ne|].
    left. rewrite !list_lookup_insert_eq by lia. done.
  - rewrite !decide_True by lia. cbn [mbind result_bind].
    eexists. split; [done|]. cbn.
    rewrite !length_insert. split; [done|]. split; [done|]. split; [done|].
    split; [intros i Hi; by rewrite !list_lookup_insert_ne|].
    right. rewrite !list_lookup_insert_eq by lia. done.
Qed.

(** The [while] of one cycle, on any state: it returns within as many
    iterations as there are positions not yet visited, or raises
    [KeyError] at a gene of [p1] that [p2] does not have. *)
Lemma cx_cycle_any (fuel cur : nat) st :
  cx_any p1 p2 st → cur < length p1 → unvisited st ≤ fuel →
  (∃ st', cx_cycle fuel p1 p2 (value_to_index p2) cur st = Ok st'
     ∧ cx_any p1 p2 st'
     ∧ (∀ i, visited_indices st !! i = Some true →
          visited_indices st' !! i = Some true)
     ∧ visited_indices st' !! cur = Some true)
  ∨ (cx_cycle fuel p1 p2 (value_to_index p2) cur st = Raise KeyError
     ∧ ∃ g, g ∈ p1 ∧ g ∉ p2).
Proof.
  revert cur st. induction fuel as [|fuel IH]; intros cur st Hinv Hcur Hfuel.
  - destruct (lookup_lt_is_Some_2 (visited_indices st) cur) as [b Hb].
    { rewrite (cx_any_lenv _ _ _ Hinv). done. }
    destruct b.
    + left. exists st. cbn [cx_cycle].
      rewrite (py_getitem_Some _ _ _ Hb).
      split; [done|]. split; [done|]. by split.
    + pose proof (unvisited_insert _ _ Hb). unfold unvisited in Hfuel. lia.
  - destruct (lookup_lt_is_Some_2 (visited_indices st) cur) as [b Hb].
    { rewrite (cx_any_lenv _ _ _ Hinv). done. }
    cbn [cx_cycle]. rewrite (py_getitem_Some _ _ _ Hb).
    cbn [mbind result_bind]. destruct b.
    { left. exists st. split; [done|]. split; [done|]. by split. }
    destruct (cx_assign_any st cur Hinv Hcur)
      as (st1 & -> & Hl1 & Hl2 & Hv1 & Hkeep & Hcurw).
    cbn [mbind result_bind].
    destruct (lookup_lt_is_Some_2 p1 cur Hcur) as [v Hv].
    rewrite (py_getitem_Some _ _ _ Hv). cbn [mbind result_bind].
    unfold py_dict_get.
    destruct (value_to_index p2 !! v) as [j|] eqn:Hj.
    2:{ right. split; [done|]. exists v.
        split; [by eapply list_elem_of_lookup_2|].
        intros [? Hin]%value_to_index_is_Some. congruence. }
    cbn [mbind result_bind].
    apply value_to_index_Some in Hj.
    assert (cx_any p1 p2 st1) as Hinv1.
    { destruct Hinv as [? ? Hlv Hvis]. split; [done|done|..].
      - by rewrite Hv1, length_insert.
      - intros i Hi. destruct (decide (i = cur)) as [->|Hne].
        + split; [done|]. exists v. split; [done|].
          by eapply list_elem_of_lookup_2.
        + rewrite Hv1, list_lookup_insert_ne in Hi by done.
          destruct (Hkeep i Hne) as [-> ->]. by apply Hvis. }
    destruct (IH j st1 Hinv1) as
      [(st' & Hrun & Hinv' & Hmono & Hjv)|[Hrun Hmiss]].
    { apply lookup_lt_Some in Hj. lia. }
    { unfold unvisited in *. rewrite Hv1.
      pose proof (unvisited_insert _ _ Hb). lia. }
    + left. exists st'. split; [done|]. split; [done|].
      assert (visited_indices st1 !! cur = Some true) as Hcur1.
      { rewrite Hv1. apply list_lookup_insert_eq.
        rewrite (cx_any_lenv _ _ _ Hinv). done. }
      split; [|by apply Hmono].
      intros i Hi. apply Hmono. rewrite Hv1.
      destruct (decide (i = cur)) as [->|Hne]; [congruence|].
      by rewrite list_lookup_insert_ne.
    + right. by split.
Qed.

Lemma cx_cycles_any (idxs : list nat) st :
  cx_any p1 p2 st → Forall (λ i, i < length p1) idxs →
  (∃ st', cx_cycles (length p1) idxs p1 p2 (value_to_index p2) st = Ok st'
     ∧ cx_any p1 p2 st'
     ∧ (∀ i, visited_indices st !! i = Some true →
          visited_indices st' !! i = Some true)
     ∧ (∀ i, i ∈ idxs → visited_indices st' !! i = Some true))
  ∨ (cx_cycles (length p1) idxs p1 p2 (value_to_index p2) st
       = Raise KeyError
     ∧ ∃ g, g ∈ p1 ∧ g ∉ p2).
Proof.
  revert st. induction idxs as [|idx idxs IH]; intros st Hinv Hidxs.
  { left. exists st. split; [done|]. split; [done|]. split; [done|].
    by intros ? ?%elem_of_nil. }
  apply Forall_cons in Hidxs as [Hidx Hidxs].
  destruct (lookup_lt_is_Some_2 (visited_indices st) idx) as [b Hb].
  { rewrite (cx_any_lenv _ _ _ Hinv). done. }
  cbn [cx_cycles]. rewrite (py_getitem_Some _ _ _ Hb).
  cbn [mbind result_bind]. destruct b.
  - destruct (IH st Hinv Hidxs) as
      [(st' & Hrun & Hinv' & Hmono & Hall)|[Hrun Hmiss]]; [|by right].
    left. exists st'. split; [done|]. split; [done|]. split; [done|].
    intros i [->|Hi]%elem_of_cons; [by apply Hmono|by apply Hall].
  - assert (cx_any p1 p2 (next_cycle st)) as Hnext
      by (by destruct Hinv).
    destruct (cx_cycle_any (length p1) idx (next_cycle st) Hnext Hidx)
      as [(st1 & -> & Hinv1 & Hmono1 & Hidx1)|[-> Hmiss]].
    { etrans; [apply unvisited_le|]. cbn.
      by rewrite (cx_any_lenv _ _ _ Hinv). }
    2:{ right. by split. }
    cbn [mbind result_bind].
    destruct (IH st1 Hinv1 Hidxs) as
      [(st' & Hrun & Hinv' & Hmono & Hall)|[Hrun Hmiss]]; [|by right].
    left. exists st'. split; [done|]. split; [done|]. split.
    + intros i Hi. by apply Hmono, Hmono1.
    + intros i [->|Hi]%elem_of_cons; [by apply Hmono|by apply Hall].
Qed.

Lemma cx_recombine_any :
  (∃ st, cx_recombine p1 p2 = Ok st
     ∧ length (c1_gen st) = length p1 ∧ length (c2_gen st) = length p1
     ∧ (∀ i, i < length p1 →
          (c1_gen st !! i = p1 !! i ∧ c2_gen st !! i = p2 !! i)
          ∨ (c1_gen st !! i = p2 !! i ∧ c2_gen st !! i = p1 !! i))
     ∧ ∀ g, g ∈ p1 → g ∈ p2)
  ∨ (cx_recombine p1 p2 = Raise KeyError ∧ ∃ g, g ∈ p1 ∧ g ∉ p2).
Proof.
  unfold cx_recombine. cbv zeta.
  destruct (cx_cycles_any (seq 0 (length p1))
              {| c1_gen := replicate (length p1) None;
                 c2_gen := replicate (length p1) None;
                 visited_indices := replicate (length p1) false;
                 cycle_num := 0; assigned := [] |})
    as [(st & Hrun & Hinv & _ & Hall)|[Hrun Hmiss]]; [| |left|by right].
  { split; cbn; rewrite ?length_replicate; try done.
    intros i Hi. apply lookup_replicate in Hi as [? _]. done. }
  { apply Forall_forall. intros i ?%elem_of_seq. lia. }
  exists st. split; [done|].
  split; [apply Hinv|]. split; [apply Hinv|]. split.
  - intros i Hi. apply (cx_any_visited _ _ _ Hinv), Hall, elem_of_seq. lia.
  - intros g [i Hi]%list_elem_of_lookup.
    destruct (cx_any_visited _ _ _ Hinv i) as [_ (v & Hv & Hin)].
    { apply Hall, elem_of_seq. apply lookup_lt_Some in Hi. lia. }
    congruence.
Qed.
End CxTotal.

(** X15.  The crossover step of [CycleCrossover.__call__] on any two
    genotypes of one length, permutations or not.  Its [while] loop always
    ends.  If every gene of the first parent occurs in the second, the
    step returns two children of the parents' length that hold at each
    position the genes of the two parents at that position, one each.
    If some gene of the first parent does not occur in the second, the
    step raises [KeyError]. *)
Theorem cycle_crossover_any_parents (p1 p2 : list (option A)) :
  length p1 = length p2 →
  ((∀ g, g ∈ p1 → g ∈ p2) →
   ∃ st, cx_recombine p1 p2 = Ok st
     ∧ length (c1_gen st) = length p1 ∧ length (c2_gen st) = length p1
     ∧ ∀ i, i < length p1 →
         (c1_gen st !! i = p1 !! i ∧ c2_gen st !! i = p2 !! i)
         ∨ (c1_gen st !! i = p2 !! i ∧ c2_gen st !! i = p1 !! i))
  ∧ ((∃ g, g ∈ p1 ∧ g ∉ p2) → cx_recombine p1 p2 = Raise KeyError).
Proof.
  intros Hlen. split.
  - intros Hall.
    destruct (cx_recombine_any p1 p2 Hlen) as
      [(st & Hrun & Hl1 & Hl2 & Hpos & _)|[_ (g & Hg & Hng)]].
    + by exists st.
    + destruct Hng. by apply Hall.
  - intros (g & Hg & Hng).
    destruct (cx_recombine_any p1 p2 Hlen) as
      [(st & _ & _ & _ & _ & Hall)|[Hrun _]]; [|done].
    destruct Hng. by apply Hall.
Qed.

(** *** Ordered crossover on any two genotypes of one length *)

(** The loop of [_create_child] on any genotype [p2]: it never raises; it
    writes genes of [p2] that are not in the swath, and as long as the
    write position is outside of [start .. end_] it leaves these positions
    as they are. *)
Lemma ox_fill_any (p2 : list (option A)) (sw : gset (option A))
    (n start end_ : nat) :
  length p2 = n → start ≤ end_ < n →
  ∀ fuel c r w,
    length c = n → r < n → w < n →
    ∃ c', ox_fill fuel p2 sw n start c r w = Ok c'
      ∧ length c' = n
      ∧ (∀ i x, c' !! i = Some x →
           c !! i = Some x ∨ (x ∈ p2 ∧ x ∉ sw))
      ∧ (w < start ∨ end_ < w →
         ∀ i, start ≤ i ≤ end_ → c' !! i = c !! i).
Proof.
  intros Hp2 Hse fuel.
  induction fuel as [|fuel IH]; intros c r w Hc Hr Hw.
  { exists c. split; [done|]. split; [done|]. split; [by left|done]. }
  destruct (lookup_lt_is_Some_2 p2 r) as [gene Hgene]; [lia|].
  cbn [ox_fill]. rewrite (py_getitem_Some _ _ _ Hgene).
  cbn [mbind result_bind].
  assert (∀ x, py_mod x n = Ok (x `mod` n)) as Hmod.
  { intros x. unfold py_mod. by rewrite decide_False by lia. }
  assert (∀ x, x `mod` n < n) as Hlt by (intros x; apply Nat.mod_upper_bound; lia).
  destruct (decide (gene ∉ sw)) as [Hout|Hin]; cbn [mbind result_bind].
  - unfold py_setitem. rewrite decide_True by lia.
    cbn [mbind result_bind]. rewrite !Hmod. cbn [mbind result_bind fst snd].
    assert (∀ i x, <[w:=gene]> c !! i = Some x →
              c !! i = Some x ∨ (x ∈ p2 ∧ x ∉ sw)) as Hcontent.
    { intros i x Hi. destruct (decide (i = w)) as [->|Hne].
      - rewrite list_lookup_insert_eq in Hi by lia. injection Hi as <-.
        right. split; [by eapply list_elem_of_lookup_2|done].
      - rewrite list_lookup_insert_ne in Hi by done. by left. }
    assert (w < start ∨ end_ < w →
            ∀ i, start ≤ i ≤ end_ → <[w:=gene]> c !! i = c !! i) as Hswath.
    { intros Hw' i Hi. apply list_lookup_insert_ne. lia. }
    case_decide as Hstop.
    { exists (<[w:=gene]> c). split; [done|].
      split; [by rewrite length_insert|]. by split. }
    destruct (IH (<[w:=gene]> c) ((r + 1) `mod` n) ((w + 1) `mod` n))
      as (c' & Hrun & Hlen' & Hcont' & Hsw'); [by rewrite length_insert|done..|].
    exists c'. split; [done|]. split; [done|]. split.
    + intros i x Hi. destruct (Hcont' i x Hi) as [Hi'|?]; [|by right].
      by apply Hcontent.
    + intros Hw' i Hi. rewrite Hsw'; [by apply Hswath| |done].
      destruct (decide (w + 1 = n)) as [Hwrap|Hwrap].
      * rewrite Hwrap, Nat.Div0.mod_same in *. lia.
      * rewrite Nat.mod_small in * by lia. lia.
  - rewrite !Hmod. cbn [mbind result_bind fst snd].
    case_decide as Hstop.
    { exists c. split; [done|]. split; [done|]. split; [by left|done]. }
    destruct (IH c ((r + 1) `mod` n) w) as (c' & Hrun & Hlen' & Hcont' & Hsw');
      [done..|].
    by exists c'.
Qed.

Lemma create_child_any (p1 p2 : list (option A)) (start end_ : nat) :
  let swath := py_slice p1 start (end_ + 1) in
  length p1 = length p2 → start ≤ end_ < length p1 →
  ∃ child,
    _create_child p1 p2 start end_ = Ok child
    ∧ length child = length p1
    ∧ (∀ i x, child !! i = Some x →
         x = None
         ∨ (start ≤ i ≤ end_ ∧ p1 !! i = Some x)
         ∨ (x ∈ p2 ∧ x ∉ swath))
    ∧ (end_ + 1 - start < length p1 →
       ∀ i, start ≤ i ≤ end_ → child !! i = p1 !! i).
Proof.
  intros swath Hlen Hse. unfold _create_child. cbv zeta.
  rewrite ox_initial_child by done. fold swath.
  pose proof (length_py_slice_swath p1 start end_ Hse) as Hsw.
  fold swath in Hsw.
  set (c0 := replicate start None ++ swath
             ++ replicate (length p1 - (end_ + 1)) None).
  assert (length c0 = length p1) as Hc0.
  { unfold c0. rewrite !length_app, !length_replicate. lia. }
  assert (py_slice c0 start (end_ + 1) = swath) as Hslice.
  { unfold py_slice, c0.
    rewrite drop_app_length' by (by rewrite length_replicate).
    rewrite take_app_length' by lia. done. }
  rewrite Hslice. unfold py_mod. rewrite decide_False by lia.
  cbn [mbind result_bind].
  assert ((end_ + 1) `mod` length p1 < length p1) as Hw
    by (apply Nat.mod_upper_bound; lia).
  destruct (ox_fill_any p2 (list_to_set swath) (length p1) start end_
              (eq_sym Hlen) Hse (length p1) c0
              ((end_ + 1) `mod` length p1) ((end_ + 1) `mod` length p1)
              Hc0 Hw Hw) as (child & Hrun & Hlenc & Hcont & Hkeep).
  exists child. split; [done|]. split; [done|].
  assert (∀ i, start ≤ i ≤ end_ → c0 !! i = p1 !! i) as Hc0sw.
  { intros i Hi. unfold c0.
    rewrite lookup_app_r by (rewrite length_replicate; lia).
    rewrite length_replicate, lookup_app_l by lia.
    unfold swath, py_slice. rewrite lookup_take_lt by lia.
    rewrite lookup_drop. f_equal. lia. }
  split.
  - intros i x Hi. destruct (Hcont i x Hi) as [Hi0|[Hin Hout]].
    + destruct (decide (start ≤ i ≤ end_)) as [Hin|Hout].
      * right. left. split; [done|]. by rewrite <-Hc0sw.
      * left. unfold c0 in Hi0.
        apply lookup_app_Some in Hi0 as [Hi0|[Hge Hi0]].
        { by apply lookup_replicate in Hi0 as [-> _]. }
        rewrite length_replicate in Hge, Hi0.
        apply lookup_app_Some in Hi0 as [Hi0|[Hge' Hi0]].
        { apply lookup_lt_Some in Hi0. lia. }
        by apply lookup_replicate in Hi0 as [-> _].
    + right. right. split; [done|]. intros Hx. apply Hout.
      by apply elem_of_list_to_set.
  - intros Hpart i Hi. rewrite Hkeep; [by apply Hc0sw| |done].
    destruct (decide (end_ + 1 = length p1)) as [Hwrap|Hwrap].
    + rewrite Hwrap, Nat.Div0.mod_same. lia.
    + rewrite Nat.mod_small by lia. lia.
Qed.

(** X16.  [OrderedCrossover._create_child] on any two genotypes of one
    length, permutations or not, and cut points [start <= end < length]:
    it never raises and returns a child of the parents' length, each
    position of which holds [None], the gene of the first parent at that
    position of the swath, or a gene of the second parent that is not in
    the swath.  Unless the swath is the whole genotype, the child has the
    genes of the first parent at the positions [start .. end].  On empty
    genotypes the helper raises [ZeroDivisionError]. *)
Theorem ordered_crossover_any_parents (p1 p2 : list (option A))
    (start end_ : nat) :
  let swath := py_slice p1 start (end_ + 1) in
  (length p1 = length p2 → start ≤ end_ < length p1 →
   ∃ child,
     _create_child p1 p2 start end_ = Ok child
     ∧ length child = length p1
     ∧ (∀ i x, child !! i = Some x →
          x = None
          ∨ (start ≤ i ≤ end_ ∧ p1 !! i = Some x)
          ∨ (x ∈ p2 ∧ x ∉ swath))
     ∧ (end_ + 1 - start < length p1 →
        ∀ i, start ≤ i ≤ end_ → child !! i = p1 !! i))
  ∧ (p1 = [] → _create_child p1 p2 start end_ = Raise ZeroDivisionError).
Proof.
  intros swath. split; [apply create_child_any|by intros ->].
Qed.

(** *** [OrderedCrossover.__call__] on any parents *)

Lemma OrderedCrossover_pairs_total (rate : Q) parents s :
  paired same_length parents →
  ∃ offspring s',
    OrderedCrossover_pairs rate parents s = Ok (offspring, s')
    ∧ offspring_of
        (λ pa pb c1 c2, cloned pa pb c1 c2 ∨ ox_recombined pa pb c1 c2)
        parents offspring.
Proof.
  apply OrderedCrossover_pairs_Ok. intros a b s0 Hlen.
  split; [done|]. split; [by left|]. split; [by left|].
  intros _ _ start end_ Hse.
  destruct (create_child_any (genotype a) (genotype b) start end_ Hlen)
    as (c1 & Hc1 & _); [lia|].
  destruct (create_child_any (genotype b) (genotype a) start end_)
    as (c2 & Hc2 & _); [done|unfold same_length in Hlen; lia|].
  exists c1, c2. split; [done|]. split; [done|]. right.
  by exists start, end_.
Qed.

Lemma OrderedCrossover_pairs_ValueError (rate : Q) parents s :
  ¬ paired same_length parents →
  OrderedCrossover_pairs rate parents s = Raise ValueError.
Proof.
  revert s. induction parents as [|a|a b parents IH] using pair_ind;
    intros s Hp.
  - by destruct Hp.
  - by destruct Hp.
  - destruct (decide (same_length a b)) as [Hlen|Hlen].
    + assert (¬ paired same_length parents) as Hrest
        by (intros Hrest; apply Hp; by split).
      destruct (OrderedCrossover_pairs_step
                  (λ _ _ _ _, True) rate a b parents s Hlen)
        as (c1 & c2 & s1' & _ & ->); [done|done| |].
      { intros _ _ start end_ Hse.
        destruct (create_child_any (genotype a) (genotype b) start end_ Hlen)
          as (c1 & Hc1 & _); [lia|].
        destruct (create_child_any (genotype b) (genotype a) start end_)
          as (c2 & Hc2 & _); [done|unfold same_length in Hlen; lia|].
        by exists c1, c2. }
      by rewrite (M_bind_Raise _ _ _ _ (IH s1' Hrest)).
    + cbn [OrderedCrossover_pairs]. by rewrite decide_True.
Qed.

(** X17.  [OrderedCrossover.__call__] on any list of parents, whatever
    their genes: if the two parents of every pair have genotypes of one
    length, the call returns, with one fresh offspring per parent, the two
    offspring of a pair being copies of the parents or their two children
    at two cut points [start < end]; otherwise it raises [ValueError].
    It raises nothing else. *)
Theorem ordered_crossover_call_total (rate_schedule : schedule) parents
    (current_generation : Z) (s : rng) :
  (paired same_length parents →
   ∃ offspring s',
     OrderedCrossover_call rate_schedule parents current_generation s
       = Ok (offspring, s')
     ∧ length offspring = length parents
     ∧ offspring_of
         (λ pa pb c1 c2, cloned pa pb c1 c2 ∨ ox_recombined pa pb c1 c2)
         parents offspring)
  ∧ (¬ paired same_length parents →
     OrderedCrossover_call rate_schedule parents current_generation s
       = Raise ValueError).
Proof.
  split.
  - intros Hp.
    destruct (OrderedCrossover_pairs_total
                (resolve rate_schedule current_generation) parents s Hp)
      as (offspring & s' & Hrun & Hoff).
    exists offspring, s'. split; [done|]. split; [|done].
    by eapply offspring_of_length.
  - apply OrderedCrossover_pairs_ValueError.
Qed.

(** *** The two ends of the crossover rate *)

Lemma Qlt_b_negative_rate `{!UnitRandom rng} (rate : Q) s :
  (rate < 0)%Q → Qlt_b rate (random_random s).1 = true.
Proof.
  intros Hr. destruct (random_unit s) as [Hu0 _].
  unfold Qlt_b. apply negb_true_iff, not_true_is_false.
  rewrite Qle_bool_iff. intros Hle.
  apply (Qlt_irrefl rate). eapply Qlt_le_trans; [exact Hr|].
  by eapply Qle_trans.
Qed.

Lemma Qlt_b_full_rate `{!UnitRandom rng} (rate : Q) s :
  (1 <= rate)%Q → Qlt_b rate (random_random s).1 = false.
Proof.
  intros Hr. destruct (random_unit s) as [_ Hu1].
  unfold Qlt_b. apply negb_false_iff, Qle_bool_iff.
  apply Qlt_le_weak. by eapply Qlt_le_trans.
Qed.

Lemma paired_and {T : Type} (R1 R2 : relation T) (l : list T) :
  paired R1 l → paired R2 l → paired (λ x y, R1 x y ∧ R2 x y) l.
Proof.
  induction l as [|x|x y l IH] using pair_ind; [done..|].
  intros [? ?] [? ?]. split; [done|]. by apply IH.
Qed.

(** X18.  The two ends of the crossover rate, on parents whose pairs have
    genotypes of one length (the test is [random.random() > rate], and
    [random.random()] lies in [0, 1)).  With a negative rate both
    crossover operators return a fresh copy of every parent.  With a rate
    of 1 or more no pair is copied: ordered crossover recombines every
    pair of two genes or more, cycle crossover recombines every pair when
    the genes of the first parent of each pair occur in the second, and
    raises [KeyError] when the first pair has a gene of its first parent
    that its second parent does not have. *)
Theorem crossover_rate_ends `{!UnitRandom rng} (rate_schedule : schedule)
    parents (current_generation : Z) (s : rng) :
  let rate := resolve rate_schedule current_generation in
  let copies := (λ p, Individual_init (genotype p)) <$> parents in
  paired same_length parents →
  ((rate < 0)%Q →
   (∃ s', OrderedCrossover_call rate_schedule parents current_generation s
            = Ok (copies, s'))
   ∧ (∃ s', CycleCrossover_call rate_schedule parents current_generation s
              = Ok (copies, s')))
  ∧ ((1 <= rate)%Q →
     (∃ offspring s',
        OrderedCrossover_call rate_schedule parents current_generation s
          = Ok (offspring, s')
        ∧ offspring_of
            (λ pa pb c1 c2,
               if decide (length pa < 2) then cloned pa pb c1 c2
               else ox_recombined pa pb c1 c2)
            parents offspring)
     ∧ (paired (λ a b, ∀ g, g ∈ genotype a → g ∈ genotype b) parents →
        ∃ offspring s',
          CycleCrossover_call rate_schedule parents current_generation s
            = Ok (offspring, s')
          ∧ offspring_of cx_recombined parents offspring)
     ∧ (∀ a b rest, parents = a :: b :: rest →
        (∃ g, g ∈ genotype a ∧ g ∉ genotype b) →
        CycleCrossover_call rate_schedule parents current_generation s
          = Raise KeyError)).
Proof.
  intros rate copies Hp. split.
  - intros Hr. split.
    + destruct (OrderedCrossover_pairs_Ok same_length
                  (λ pa pb c1 c2, c1 = pa ∧ c2 = pb) rate)
        with (parents := parents) (s := s) as (offspring & s' & Hrun & Hoff);
        [|exact Hp|].
      * intros a b s0 Hlen. split; [done|]. split; [done|]. split; [done|].
        intros _ Hdraw. by rewrite Qlt_b_negative_rate in Hdraw.
      * apply offspring_of_clones in Hoff as ->. by exists s'.
    + destruct (CycleCrossover_pairs_Ok same_length
                  (λ pa pb c1 c2, c1 = pa ∧ c2 = pb) rate)
        with (parents := parents) (s := s) as (offspring & s' & Hrun & Hoff);
        [|exact Hp|].
      * intros a b s0 Hlen. split; [done|]. split; [done|].
        intros Hdraw. by rewrite Qlt_b_negative_rate in Hdraw.
      * apply offspring_of_clones in Hoff as ->. by exists s'.
  - intros Hr. split; [|split].
    + apply (OrderedCrossover_pairs_Ok same_length); [|done].
      intros a b s0 Hlen. split; [done|].
      split; [intros ?; cbv beta; by rewrite decide_True|].
      split; [intros _ Hdraw; by rewrite Qlt_b_full_rate in Hdraw|].
      intros Hlong _ start end_ Hse.
      destruct (create_child_any (genotype a) (genotype b) start end_ Hlen)
        as (c1 & Hc1 & _); [lia|].
      destruct (create_child_any (genotype b) (genotype a) start end_)
        as (c2 & Hc2 & _); [done|unfold same_length in Hlen; lia|].
      exists c1, c2. split; [done|]. split; [done|].
      rewrite decide_False by lia. by exists start, end_.
    + intros Hgenes.
      apply (CycleCrossover_pairs_Ok
               (λ a b, same_length a b
                       ∧ ∀ g, g ∈ genotype a → g ∈ genotype b));
        [|by apply paired_and].
      intros a b s0 [Hlen Hsub]. split; [done|].
      split; [intros Hdraw; by rewrite Qlt_b_full_rate in Hdraw|].
      intros _.
      destruct (cx_recombine_any (genotype a) (genotype b) Hlen) as
        [(st & Hrun & _)|[_ (g & Hg & Hng)]].
      * exists st. split; [done|]. by exists st.
      * destruct Hng. by apply Hsub.
    + intros a b rest -> Hmiss. destruct Hp as [Hlen _].
      apply CycleCrossover_pairs_Raise; [done|by apply Qlt_b_full_rate|].
      destruct (cx_recombine_any (genotype a) (genotype b) Hlen) as
        [(st & _ & _ & _ & _ & Hall)|[Hrun _]]; [|done].
      destruct Hmiss as (g & Hg & Hng). destruct Hng. by apply Hall.
Qed.
End CrossoverMore.


Lemma crossover_call_offspring_witness :
  ∃ o1 o2 s1 s2,
    OrderedCrossover_call (Fixed 1)
        [Individual_init scenario_parent1; Individual_init scenario_parent2;
         Individual_init scenario_parent1] 1 0
      = Ok (o1, s1)
    ∧ length o1 = 3
    ∧ CycleCrossover_call (Fixed 1)
        [Individual_init scenario_parent1; Individual_init scenario_parent2;
         Individual_init scenario_parent1] 1 0
      = Ok (o2, s2)
    ∧ length o2 = 3.
Proof.
  destruct (crossover_call_offspring (rng:=nat) (Fixed 1)
              [Individual_init scenario_parent1;
               Individual_init scenario_parent2;
               Individual_init scenario_parent1] 1 0)
    as [(o1 & s1 & H1 & _ & L1) (o2 & s2 & H2 & _ & L2)].
  - split; [|exact I]. split; compute_done.
  - exists o1, o2, s1, s2. exact (conj H1 (conj L1 (conj H2 L2))).
Defined.

Lemma crossover_identical_parents_witness :
  (∃ s',
     OrderedCrossover_call (Fixed 1)
         [Individual_init scenario_parent1; Individual_init scenario_parent1]
         1 0
       = Ok ([Individual_init scenario_parent1;
              Individual_init scenario_parent1], s'))
  ∧ (∃ s',
       CycleCrossover_call (Fixed 1)
           [Individual_init scenario_parent1;
            Individual_init scenario_parent1] 1 0
         = Ok ([Individual_init scenario_parent1;
                Individual_init scenario_parent1], s')).
Proof.
  apply (crossover_identical_parents (rng:=nat) (Fixed 1)
           [Individual_init scenario_parent1;
            Individual_init scenario_parent1] 1 0).
  split; [|exact I]. split; [compute_done|reflexivity].
Defined.

Lemma cycle_crossover_any_parents_witness :
  (∃ st, cx_recombine [Some 1; Some 1; Some 2]%Z [Some 2; Some 1; Some 3]%Z
           = Ok st
     ∧ length (c1_gen st) = 3)
  ∧ cx_recombine [Some 1; Some 2]%Z [Some 1; Some 3]%Z = Raise KeyError.
Proof.
  split.
  - destruct (cycle_crossover_any_parents
                [Some 1; Some 1; Some 2]%Z [Some 2; Some 1; Some 3]%Z
                eq_refl) as [Hok _].
    destruct Hok as (st & Hrun & Hl1 & _).
    + assert ([Some 1; Some 1; Some 2]%Z ⊆ [Some 2; Some 1; Some 3]%Z)
        as Hsub by compute_done.
      exact Hsub.
    + exists st. exact (conj Hrun Hl1).
  - destruct (cycle_crossover_any_parents
                [Some 1; Some 2]%Z [Some 1; Some 3]%Z eq_refl) as [_ Herr].
    apply Herr. exists (Some 2%Z). split; compute_done.
Defined.

Lemma ordered_crossover_any_parents_witness :
  ∃ child,
    _create_child [Some 1; Some 2; Some 3]%Z [Some 2; Some 2; Some 2]%Z 0 1
      = Ok child
    ∧ length child = 3
    ∧ (∀ i, 0 ≤ i ≤ 1 →
         child !! i = [Some 1; Some 2; Some 3]%Z !! i).
Proof.
  destruct (ordered_crossover_any_parents
              [Some 1; Some 2; Some 3]%Z [Some 2; Some 2; Some 2]%Z 0 1)
    as [Hok _].
  destruct Hok as (child & Hrun & Hlen & _ & Hkeep).
  - reflexivity.
  - simpl. lia.
  - exists child. split; [exact Hrun|]. split; [exact Hlen|].
    apply Hkeep. simpl. lia.
Defined.

Lemma ordered_crossover_call_total_witness :
  (∃ offspring s',
     OrderedCrossover_call (Fixed 1)
         [Individual_init [Some 1; Some 2]%Z; Individual_init [Some 3; Some 4]%Z;
          Individual_init [Some 5%Z]] 1 0
       = Ok (offspring, s')
     ∧ length offspring = 3)
  ∧ OrderedCrossover_call (Fixed 1)
        [Individual_init [Some 1%Z]; Individual_init [Some 1; Some 2]%Z] 1 0
    = Raise ValueError.
Proof.
  split.
  - destruct (ordered_crossover_call_total (rng:=nat) (Fixed 1)
                [Individual_init [Some 1; Some 2]%Z;
                 Individual_init [Some 3; Some 4]%Z;
                 Individual_init [Some 5%Z]] 1 0) as [Hok _].
    destruct Hok as (offspring & s' & Hrun & Hlen & _).
    + split; [reflexivity|exact I].
    + exists offspring, s'. exact (conj Hrun Hlen).
  - destruct (ordered_crossover_call_total (rng:=nat) (Fixed 1)
                [Individual_init [Some 1%Z];
                 Individual_init [Some 1; Some 2]%Z] 1 0) as [_ Herr].
    apply Herr. intros [Hlen _]. discriminate Hlen.
Defined.

Lemma crossover_rate_ends_witness :
  (∃ s',
     CycleCrossover_call (Fixed (-1))
         [Individual_init [Some 1; Some 2]%Z; Individual_init [Some 3; Some 4]%Z]
         1 0
       = Ok ([Individual_init [Some 1; Some 2]%Z;
              Individual_init [Some 3; Some 4]%Z], s'))
  ∧ CycleCrossover_call (Fixed 1)
        [Individual_init [Some 1; Some 2]%Z; Individual_init [Some 3; Some 4]%Z]
        1 0
    = Raise KeyError.
Proof.
  destruct (crossover_rate_ends (rng:=nat) (Fixed (-1))
              [Individual_init [Some 1; Some 2]%Z;
               Individual_init [Some 3; Some 4]%Z] 1 0) as [Hneg _].
  { split; [reflexivity|exact I]. }
  destruct (crossover_rate_ends (rng:=nat) (Fixed 1)
              [Individual_init [Some 1; Some 2]%Z;
               Individual_init [Some 3; Some 4]%Z] 1 0) as [_ Hfull].
  { split; [reflexivity|exact I]. }
  split.
  - destruct Hneg as [_ Hcx]; [reflexivity|]. exact Hcx.
  - destruct Hfull as (_ & _ & Herr); [discriminate|].
    apply (Herr _ _ [] eq_refl). exists (Some 1%Z). split; compute_done.
Defined.


(** ** The logger *)

Section LoggerFacts.
Context {G stat : Type} (str : G → string).
Implicit Types (lg : Logger) (out : list (io_event stat)).
Implicit Types (h : History stat) (b : Individual G).

(** What [__init__] leaves: the interval is at least 1; a silent logger
    has no stream; another one has the stream of its [log_file], and a
    file handle exactly when that stream is a file. *)
Lemma Logger_init_inv (lvl : LogLevel) (log_file : option string) (n : Z)
    out :
  let r := Logger_init lvl log_file n out in
  level r.1 = lvl
  ∧ verbose_every_n r.1 = (1 `max` n)%Z
  ∧ (lvl = NONE →
     _output_stream r.1 = None ∧ _file_handle r.1 = None ∧ r.2 = out)
  ∧ (lvl ≠ NONE →
     _output_stream r.1 = Some (stream_of log_file)
     ∧ match stream_of log_file with
       | file_object path =>
           _file_handle r.1 = Some path ∧ r.2 = out ++ [io_open path]
       | _ => _file_handle r.1 = None ∧ r.2 = out
       end).
Proof.
  unfold Logger_init, stream_of. cbv zeta.
  destruct (decide (lvl = NONE)) as [->|Hlvl]; [by repeat split|].
  destruct log_file as [path|]; [|by repeat split].
  destruct (decide (path = "stderr")); [by repeat split|].
  destruct (decide (path = EmptyString)); by repeat split.
Qed.

Lemma py_last_Some {T : Type} (l : list T) (x : T) :
  last l = Some x → py_last l = Ok x.
Proof. unfold py_last. by intros ->. Qed.

Lemma py_last_nil {T : Type} : py_last ([] : list T) = Raise IndexError.
Proof. done. Qed.

Lemma last_is_Some {T : Type} (l : list T) : l ≠ [] → is_Some (last l).
Proof.
  intros Hne. destruct (last l) eqn:Hl; [by eexists|].
  by apply last_None in Hl.
Qed.

(** [log_generation] on a logger whose interval is at least 1. *)
Lemma Logger_log_generation_spec lg (gen : Z) h b out :
  (1 ≤ verbose_every_n lg)%Z →
  let due :=
    level lg = VERBOSE ∧ (gen `mod` verbose_every_n lg = 0)%Z in
  (¬ due → Logger_log_generation lg gen h b out = Ok out)
  ∧ (due → ∀ best mean std worst,
       last (best_fitness h) = Some best →
       last (mean_fitness h) = Some mean →
       last (std_fitness h) = Some std →
       last (worst_fitness h) = Some worst →
       Logger_log_generation lg gen h b out
       = Ok (Logger_write lg (line_generation gen best mean std worst) out))
  ∧ (due →
     best_fitness h = [] ∨ mean_fitness h = [] ∨ std_fitness h = []
     ∨ worst_fitness h = [] →
     Logger_log_generation lg gen h b out = Raise IndexError)
  ∧ Logger_log_generation lg gen h b out ≠ Raise ZeroDivisionError.
Proof.
  intros Hn due. unfold Logger_log_generation, py_mod_int.
  destruct (decide (level lg ≠ VERBOSE)) as [Hlvl|Hlvl].
  { split; [done|]. split; [by intros [? _]|]. split; [by intros [? _]|done]. }
  apply dec_stable in Hlvl.
  rewrite decide_False by lia. cbn [mbind result_bind].
  destruct (decide (gen `mod` verbose_every_n lg = 0)%Z) as [Hdue|Hdue].
  2:{ split; [done|]. split; [by intros [_ ?]|].
      split; [by intros [_ ?]|done]. }
  split; [intros Hnot; destruct Hnot; by split|]. split; [|split].
  - intros _ best mean std worst H1 H2 H3 H4.
    by rewrite (py_last_Some _ _ H1), (py_last_Some _ _ H2),
      (py_last_Some _ _ H3), (py_last_Some _ _ H4).
  - intros _ Hempty. unfold py_last.
    destruct (last (best_fitness h)) eqn:H1; [|done].
    destruct (last (mean_fitness h)) eqn:H2; [|done].
    destruct (last (std_fitness h)) eqn:H3; [|done].
    destruct (last (worst_fitness h)) eqn:H4; [|done].
    destruct Hempty as [He|[He|[He|He]]]; rewrite He in *; done.
  - unfold py_last.
    destruct (last (best_fitness h)); [|done].
    destruct (last (mean_fitness h)); [|done].
    destruct (last (std_fitness h)); [|done].
    by destruct (last (worst_fitness h)).
Qed.

(** X19.  [Logger.log_generation] on a logger as [__init__] makes it,
    whatever its arguments: the call writes, and writes one line, exactly
    when the level is VERBOSE and the generation is a multiple of
    [max(1, verbose_every_n)]; the line goes to the stream of the logger
    and holds the last entries of the history lists; the call raises
    [IndexError] when it is to write and one of these lists is empty, and
    it never raises [ZeroDivisionError], not even for an interval of 0 or
    less. *)
Theorem logger_generation_line (lvl : LogLevel) (log_file : option string)
    (n gen : Z) h b out0 out :
  let lg := (Logger_init lvl log_file n out0).1 in
  let due := lvl = VERBOSE ∧ (gen `mod` (1 `max` n) = 0)%Z in
  (¬ due → Logger_log_generation lg gen h b out = Ok out)
  ∧ (due → ∀ best mean std worst,
       last (best_fitness h) = Some best →
       last (mean_fitness h) = Some mean →
       last (std_fitness h) = Some std →
       last (worst_fitness h) = Some worst →
       Logger_log_generation lg gen h b out
       = Ok (out ++ [io_write (stream_of log_file)
                       (line_generation gen best mean std worst)]))
  ∧ (due →
     best_fitness h = [] ∨ mean_fitness h = [] ∨ std_fitness h = []
     ∨ worst_fitness h = [] →
     Logger_log_generation lg gen h b out = Raise IndexError)
  ∧ Logger_log_generation lg gen h b out ≠ Raise ZeroDivisionError.
Proof.
  intros lg due.
  destruct (Logger_init_inv lvl log_file n out0) as (Hlvl & Hn & _ & Hstream).
  fold lg in Hlvl, Hn, Hstream.
  destruct (Logger_log_generation_spec lg gen h b out)
    as (Hskip & Hwrite & Herr & Hzero); [lia|].
  rewrite Hlvl, Hn in Hskip, Hwrite, Herr.
  split; [done|]. split; [|by split].
  intros Hdue best mean std worst H1 H2 H3 H4.
  rewrite (Hwrite Hdue best mean std worst H1 H2 H3 H4).
  unfold Logger_write. destruct Hdue as [-> _].
  destruct Hstream as [-> _]; done.
Qed.

Section Receive.
Context (parent_selection reproduction survivor_selection : string).
Abbreviation receive :=
  (Logger_receive str parent_selection reproduction survivor_selection).
Abbreviation replay :=
  (Logger_replay str parent_selection reproduction survivor_selection).

(** A logger without a stream writes nothing. *)
Lemma Logger_write_closed lg (message : line stat) out :
  _output_stream lg = None → Logger_write lg message out = out.
Proof. unfold Logger_write. by intros ->. Qed.

Lemma Logger_log_start_closed lg (config : list (string * config_value))
    out :
  _output_stream lg = None → Logger_log_start lg config out = out.
Proof.
  intros Hs. unfold Logger_log_start. case_decide; [|done].
  rewrite Logger_write_closed by done.
  rewrite (Logger_write_closed lg line_started out) by done.
  rewrite (Logger_write_closed lg (line_level (level lg)) out) by done.
  induction config as [|kv config IH]; [done|].
  cbn [foldl]. by rewrite Logger_write_closed.
Qed.

Lemma Logger_receive_closed lg (c : logger_call G stat) out :
  _output_stream lg = None → _file_handle lg = None →
  (receive lg c out).1 = (lg, out).
Proof.
  intros Hs Hf. destruct c as [n|gen h b|best total|]; cbn.
  - by rewrite Logger_log_start_closed.
  - unfold Logger_log_generation.
    case_decide; [done|].
    destruct (py_mod_int gen (verbose_every_n lg)) as [r|]; [|done].
    cbn [mbind result_bind]. case_decide; [|done].
    destruct (py_last (best_fitness h)); [|done].
    destruct (py_last (mean_fitness h)); [|done].
    destruct (py_last (std_fitness h)); [|done].
    destruct (py_last (worst_fitness h)); [|done].
    cbn. by rewrite Logger_write_closed.
  - f_equal. unfold Logger_log_end. case_decide; [|done].
    destruct best as [b|]; [|by rewrite !Logger_write_closed].
    destruct (fitness b); by rewrite !Logger_write_closed.
  - unfold Logger_close. by rewrite Hf.
Qed.

Lemma Logger_replay_closed lg (calls : list (logger_call G stat)) out :
  _output_stream lg = None → _file_handle lg = None →
  (replay lg calls out).1 = (lg, out).
Proof.
  intros Hs Hf. induction calls as [|c calls IH]; [done|].
  cbn [Logger_replay].
  pose proof (Logger_receive_closed lg c out Hs Hf) as Hc.
  destruct (receive lg c out) as [[lg1 out1] [e|]]; [done|].
  cbn in Hc. injection Hc as -> ->. done.
Qed.

Lemma Logger_receive_silent lg (c : logger_call G stat) out :
  level lg = NONE → _file_handle lg = None →
  receive lg c out = (lg, out, None).
Proof.
  intros Hl Hf. destruct c as [n|gen h b|best total|]; cbn.
  - unfold Logger_log_start. rewrite Hl.
    by rewrite decide_False by (by intros [|]).
  - unfold Logger_log_generation. rewrite Hl. by rewrite decide_True.
  - unfold Logger_log_end. rewrite Hl.
    by rewrite decide_False by (by intros [|]).
  - unfold Logger_close. by rewrite Hf.
Qed.

(** X20.  A logger of level NONE is silent: [__init__] opens no file,
    whatever [log_file] is, and whatever calls the logger then receives,
    none of them writes, none raises, and the logger stays as it was. *)
Theorem logger_level_none (log_file : option string) (n : Z)
    (calls : list (logger_call G stat)) out0 out :
  let lg := (Logger_init NONE log_file n out0).1 in
  (Logger_init NONE log_file n out0).2 = out0
  ∧ replay lg calls out = (lg, out, None).
Proof.
  intros lg.
  destruct (Logger_init_inv NONE log_file n out0)
    as (Hlvl & _ & Hnone & _).
  destruct Hnone as (Hs & Hf & Hout); [done|]. fold lg in Hlvl, Hs, Hf.
  split; [done|].
  revert out. induction calls as [|c calls IH]; intros out; [done|].
  cbn [Logger_replay]. rewrite Logger_receive_silent by done. apply IH.
Qed.

(** X21.  The life of a logger that writes to a file (a level other than
    NONE and a [log_file] that is neither empty nor ['stderr']):
    [__init__] opens the file; [close] writes its closing line to the
    file and closes it; after that the logger writes nothing, whatever
    calls it receives, and a second [close] does nothing.  On a logger
    that writes to [sys.stdout] or [sys.stderr], [close] does nothing:
    the logger goes on writing. *)
Theorem logger_close_file (lvl : LogLevel) (log_file : option string)
    (n : Z) (calls : list (logger_call G stat)) out0 out out' :
  lvl ≠ NONE →
  let lg := (Logger_init lvl log_file n out0).1 in
  let closed := (Logger_close lg out).1 in
  (∀ path, stream_of log_file = file_object path →
     (Logger_init lvl log_file n out0).2 = out0 ++ [io_open path]
     ∧ (Logger_close lg out).2
       = out ++ [io_write (file_object path) line_closed; io_close path]
     ∧ (replay closed calls out').1 = (closed, out')
     ∧ Logger_close closed out' = (closed, out'))
  ∧ ((∀ path, stream_of log_file ≠ file_object path) →
     (Logger_init lvl log_file n out0).2 = out0
     ∧ Logger_close lg out = (lg, out)).
Proof.
  intros Hlvl lg closed.
  destruct (Logger_init_inv lvl log_file n out0) as (_ & _ & _ & Hinit).
  destruct (Hinit Hlvl) as [Hs Hf]. fold lg in Hs, Hf. split.
  - intros path Hpath. rewrite Hpath in Hs, Hf. destruct Hf as [Hf Hout].
    split; [done|].
    assert (Logger_close lg out
            = (mkLogger (level lg) (verbose_every_n lg) None None,
               out ++ [io_write (file_object path) line_closed;
                       io_close path])) as Hclose.
    { unfold Logger_close, Logger_write. rewrite Hf, Hs.
      by rewrite <-app_assoc. }
    unfold closed. rewrite Hclose. cbn [fst snd].
    split; [done|]. split; [by apply Logger_replay_closed|done].
  - intros Hnofile.
    destruct (stream_of log_file) as [| |path] eqn:Hst;
      [| |by destruct (Hnofile path)].
    + destruct Hf as [Hf Hout]. split; [done|].
      unfold Logger_close. by rewrite Hf.
    + destruct Hf as [Hf Hout]. split; [done|].
      unfold Logger_close. by rewrite Hf.
Qed.

(** *** The logger in a run of the engine *)

Lemma generation_lines_app (out out' : list (io_event stat)) :
  generation_lines (out ++ out')
  = generation_lines out ++ generation_lines out'.
Proof. unfold generation_lines. apply omap_app. Qed.

Lemma generation_lines_write lg (message : line stat) out :
  match message with line_generation _ _ _ _ _ => False | _ => True end →
  generation_lines (Logger_write lg message out) = generation_lines out.
Proof.
  intros Hm. unfold Logger_write. destruct (_output_stream lg); [|done].
  rewrite generation_lines_app. destruct message; try done;
    by rewrite app_nil_r.
Qed.

Lemma generation_lines_log_start lg (config : list (string * config_value))
    out :
  generation_lines (Logger_log_start lg config out) = generation_lines out.
Proof.
  unfold Logger_log_start. case_decide; [|done].
  rewrite generation_lines_write by done.
  assert (∀ out1, generation_lines out1 = generation_lines out →
    generation_lines
      (foldl (λ out kv,
                Logger_write lg (line_config kv.1 (config_val_str kv.2)) out)
         out1 config) = generation_lines out) as Hfold.
  { induction config as [|kv config IH]; intros out1 H1; [done|].
    cbn [foldl]. apply IH. by rewrite generation_lines_write. }
  apply Hfold. by rewrite !generation_lines_write.
Qed.

Lemma Logger_log_end_evaluated lg b (total : Z) out :
  evaluated b →
  ∃ out', Logger_log_end str lg (Some b) total out = (out', None)
    ∧ generation_lines out' = generation_lines out.
Proof.
  intros [fb Hfb]. unfold Logger_log_end. case_decide; [|by eexists].
  rewrite Hfb. eexists. split; [done|].
  by rewrite !generation_lines_write.
Qed.

Lemma generation_lines_close lg out :
  generation_lines (Logger_close lg out).2 = generation_lines out.
Proof.
  unfold Logger_close. destruct (_file_handle lg); [|done]. cbn [snd].
  rewrite generation_lines_app, generation_lines_write by done.
  apply app_nil_r.
Qed.

(** The [log_generation] calls of a run, on a logger whose interval is at
    least 1 and which has a stream if it is verbose: none raises, and the
    lines written are those of the generations that are due. *)
Lemma Logger_replay_generations lg (gens : list Z)
    (calls rest : list (logger_call G stat)) out :
  (1 ≤ verbose_every_n lg)%Z →
  (level lg = VERBOSE → is_Some (_output_stream lg)) →
  Forall2 generation_call gens calls →
  ∃ out', replay lg (calls ++ rest) out = replay lg rest out'
    ∧ generation_lines out'
      = generation_lines out
        ++ (if decide (level lg = VERBOSE)
            then filter (λ gen, (gen `mod` verbose_every_n lg = 0)%Z) gens
            else []).
Proof.
  intros Hn Hstream Hcalls. revert out.
  induction Hcalls as [|gen c gens calls Hc _ IH]; intros out.
  { exists out. split; [done|]. case_decide; by rewrite app_nil_r. }
  destruct Hc as (h & b & -> & [x1 H1] & [x2 H2] & [x3 H3] & [x4 H4]).
  destruct (Logger_log_generation_spec lg gen h b out Hn)
    as (Hskip & Hwrite & _ & _).
  cbn [app Logger_replay Logger_receive].
  destruct (decide (level lg = VERBOSE
                    ∧ (gen `mod` verbose_every_n lg = 0)%Z)) as [Hdue|Hdue].
  - rewrite (Hwrite Hdue _ _ _ _ H1 H2 H3 H4). cbn [fst snd].
    destruct (IH (Logger_write lg (line_generation gen x1 x2 x3 x4) out))
      as (out' & -> & Hlines).
    exists out'. split; [done|]. rewrite Hlines.
    destruct Hdue as [Hlvl Hmod]. rewrite !decide_True by done.
    rewrite filter_cons, decide_True by done.
    unfold Logger_write. destruct (Hstream Hlvl) as [to ->].
    rewrite generation_lines_app. cbn. by rewrite <-app_assoc.
  - rewrite (Hskip Hdue). cbn [fst snd].
    destruct (IH out) as (out' & -> & Hlines).
    exists out'. split; [done|]. rewrite Hlines.
    case_decide as Hlvl; [|done].
    rewrite filter_cons, decide_False; [done|]. intros Hmod.
    apply Hdue. by split.
Qed.

Lemma run_logger_calls {rng : Type} (np_mean np_std : list Z → stat)
    f create sp rp ss (n g : Z)
    (self0 self : EvolutionaryAlgorithm rng G stat) s res s' :
  EvolutionaryAlgorithm_init f create sp rp ss n = Ok self0 →
  run np_mean np_std self0 g s = Ok (self, res, s') →
  ∃ b calls,
    best_individual self = Some b ∧ evaluated b
    ∧ history_lengths (history self)
    ∧ logger self = log_start n :: calls ++ [log_end (Some b) g; close]
    ∧ logger_follows calls (history self).
Proof.
  intros Hinit Hrun. unfold run, run_loop in Hrun.
  apply M_bind_inv in Hrun as (self2 & s2 & Hloop & [= <- <- <-]).
  apply M_bind_inv in Hloop as (self1 & s1 & Hstart & Hloop).
  pose proof (run_init_shape _ _ _ _ _ _ _ _ _ _ _ _ Hinit Hstart) as Hshape.
  apply (run_generations_shape _ _ _ _ _ _ _ _ _ Hshape) in Hloop
    as ((b & Hb & Hev) & Hlens & _ & calls & Hlog & Hfol).
  exists b, calls. engine_simpl. rewrite Hlog, Hb.
  split; [done|]. split; [done|]. split; [done|]. split; [|done].
  cbn. by rewrite <-app_assoc.
Qed.

Lemma logger_follows_calls (calls : list (logger_call G stat)) h :
  history_lengths h → logger_follows calls h →
  Forall2 generation_call (generation h) calls.
Proof.
  intros (Hb & Hm & Hs & Hw) [Hlen Hcalls].
  apply Forall2_same_length_lookup_2; [done|].
  intros i gen c Hgen Hc.
  destruct (Hcalls i c Hc) as (gen' & b & Hgen' & -> & _).
  assert (gen' = gen) as -> by congruence.
  pose proof (lookup_lt_Some _ _ _ Hgen) as Hi.
  exists (history_take (S i) h), b. split; [done|]. cbn.
  assert (∀ T (l : list T), length l = length (generation h) →
            is_Some (last (take (S i) l))) as Hlast.
  { intros T l Hl. apply last_is_Some. destruct l; [simpl in Hl; lia|done]. }
  repeat split; by apply Hlast.
Qed.

(** X22.  A [Logger], however it was built, can be given to the engine:
    whatever the strategies, the calls that a run which returns has made
    to its logger never make the [Logger] raise (each [log_generation]
    comes with a history that has entries, [log_end] with an evaluated
    individual), and the generation lines that the logger has written are,
    for a VERBOSE logger, those of the recorded generations that are
    multiples of [max(1, verbose_every_n)], in order, and none for another
    level. *)
Theorem run_logger_lines {rng : Type} (np_mean np_std : list Z → stat)
    f create sp rp ss (n g : Z)
    (self0 self : EvolutionaryAlgorithm rng G stat) s res s'
    (lvl : LogLevel) (log_file : option string) (every : Z) out0 :
  EvolutionaryAlgorithm_init f create sp rp ss n = Ok self0 →
  run np_mean np_std self0 g s = Ok (self, res, s') →
  let lg := (Logger_init lvl log_file every out0).1 in
  let out1 := (Logger_init lvl log_file every out0).2 in
  ∃ lg' out',
    replay lg (logger self) out1 = (lg', out', None)
    ∧ generation_lines out'
      = generation_lines out0
        ++ (if decide (lvl = VERBOSE)
            then filter (λ gen, (gen `mod` (1 `max` every) = 0)%Z)
                   (generation (history self))
            else []).
Proof.
  intros Hinit Hrun lg out1.
  destruct (run_logger_calls _ _ _ _ _ _ _ _ _ _ _ _ _ _ Hinit Hrun)
    as (b & calls & Hb & Hev & Hlens & -> & Hfol).
  pose proof (logger_follows_calls calls _ Hlens Hfol) as Hcalls.
  destruct (Logger_init_inv lvl log_file every out0)
    as (Hlvl & Hn & Hnone & Hsome).
  fold lg in Hlvl, Hn, Hnone, Hsome. fold out1 in Hnone, Hsome.
  assert (generation_lines out1 = generation_lines out0) as Hout1.
  { destruct (decide (lvl = NONE)) as [Hl|Hl].
    - by destruct (Hnone Hl) as (_ & _ & ->).
    - destruct (Hsome Hl) as [_ Hst].
      destruct (stream_of log_file); destruct Hst as [_ ->]; try done.
      rewrite generation_lines_app. apply app_nil_r. }
  cbn [Logger_replay Logger_receive fst snd].
  destruct (Logger_replay_generations lg (generation (history self)) calls
              [log_end (Some b) g; close]
              (Logger_log_start lg
                 (_get_config n parent_selection reproduction
                    survivor_selection) out1))
    as (out2 & -> & Hlines); [lia| |done|].
  { intros Hv. rewrite Hlvl in Hv. destruct Hsome as [-> _]; [|done].
    by rewrite Hv. }
  cbn [Logger_replay Logger_receive].
  destruct (Logger_log_end_evaluated lg b g out2 Hev) as (out3 & -> & Hl3).
  cbn [fst snd].
  eexists _, _. split; [done|].
  rewrite generation_lines_close, Hl3, Hlines, generation_lines_log_start.
  by rewrite Hout1, Hlvl, Hn.
Qed.

(** *** The final report *)

Lemma string_length_app (s1 s2 : string) :
  String.length (s1 +:+ s2) = String.length s1 + String.length s2.
Proof.
  induction s1 as [|c s1 IH]; [done|].
  change (S (String.length (s1 +:+ s2))
          = S (String.length s1) + String.length s2).
  by rewrite IH.
Qed.

Lemma string_length_substring (m : nat) (s : string) :
  String.length (String.substring 0 m s) = m `min` String.length s.
Proof.
  revert s. induction m as [|m IH]; intros s; [by destruct s|].
  destruct s as [|c s]; [done|].
  change (S (String.length (String.substring 0 m s))
          = S (m `min` String.length s)).
  by rewrite IH.
Qed.

Lemma genotype_snippet_length (g : G) :
  String.length (genotype_snippet str g) ≤ 75
  ∧ (String.length (str g) ≤ 75 → genotype_snippet str g = str g)
  ∧ (75 < String.length (str g) →
     genotype_snippet str g = String.substring 0 70 (str g) +:+ "...]"
     ∧ String.length (genotype_snippet str g) = 74).
Proof.
  unfold genotype_snippet. cbv zeta. case_decide as Hlong.
  - rewrite string_length_app, string_length_substring.
    change (String.length "...]") with 4.
    split; [lia|]. split; [lia|]. intros _. split; [done|lia].
  - split; [lia|]. split; [done|lia].
Qed.

(** X23.  [Logger.log_end] on a logger that is not silent.  With an
    evaluated individual it writes six lines to the stream of the logger;
    the genotype is reported in full when its text has at most 75
    characters, and otherwise as the first 70 characters of the text
    followed by four more, 74 characters in all.  With [None] in place of
    the individual it raises [AttributeError], and with an individual
    without fitness [TypeError], in both cases after the first two lines
    have been written. *)
Theorem logger_end_report (lvl : LogLevel) (log_file : option string)
    (n total : Z) (best : option (Individual G)) out0 out :
  lvl ≠ NONE →
  let lg := (Logger_init lvl log_file n out0).1 in
  let to := stream_of log_file in
  let head :=
    out ++ [io_write to line_finished;
            io_write to (line_total_generations total)] in
  (best = None →
   Logger_log_end str lg best total out = (head, Some AttributeError))
  ∧ (∀ b, best = Some b → fitness b = None →
       Logger_log_end str lg best total out
       = (head, Some (Builtin TypeError)))
  ∧ (∀ b f, best = Some b → fitness b = Some f →
       ∃ snippet,
         Logger_log_end str lg best total out
         = (head ++ [io_write to (line_best_fitness f);
                     io_write to (line_best_age (age b));
                     io_write to (line_best_genotype snippet);
                     io_write to line_rule_end], None)
         ∧ String.length snippet ≤ 75
         ∧ (String.length (str (genotype b)) ≤ 75 →
            snippet = str (genotype b))
         ∧ (75 < String.length (str (genotype b)) →
            snippet = String.substring 0 70 (str (genotype b)) +:+ "...]"
            ∧ String.length snippet = 74)).
Proof.
  intros Hlvl lg to head.
  destruct (Logger_init_inv lvl log_file n out0) as (Hl & _ & _ & Hsome).
  destruct (Hsome Hlvl) as [Hs _]. fold lg in Hl, Hs.
  assert (level lg = INFO ∨ level lg = VERBOSE) as Hon
    by (rewrite Hl; destruct lvl; [done|by left|by right]).
  assert (∀ (message : line stat) out1,
            Logger_write lg message out1 = out1 ++ [io_write to message])
    as Hwrite by (intros; unfold Logger_write; by rewrite Hs).
  unfold Logger_log_end. rewrite decide_True by done.
  rewrite !Hwrite. unfold head.
  split; [intros ->; by rewrite <-app_assoc|]. split.
  - intros b -> Hb. rewrite Hb. by rewrite <-app_assoc.
  - intros b f -> Hb. rewrite Hb.
    exists (genotype_snippet str (genotype b)).
    split; [by rewrite !Hwrite, <-!app_assoc|].
    apply genotype_snippet_length.
Qed.
End Receive.
End LoggerFacts.


Lemma logger_generation_line_witness :
  Logger_log_generation (G:=list (option Z))
      (Logger_init (stat:=()) VERBOSE None 0 []).1 3
      (mkHistory [0; 3]%Z [7; 9]%Z [(); ()] [(); ()] [1; 2]%Z) (cand 9 0) []
    = Ok [io_write sys_stdout (line_generation 3 9 () () 2)].
Proof.
  destruct (logger_generation_line (G:=list (option Z)) (stat:=())
              VERBOSE None 0 3
              (mkHistory [0; 3]%Z [7; 9]%Z [(); ()] [(); ()] [1; 2]%Z)
              (cand 9 0) [] []) as (_ & Hwrite & _).
  apply Hwrite; [split; reflexivity|reflexivity..].
Defined.

Lemma logger_level_none_witness :
  Logger_replay (stat:=()) ex_str "Tournament" "Reproduction" "Plus"
      (Logger_init (stat:=()) NONE (Some "run.log") 5 []).1
      [log_start 2; log_end None 3; close] []
    = ((Logger_init (stat:=()) NONE (Some "run.log") 5 []).1, [], None).
Proof.
  destruct (logger_level_none (stat:=()) ex_str "Tournament" "Reproduction"
              "Plus" (Some "run.log") 5
              [log_start 2; log_end None 3; close] [] []) as [_ Hreplay].
  exact Hreplay.
Defined.

Lemma logger_close_file_witness :
  (Logger_init (stat:=()) INFO (Some "run.log") 5 []).2 = [io_open "run.log"]
  ∧ (Logger_close (stat:=())
       (Logger_init (stat:=()) INFO (Some "run.log") 5 []).1 []).2
    = [io_write (file_object "run.log") line_closed; io_close "run.log"].
Proof.
  destruct (logger_close_file (stat:=()) ex_str "Tournament" "Reproduction"
              "Plus" INFO (Some "run.log") 5 [] [] [] [])
    as [Hfile _]; [discriminate|].
  destruct (Hfile "run.log" eq_refl) as (Hopen & Hclose & _).
  exact (conj Hopen Hclose).
Defined.

Lemma run_logger_lines_witness :
  ∃ self0 self res s' lg' out',
    ex_plus_engine 2 = Ok self0
    ∧ run ex_stat ex_stat self0 3 0 = Ok (self, res, s')
    ∧ Logger_replay ex_str "Tournament" "Reproduction" "Plus"
        (Logger_init (stat:=()) VERBOSE None 2 []).1 (logger self) []
      = (lg', out', None)
    ∧ generation_lines out' = [0; 2]%Z.
Proof.
  destruct (ex_plus_engine 2) as [self0|] eqn:Hinit;
    [|by vm_compute in Hinit].
  destruct (run ex_stat ex_stat self0 3 0) as [[[self res] s']|] eqn:Hrun.
  - destruct (run_logger_lines ex_str "Tournament" "Reproduction" "Plus"
                ex_stat ex_stat _ _ _ _ _ _ _ _ _ _ _ _
                VERBOSE None 2 [] Hinit Hrun)
      as (lg' & out' & Hreplay & Hlines).
    exists self0, self, res, s', lg', out'.
    split; [reflexivity|]. split; [exact Hrun|]. split; [exact Hreplay|].
    rewrite Hlines. injection Hinit as <-. vm_compute in Hrun.
    injection Hrun as <- _ _. reflexivity.
  - injection Hinit as <-. by vm_compute in Hrun.
Defined.

Lemma logger_end_report_witness :
  Logger_log_end (stat:=()) ex_str
      (Logger_init (stat:=()) INFO (Some "stderr") 5 []).1
      (Some (cand 9 4)) 3 []
    = ([io_write sys_stderr line_finished;
        io_write sys_stderr (line_total_generations 3);
        io_write sys_stderr (line_best_fitness 9);
        io_write sys_stderr (line_best_age 4);
        io_write sys_stderr (line_best_genotype "[]");
        io_write sys_stderr line_rule_end], None).
Proof.
  destruct (logger_end_report (stat:=()) ex_str INFO (Some "stderr") 5 3
              (Some (cand 9 4)) [] []) as (_ & _ & Hok); [discriminate|].
  destruct (Hok (cand 9 4) 9%Z eq_refl eq_refl)
    as (snippet & Hrun & _ & Hshort & _).
  rewrite Hrun. rewrite Hshort by (vm_compute; lia). reflexivity.
Defined.


(** ** The age of the individuals *)

Section AgeFacts.
Context {rng G stat : Type} (np_mean np_std : list Z → stat).
Implicit Types (self : EvolutionaryAlgorithm rng G stat).
Implicit Types (ind : Individual G) (l : list (Individual G)).

Lemma update_history_strategies self (gen : Z) self' :
  _update_history_and_log np_mean np_std self gen = Ok self' →
  population self' = population self
  ∧ best_individual self' = best_individual self
  ∧ select_survivors self' = select_survivors self
  ∧ reproduce self' = reproduce self.
Proof.
  intros Hrun. apply update_history_inv in Hrun
    as [[-> _]|(_ & _ & b & _ & _ & _ & ->)]; by repeat split.
Qed.

Lemma age_evaluate_one (f : G → Z) ind : age (evaluate_one f ind) = age ind.
Proof. unfold evaluate_one. by destruct (fitness ind). Qed.

(** One generation: an individual of the new population was an individual
    of the old one, now a generation older, or is one of the offspring. *)
Lemma run_generation_ages self ss rp (P : Individual G → Prop)
    (k gen : Z) s self' s' :
  select_survivors self = ss → reproduce self = rp →
  selects_candidates ss → new_offspring rp →
  (∀ old offspring s0 survivors s1,
     ss old offspring s0 = Ok (survivors, s1) → Forall P survivors) →
  tracker_ok (best_individual self) → (0 ≤ k)%Z →
  Forall (λ ind, (0 ≤ age ind ≤ k)%Z) (population self) →
  run_generation np_mean np_std self gen s = Ok (self', s') →
  select_survivors self' = ss ∧ reproduce self' = rp
  ∧ tracker_ok (best_individual self')
  ∧ Forall (λ ind, (0 ≤ age ind ≤ k + 1)%Z) (population self')
  ∧ Forall P (population self').
Proof.
  intros Hss Hrp Hcand Hnew HP Hok Hk Hages Hrun.
  apply (run_generation_inv _ _ _ _ _ _ _ Hok) in Hrun
    as (parents & offspring & best1 & survivors & s1 & s2 & _ & Hrep & Hok1
        & _ & _ & _ & Hsurv & Hstats).
  apply update_history_strategies in Hstats as (-> & -> & -> & ->).
  engine_simpl. rewrite Hss in Hsurv. rewrite Hrp in Hrep.
  split; [done|]. split; [done|]. split; [done|].
  split; [|by eapply HP].
  apply Forall_forall. intros x Hx.
  apply (Hcand _ _ _ _ _ Hsurv) in Hx.
  apply elem_of_app in Hx as [Hx|Hx].
  - apply list_elem_of_fmap in Hx as (y & -> & Hy).
    pose proof (proj1 (Forall_forall _ _) Hages y Hy) as Hage.
    cbv beta in Hage. cbn. lia.
  - apply list_elem_of_fmap in Hx as (y & -> & Hy).
    rewrite age_evaluate_one.
    rewrite (proj1 (Forall_forall _ _) (Hnew _ _ _ _ _ Hrep) y Hy). lia.
Qed.

Lemma run_generations_ages (gens : list Z) self ss rp
    (P : Individual G → Prop) (k : Z) s self' s' :
  select_survivors self = ss → reproduce self = rp →
  selects_candidates ss → new_offspring rp →
  (∀ old offspring s0 survivors s1,
     ss old offspring s0 = Ok (survivors, s1) → Forall P survivors) →
  tracker_ok (best_individual self) → (0 ≤ k)%Z →
  Forall (λ ind, (0 ≤ age ind ≤ k)%Z) (population self) →
  run_generations np_mean np_std self gens s = Ok (self', s') →
  Forall (λ ind, (0 ≤ age ind ≤ k + Z.of_nat (length gens))%Z)
    (population self')
  ∧ (gens ≠ [] → Forall P (population self')).
Proof.
  intros Hss Hrp Hcand Hnew HP. revert self k s Hss Hrp.
  induction gens as [|gen gens IH]; intros self k s Hss Hrp Hok Hk Hages.
  { intros [= <- <-]. split; [|done]. eapply Forall_impl; [exact Hages|].
    intros ind Hage. cbv beta in Hage. cbn [length]. lia. }
  intros Hrun. cbn [run_generations] in Hrun.
  apply M_bind_inv in Hrun as (self1 & s1 & Hstep & Hrun).
  destruct (run_generation_ages _ _ _ P _ _ _ _ _ Hss Hrp Hcand Hnew HP
              Hok Hk Hages Hstep) as (Hss1 & Hrp1 & Hok1 & Hages1 & HP1).
  destruct (IH self1 (k + 1)%Z s1 Hss1 Hrp1 Hok1 ltac:(lia) Hages1 Hrun)
    as [Hages' HP'].
  split.
  - eapply Forall_impl; [exact Hages'|]. intros ind Hage.
    cbv beta in Hage. cbn [length]. lia.
  - intros _. destruct gens as [|gen' gens]; [|by apply HP'].
    by injection Hrun as <- _.
Qed.

Lemma py_prefix_subseteq {T : Type} (l : list T) (n : Z) : py_prefix l n ⊆ l.
Proof. unfold py_prefix. case_decide; apply subseteq_take. Qed.

Lemma plus_survivors_candidates (mu : Z) :
  selects_candidates (plus_survivors (rng:=rng) (G:=G) mu).
Proof.
  intros old offspring s survivors s' Hrun. unfold plus_survivors in Hrun.
  apply lift_inv in Hrun as [Hrun _]. unfold PlusSelection_call in Hrun.
  apply result_bind_inv in Hrun as (sorted & Hsort & [= <-]).
  unfold sort_by_fitness_reverse in Hsort. case_decide; [|done].
  injection Hsort as <-. etrans; [apply py_prefix_subseteq|].
  intros x. by rewrite sorted_desc_Permutation.
Qed.

Lemma age_based_survivors_candidates (mu max_age : Z) :
  selects_candidates (age_based_survivors (rng:=rng) (G:=G) mu max_age)
  ∧ ∀ old offspring s survivors s',
      age_based_survivors (rng:=rng) mu max_age old offspring s
        = Ok (survivors, s') →
      Forall (λ ind : Individual G, (age ind ≤ max_age)%Z) survivors.
Proof.
  assert (∀ old offspring (s : rng) survivors s',
            age_based_survivors mu max_age old offspring s
              = Ok (survivors, s') →
            survivors
            ⊆ filter (λ ind : Individual G, (age ind ≤ max_age)%Z)
                (old ++ offspring)) as Hsub.
  { intros old offspring s survivors s' Hrun.
    unfold age_based_survivors in Hrun.
    apply lift_inv in Hrun as [Hrun _].
    unfold PlusAgeBasedSelection_call in Hrun.
    apply result_bind_inv in Hrun as (sorted & Hsort & [= <-]).
    unfold sort_by_fitness_reverse in Hsort. case_decide; [|done].
    injection Hsort as <-. etrans; [apply py_prefix_subseteq|].
    intros x. by rewrite sorted_desc_Permutation. }
  split.
  - intros old offspring s survivors s' Hrun x Hx.
    apply (Hsub _ _ _ _ _ Hrun), list_elem_of_filter in Hx. tauto.
  - intros old offspring s survivors s' Hrun. apply Forall_forall.
    intros x Hx.
    apply (Hsub _ _ _ _ _ Hrun), list_elem_of_filter in Hx. tauto.
Qed.

(** X24.  The age of an individual counts the generations it has lived
    through.  In an engine whose survivor selection returns candidates
    only and whose reproduction yields offspring of age 0, every
    individual of the population that [run] leaves has an age between 0
    and the number of generations run.  With [PlusAgeBasedSelection], once
    a generation has been run, no individual of the population is older
    than [max_age]. *)
Theorem population_ages f create sp rp ss (n g : Z) self0 s self res s' :
  EvolutionaryAlgorithm_init f create sp rp ss n = Ok self0 →
  selects_candidates ss → new_offspring rp →
  run np_mean np_std self0 g s = Ok (self, res, s') →
  Forall (λ ind, (0 ≤ age ind ≤ 0 `max` g)%Z) (population self)
  ∧ (∀ mu max_age, ss = age_based_survivors mu max_age → (1 ≤ g)%Z →
       Forall (λ ind, (age ind ≤ max_age)%Z) (population self)).
Proof.
  intros Hinit Hcand Hnew Hrun.
  destruct (run_inv _ _ _ _ _ _ _ _ _ _ _ _ _ _ Hinit Hrun)
    as (self1 & s1 & self2 & Hstart & Hloop & -> & _ & _ & _).
  destruct (run_init_inv _ _ _ _ _ _ _ _ _ _ _ _ Hinit Hstart)
    as (gs & b0 & b & _ & _ & _ & Hev & _ & Hb0 & _ & _ & ->).
  assert (tracker_ok (Some b0)) as Hok.
  { intros ? [= <-]. by apply (proj1 (Forall_forall _ _) Hev). }
  assert (Forall (λ ind : Individual G, (0 ≤ age ind ≤ 0)%Z)
            (evaluate_one f <$> (Individual_init <$> gs))) as Hages0.
  { rewrite <-list_fmap_compose. apply Forall_fmap, Forall_forall.
    intros g0 _.
    change (0 ≤ age (evaluate_one f (Individual_init g0)) ≤ 0)%Z.
    by rewrite age_evaluate_one. }
  assert (length (generation_range g) = Z.to_nat g) as Hlen
    by (unfold generation_range; by rewrite length_fmap, length_seq).
  split.
  - assert (∀ old offspring (s0 : rng) survivors s2,
              ss old offspring s0 = Ok (survivors, s2) →
              Forall (λ _ : Individual G, True) survivors) as HT.
    { intros old offspring s0 survivors s2 _. by apply Forall_true. }
    eapply (run_generations_ages _ _ ss rp (λ _, True) 0) in Hloop
      as [Hages _];
      [|reflexivity|reflexivity|exact Hcand|exact Hnew|exact HT|exact Hok
       |done|exact Hages0].
    eapply Forall_impl; [exact Hages|]. intros ind Hage.
    cbv beta in Hage. rewrite Hlen in Hage. lia.
  - intros mu max_age -> Hg.
    destruct (age_based_survivors_candidates mu max_age) as [_ Hold].
    eapply (run_generations_ages _ _ (age_based_survivors mu max_age) rp
              (λ ind, (age ind ≤ max_age)%Z) 0) in Hloop
      as [_ HP];
      [|reflexivity|reflexivity|exact Hcand|exact Hnew|exact Hold|exact Hok
       |done|exact Hages0].
    apply HP. intros Hnil. apply generation_range_nil in Hnil. lia.
Qed.
End AgeFacts.

Lemma ex_reproduce_late_new : new_offspring ex_reproduce_late.
Proof.
  intros parents gen s offspring s'. unfold ex_reproduce_late.
  case_decide; intros [= <- <-]; by repeat constructor.
Qed.

Lemma population_ages_witness :
  ∃ self0 self res s',
    ex_gap_engine = Ok self0
    ∧ run ex_stat ex_stat self0 2 0 = Ok (self, res, s')
    ∧ Forall (λ ind, (0 ≤ age ind ≤ 2)%Z) (population self)
    ∧ Forall (λ ind, (age ind ≤ 0)%Z) (population self).
Proof.
  destruct ex_gap_engine as [self0|] eqn:Hinit; [|by vm_compute in Hinit].
  destruct (run ex_stat ex_stat self0 2 0) as [[[self res] s']|] eqn:Hrun.
  - exists self0, self, res, s'. split; [reflexivity|].
    split; [exact Hrun|].
    destruct (age_based_survivors_candidates (rng:=nat)
                (G:=list (option Z)) 1 0) as [Hcand _].
    destruct (population_ages ex_stat ex_stat _ _ _ _ _ _ _ _ _ _ _ _
                Hinit Hcand ex_reproduce_late_new Hrun) as [Hages Hold].
    split; [exact Hages|]. apply (Hold 1%Z 0%Z); [reflexivity|lia].
  - injection Hinit as <-. by vm_compute in Hrun.
Defined.
